(** * Guided local search for the CVRP: cost evaluator and cross-exchange

    A shallow embedding of [kgls/datastructure/cost_evaluator.py] and
    [kgls/local_search/operator_cross_exchange.py], together with the part
    of the Python runtime they rely on ([float], [round], [heapq], [sorted],
    insertion-ordered [dict]).

    Conventions.
    - Python [int] is [Z]; Python [float] is IEEE binary64, i.e. Rocq's
      primitive [float] (same format, same round-to-nearest-even).
      [math.pow] is the one operation that goes through the C library
      without a correctly rounded result; what the library returns is a
      parameter ([Libm]).
    - A Python object reference is a [ref]; objects live in total stores
      ([node_at], [route_at]) because a Python reference never dangles.
    - A raised exception is [None]; a function that can raise returns an
      [option].  Loops that Python runs with [while] take a [fuel] argument
      and return [None] when it runs out. *)

From Stdlib Require Import ZArith Floats Lia Sorted.
From stdpp Require Import gmap list.

Set Warnings "-inexact-float".
Open Scope Z_scope.

(* ===================================================================== *)
(** * Part I: the Python runtime                                          *)
(* ===================================================================== *)

(** ** Numbers *)

(** A value that is dynamically an [int] or a [float]. *)
Inductive pynum :=
  | PyInt (z : Z)
  | PyFloat (f : float).

(** [float(z)]: nearest binary64, ties to even; [OverflowError] when the
    integer is too large. *)
Definition py_float_of_int (z : Z) : option float :=
  let f := SF2Prim (binary_normalize prec emax z 0 false) in
  if is_infinity f then None else Some f.

Definition py_to_float (v : pynum) : option float :=
  match v with
  | PyInt z => py_float_of_int z
  | PyFloat f => Some f
  end.

(** Nearest integer to [m / 2^k], ties to the even one. *)
Definition round_half_even_shift (m : Z) (k : positive) : Z :=
  let d := 2 ^ Zpos k in
  let q := m / d in
  let r := m mod d in
  if 2 * r <? d then q
  else if d <? 2 * r then q + 1
  else if Z.even q then q else q + 1.

(** [round(f)] with one argument: an [int], ties to even; [ValueError] on a
    NaN and [OverflowError] on an infinity. *)
Definition py_round (f : float) : option Z :=
  match Prim2SF f with
  | S754_zero _ => Some 0
  | S754_finite s m e =>
      let v := match e with
               | Z0 => Zpos m
               | Zpos p => Zpos m * 2 ^ Zpos p
               | Zneg p => round_half_even_shift (Zpos m) p
               end in
      Some (if s then - v else v)
  | S754_infinity _ | S754_nan => None
  end.

(** [int(f)]: truncation towards zero. *)
Definition py_int_of_float (f : float) : option Z :=
  match Prim2SF f with
  | S754_zero _ => Some 0
  | S754_finite s m e =>
      let v := match e with
               | Z0 => Zpos m
               | Zpos p => Zpos m * 2 ^ Zpos p
               | Zneg p => Zpos m / 2 ^ Zpos p
               end in
      Some (if s then - v else v)
  | S754_infinity _ | S754_nan => None
  end.

(** [a / b] on two [int]s: the correctly rounded quotient.  The quotient is
    computed with at least 55 significant bits and a sticky bit, and then
    rounded once to binary64. *)
Definition py_int_truediv (a b : Z) : option float :=
  if b =? 0 then None
  else if a =? 0 then Some (if b <? 0 then neg_zero else zero)
  else
    let A := Z.abs a in
    let B := Z.abs b in
    let k := Z.max 0 (Z.log2 B + 56 - Z.log2 A) in
    let q := (A * 2 ^ k) / B in
    let sticky := if (A * 2 ^ k) mod B =? 0 then 0 else 1 in
    let m := 2 * q + sticky in
    let neg := xorb (a <? 0) (b <? 0) in
    let f := SF2Prim (binary_normalize prec emax (if neg then - m else m) (- k - 1) false) in
    if is_infinity f then None else Some f.

(** [a / b] in general; [ZeroDivisionError] on a zero divisor. *)
Definition py_truediv (a b : pynum) : option float :=
  match a, b with
  | PyInt x, PyInt y => py_int_truediv x y
  | _, _ =>
      x ← py_to_float a;
      y ← py_to_float b;
      if is_zero y then None else Some (x / y)%float
  end.

Definition py_add (a b : pynum) : option pynum :=
  match a, b with
  | PyInt x, PyInt y => Some (PyInt (x + y))
  | _, _ => x ← py_to_float a; y ← py_to_float b; Some (PyFloat (x + y)%float)
  end.

Definition py_sub (a b : pynum) : option pynum :=
  match a, b with
  | PyInt x, PyInt y => Some (PyInt (x - y))
  | _, _ => x ← py_to_float a; y ← py_to_float b; Some (PyFloat (x - y)%float)
  end.

Definition py_abs (a : pynum) : pynum :=
  match a with
  | PyInt x => PyInt (Z.abs x)
  | PyFloat f => PyFloat (abs f)
  end.

(** The C library behind [math.pow].  CPython hands a finite [x] to the
    platform's [pow(x, 2.0)], whose last bit the C standard leaves open:
    the result need not be the correctly rounded square.  What is used of
    it is that the sign of [x] does not matter, as for every even integer
    exponent, and that [pow(0.0, 2.0)] is [0.0] (C99, F.10.4.4). *)
Class Libm := {
  libm_pow2 : float -> float;
  libm_pow2_abs : forall x, libm_pow2 (abs x) = libm_pow2 x;
  libm_pow2_zero : libm_pow2 0 = 0%float
}.

(** [math.pow(x, 2)]: a NaN and an infinity are answered without the C
    library (a NaN by itself, an infinity by the positive infinity); for a
    finite [x] the result of the C library is returned when it is finite,
    and a NaN or an infinity there raises [ValueError] or
    [OverflowError]. *)
Definition math_pow2 {libm : Libm} (x : float) : option float :=
  if is_nan x then Some x
  else if is_infinity x then Some infinity
  else
    let r := libm_pow2 x in
    if is_finite r then Some r else None.

(** [math.sqrt(x)]; [ValueError] on a negative argument. *)
Definition math_sqrt (x : float) : option float :=
  if (x <? 0)%float then None else Some (sqrt x).

(** [sum] of floats, started at the [int] 0, added left to right. *)
Definition py_sum_floats (l : list float) : option pynum :=
  foldl (fun acc x => a ← acc; py_add a (PyFloat x)) (Some (PyInt 0)) l.

(** ** Loops that may raise *)

Fixpoint foldlM {A B : Type} (f : B -> A -> option B) (b : B) (l : list A) : option B :=
  match l with
  | [] => Some b
  | x :: l' => b' ← f b x; foldlM f b' l'
  end.

(** ** Lists *)

(** [l[i]] with Python's negative indices; [IndexError] outside. *)
Definition py_list_get {A : Type} (l : list A) (i : Z) : option A :=
  let n := Z.of_nat (length l) in
  if (0 <=? i) && (i <? n) then l !! Z.to_nat i
  else if (- n <=? i) && (i <? 0) then l !! Z.to_nat (n + i)
  else None.

(** [sorted]: a stable sort that only uses [<].  For a strict weak order
    the stable result is unique, so insertion from the right gives the
    list Python's merge sort gives. *)
Section Sorted.
Context {A : Type} (lt : A -> A -> bool).

Fixpoint insert_stable (x : A) (l : list A) : list A :=
    match l with
    | [] => [x]
    | y :: l' => if lt y x then y :: insert_stable x l' else x :: y :: l'
    end.

Definition py_sorted (l : list A) : list A := foldr insert_stable [] l.
End Sorted.

(** ** Insertion-ordered dictionaries *)

(** A [dict] whose iteration order the code relies on: an association list
    in insertion order, with one entry per key. *)
Section PyDict.
Context {K V : Type} `{EqDecision K}.

Fixpoint dict_get (k : K) (d : list (K * V)) : option V :=
    match d with
    | [] => None
    | (k', v) :: d' => if decide (k' = k) then Some v else dict_get k d'
    end.

  (** [d[k] = v]: an existing key keeps its place. *)
Fixpoint dict_set (k : K) (v : V) (d : list (K * V)) : list (K * V) :=
    match d with
    | [] => [(k, v)]
    | (k', v') :: d' =>
        if decide (k' = k) then (k', v) :: d' else (k', v') :: dict_set k v d'
    end.

Definition dict_keys (d : list (K * V)) : list K := d.*1.
Definition dict_items (d : list (K * V)) : list (K * V) := d.
End PyDict.

(** ** heapq *)

(** [(pos - 1) >> 1] and [2*pos + 1]. *)
Definition parent_pos (pos : nat) : nat := ((pos - 1) / 2)%nat.
Definition child_pos (pos : nat) : nat := (2 * pos + 1)%nat.
Arguments parent_pos : simpl never.
Arguments child_pos : simpl never.

(** The binary heap of Python's [heapq] on a list, for elements compared
    with [lt] (their [__lt__]). *)
Section Heapq.
Context {A : Type} (lt : A -> A -> bool).

  (** The loop of [_siftdown]: [newitem] travels from [pos] towards
      [startpos] while it is smaller than its parent.  [pos] decreases at
      every step, so [fuel = pos] is never exhausted before the loop ends
      by itself. *)
Fixpoint siftdown_loop (fuel : nat) (heap : list A) (startpos pos : nat) (newitem : A)
    : list A :=
    match fuel with
    | O => <[pos := newitem]> heap
    | S fuel' =>
        if bool_decide (startpos < pos)%nat then
          let parentpos := parent_pos pos in
          match heap !! parentpos with
          | Some parent =>
              if lt newitem parent
              then siftdown_loop fuel' (<[pos := parent]> heap) startpos parentpos newitem
              else <[pos := newitem]> heap
          | None => <[pos := newitem]> heap
          end
        else <[pos := newitem]> heap
    end.

Definition _siftdown (heap : list A) (startpos pos : nat) : list A :=
    match heap !! pos with
    | Some newitem => siftdown_loop pos heap startpos pos newitem
    | None => heap
    end.

  (** The loop of [_siftup]: the smaller child moves up until [pos] is a
      leaf.  Returns the list and the leaf reached. *)
Fixpoint siftup_loop (fuel : nat) (heap : list A) (pos : nat) : list A * nat :=
    match fuel with
    | O => (heap, pos)
    | S fuel' =>
        let endpos := length heap in
        let childpos := child_pos pos in
        if bool_decide (childpos < endpos)%nat then
          let rightpos := (childpos + 1)%nat in
          let childpos' :=
            match heap !! childpos, heap !! rightpos with
            | Some c, Some r => if negb (lt c r) then rightpos else childpos
            | _, _ => childpos
            end in
          match heap !! childpos' with
          | Some child => siftup_loop fuel' (<[pos := child]> heap) childpos'
          | None => (heap, pos)
          end
        else (heap, pos)
    end.

Definition _siftup (heap : list A) (pos : nat) : list A :=
    match heap !! pos with
    | Some newitem =>
        let '(heap', leaf) := siftup_loop (length heap) heap pos in
        _siftdown (<[leaf := newitem]> heap') pos leaf
    | None => heap
    end.

Definition heappush (heap : list A) (item : A) : list A :=
    _siftdown (heap ++ [item]) 0 (length heap).

  (** [heappop]: [IndexError] on an empty heap. *)
Definition heappop (heap : list A) : option (A * list A) :=
    match last heap with
    | None => None
    | Some lastelt =>
        let heap' := removelast heap in
        match heap' with
        | [] => Some (lastelt, [])
        | returnitem :: _ => Some (returnitem, _siftup (<[0%nat := lastelt]> heap') 0)
        end
    end.

  (** [heapify]: [_siftup] at [n/2 - 1], ..., [0]. *)
Definition heapify (x : list A) : list A :=
    foldl _siftup x (rev (seq 0 (length x / 2))).
End Heapq.

(* ===================================================================== *)
(** * Part II: the data model                                             *)
(* ===================================================================== *)

(** The identity of a Python object. *)
Definition ref := nat.

(** Modelled from the spec: the class [Node] is not among the source files.
    "Immutable identity: node_id, x, y, demand, is_depot.  Mutable
    participation: prev, next (neighbors in its current route), route
    (back-reference)."  Nodes are compared and hashed by identity. *)
Record Node := mkNode {
  node_id : Z;
  x_coordinate : float;
  y_coordinate : float;
  demand : Z;
  is_depot : bool;
  prev : ref;
  next : ref;
  route : ref
}.

Arguments mkNode node_id%_Z x_coordinate%_float y_coordinate%_float demand%_Z is_depot
  prev%_nat next%_nat route%_nat.

(** Modelled from the spec: the class [Edge] is not among the source files.
    "Unordered pair {a, b} with equality and hash independent of order.
    Carries a floating value used only during ranking." *)
Record Edge := mkEdge {
  edge_nodes : ref * ref;
  value : float
}.

Arguments mkEdge edge_nodes%_nat value%_float.

Definition get_first_node (e : Edge) : ref := fst (edge_nodes e).
Definition get_second_node (e : Edge) : ref := snd (edge_nodes e).

(** Modelled from the spec: the key under which an [Edge] is hashed, its
    unordered pair of nodes ("represent as the ordered pair (min, max)"). *)
Definition edge_key (e : Edge) : nat * nat :=
  (Nat.min (get_first_node e) (get_second_node e),
   Nat.max (get_first_node e) (get_second_node e)).

(** Modelled from the spec: [Edge.__lt__], "a max-priority queue of Edges
    keyed by a numeric value field": an edge is smaller for [heapq] when
    its value is larger. *)
Definition edge_lt (a b : Edge) : bool := (value b <? value a)%float.

(** Modelled from the spec: the class [Route] is not among the source
    files.  "Has a depot sentinel Node, a volume (sum of demands of
    non-depot members), and a size (count of non-depot members)." *)
Record Route := mkRoute {
  depot : ref;
  volume : Z;
  size : Z
}.

Arguments mkRoute depot%_nat volume%_Z size%_Z.

(** The objects of a solution: every [Node] and [Route] object, and the
    solution's list of routes. *)
Record VRPSolution := mkSolution {
  node_at : ref -> Node;
  route_at : ref -> Route;
  routes : list ref
}.

(** Modelled from the spec: [Node.get_neighbour], "neighbour(0)=next,
    neighbour(1)=prev". *)
Definition get_neighbour (sol : VRPSolution) (n : ref) (direction : Z) : option ref :=
  if direction =? 0 then Some (next (node_at sol n))
  else if direction =? 1 then Some (prev (node_at sol n))
  else None.

(** [walk step k r] is [r, step r, ..., step^(k-1) r]. *)
Fixpoint walk (step : ref -> ref) (k : nat) (r : ref) : list ref :=
  match k with
  | O => []
  | S k' => r :: walk step k' (step r)
  end.

(** Modelled from the spec: [Route.get_nodes], the non-depot members in
    route order ("traversing next from R.depot returns to R.depot in
    exactly R.size + 1 steps"). *)
Definition get_nodes (sol : VRPSolution) (rt : ref) : list ref :=
  let r := route_at sol rt in
  walk (fun n => next (node_at sol n)) (Z.to_nat (size r)) (next (node_at sol (depot r))).

Fixpoint consecutive_pairs (l : list ref) : list (ref * ref) :=
  match l with
  | a :: (b :: _) as l' => (a, b) :: consecutive_pairs l'
  | _ => []
  end.

(** Modelled from the spec: [Route.get_edges], "every consecutive pair
    along each route's cycle, including depot-adjacent edges". *)
Definition get_edges (sol : VRPSolution) (rt : ref) : list Edge :=
  let d := depot (route_at sol rt) in
  (fun p => mkEdge p 0%float) <$> consecutive_pairs (d :: get_nodes sol rt ++ [d]).

(** The class [MaxHeapWithUpdate]: a [heapq] list of edges. *)
Definition MaxHeapWithUpdate (elements : list Edge) : list Edge := heapify edge_lt elements.
Definition get_max_element (heap : list Edge) : option (Edge * list Edge) :=
  heappop edge_lt heap.
Definition insert_element (heap : list Edge) (element : Edge) : list Edge :=
  heappush edge_lt heap element.
Definition get_sorted_list (heap : list Edge) : list Edge := py_sorted edge_lt heap.

(** The three badness criteria and their cycle. *)
Inductive criterium := width | length_ | width_length.

Definition next_criterium (c : criterium) : criterium :=
  match c with
  | width => length_
  | length_ => width_length
  | width_length => width
  end.

(** The state of a [CostEvaluator]. *)
Record CostEvaluator := mkCostEvaluator {
  nodes : list ref;
  _penalization_enabled : bool;
  _edge_penalties : gmap (nat * nat) Z;
  _baseline_cost : Z;
  _edge_ranking : option (list Edge);
  neighborhood_size : nat;
  _capacity : Z;
  _costs : gmap Z (list (Z * Z));
  _penalized_costs : gmap Z (list (Z * Z));
  neighborhood : list (ref * list ref);
  _in_neighborhood_of : list (ref * list ref);
  _nodes_to_update_for_relocation_chain : list ref;
  _penalization_criterium : criterium;
  ejection_costs : gmap ref Z;
  insertion_costs : gmap (ref * ref) Z;
  insertion_after : gmap (ref * ref) ref
}.

(** [m[i][j]] on a dictionary of dictionaries. *)
Definition matrix_get (m : gmap Z (list (Z * Z))) (i j : Z) : option Z :=
  row ← m !! i; dict_get j row.

(** [m[i][j] = v]; [KeyError] when the row [i] is missing. *)
Definition matrix_set (m : gmap Z (list (Z * Z))) (i j v : Z) : option (gmap Z (list (Z * Z))) :=
  row ← m !! i; Some (<[i := dict_set j v row]> m).

(** Reading a [defaultdict(int)] creates the missing entry. *)
Definition defaultdict_get (m : gmap (nat * nat) Z) (k : nat * nat) : Z * gmap (nat * nat) Z :=
  match m !! k with
  | Some v => (v, m)
  | None => (0, <[k := 0]> m)
  end.

(* ===================================================================== *)
(** * Part III: the cost evaluator                                        *)
(* ===================================================================== *)

Section CostEvaluatorMethods.
Context {libm : Libm}.
Variable sol : VRPSolution.

Definition _compute_euclidean_distance (node1 node2 : ref) : option Z :=
    let n1 := node_at sol node1 in
    let n2 := node_at sol node2 in
    dx ← math_pow2 (x_coordinate n1 - x_coordinate n2)%float;
    dy ← math_pow2 (y_coordinate n1 - y_coordinate n2)%float;
    s ← math_sqrt (dx + dy)%float;
    py_round s.

Definition get_neighborhood (self : CostEvaluator) (node : ref) : option (list ref) :=
    dict_get node (neighborhood self).

Definition is_feasible (self : CostEvaluator) (capacity : Z) : bool :=
    capacity <=? _capacity self.

Definition get_distance (self : CostEvaluator) (node1 node2 : ref) : option Z :=
    if negb (_penalization_enabled self)
    then matrix_get (_costs self) (node_id (node_at sol node1)) (node_id (node_at sol node2))
    else matrix_get (_penalized_costs self) (node_id (node_at sol node1)) (node_id (node_at sol node2)).

  (** *** Construction *)

Definition build_costs (nodes : list ref) : option (gmap Z (list (Z * Z))) :=
    foldlM (fun costs node1 =>
              row ← foldlM (fun row node2 =>
                              d ← _compute_euclidean_distance node1 node2;
                              Some (dict_set (node_id (node_at sol node2)) d row))
                           [] nodes;
              Some (<[node_id (node_at sol node1) := row]> costs))
           ∅ nodes.

Definition build_penalized_costs (costs : gmap Z (list (Z * Z))) (nodes : list ref)
    : option (gmap Z (list (Z * Z))) :=
    foldlM (fun pen node1 =>
              row ← foldlM (fun row node2 =>
                              d ← matrix_get costs (node_id (node_at sol node1)) (node_id (node_at sol node2));
                              Some (dict_set (node_id (node_at sol node2)) d row))
                           [] nodes;
              Some (<[node_id (node_at sol node1) := row]> pen))
           ∅ nodes.

Definition _get_nearest_neighbors (nodes : list ref) (costs : gmap Z (list (Z * Z)))
      (neighborhood_size : nat) (node : ref) : option (list ref) :=
    row ← costs !! node_id (node_at sol node);
    let sorted_distances_asc := py_sorted (fun a b => snd a <? snd b) (dict_items row) in
    candidates ← mapM (fun '(n, _) => py_list_get nodes n) sorted_distances_asc;
    Some (take neighborhood_size
            (filter (fun m => is_depot (node_at sol m) = false ∧ m ≠ node) candidates)).

Definition _compute_neighborhood (nodes : list ref) (costs : gmap Z (list (Z * Z)))
      (neighborhood_size : nat) : option (list (ref * list ref) * list (ref * list ref)) :=
    neighborhood ←
      foldlM (fun d node =>
                if is_depot (node_at sol node) then Some d
                else nn ← _get_nearest_neighbors nodes costs neighborhood_size node;
                     Some (dict_set node nn d))
             [] nodes;
    in_neighborhood_of ←
      foldlM (fun d node =>
                if is_depot (node_at sol node) then Some d
                else others ← (* [other for other in neighborhood if node in neighborhood[other]] *)
                       foldlM (fun acc other =>
                                 l ← dict_get other neighborhood;
                                 Some (if bool_decide (node ∈ l) then acc ++ [other] else acc))
                              [] (dict_keys neighborhood);
                     Some (dict_set node others d))
             [] nodes;
    Some (neighborhood, in_neighborhood_of).

Definition CostEvaluator_init (nodes : list ref) (capacity : Z) : option CostEvaluator :=
    let neighborhood_size := 20%nat in
    costs ← build_costs nodes;
    penalized ← build_penalized_costs costs nodes;
    '(neighborhood, in_neighborhood_of) ← _compute_neighborhood nodes costs neighborhood_size;
    let dirty := filter (fun node => is_depot (node_at sol node) = false) nodes in
    total ←
      foldlM (fun acc node =>
                if is_depot (node_at sol node) then Some acc
                else others ← dict_get node neighborhood;
                     foldlM (fun acc' other =>
                               d ← matrix_get costs (node_id (node_at sol node)) (node_id (node_at sol other));
                               Some (acc' + d))
                            acc others)
             0 nodes;
    avg ← py_int_truediv total (Z.of_nat neighborhood_size * Z.of_nat (length nodes));
    baseline ← py_int_of_float avg;
    Some {| nodes := nodes;
            _penalization_enabled := false;
            _edge_penalties := ∅;
            _baseline_cost := baseline;
            _edge_ranking := None;
            neighborhood_size := neighborhood_size;
            _capacity := capacity;
            _costs := costs;
            _penalized_costs := penalized;
            neighborhood := neighborhood;
            _in_neighborhood_of := in_neighborhood_of;
            _nodes_to_update_for_relocation_chain := dirty;
            _penalization_criterium := width;
            ejection_costs := ∅;
            insertion_costs := ∅;
            insertion_after := ∅ |}.
End CostEvaluatorMethods.

(** Field updates of the evaluator's state. *)
Definition set_penalization_enabled (v : bool) (s : CostEvaluator) : CostEvaluator :=
  mkCostEvaluator (nodes s) v (_edge_penalties s) (_baseline_cost s) (_edge_ranking s)
    (neighborhood_size s) (_capacity s) (_costs s) (_penalized_costs s) (neighborhood s)
    (_in_neighborhood_of s) (_nodes_to_update_for_relocation_chain s)
    (_penalization_criterium s) (ejection_costs s) (insertion_costs s) (insertion_after s).

Definition set_edge_penalties (v : gmap (nat * nat) Z) (s : CostEvaluator) : CostEvaluator :=
  mkCostEvaluator (nodes s) (_penalization_enabled s) v (_baseline_cost s) (_edge_ranking s)
    (neighborhood_size s) (_capacity s) (_costs s) (_penalized_costs s) (neighborhood s)
    (_in_neighborhood_of s) (_nodes_to_update_for_relocation_chain s)
    (_penalization_criterium s) (ejection_costs s) (insertion_costs s) (insertion_after s).

Definition set_edge_ranking (v : option (list Edge)) (s : CostEvaluator) : CostEvaluator :=
  mkCostEvaluator (nodes s) (_penalization_enabled s) (_edge_penalties s) (_baseline_cost s) v
    (neighborhood_size s) (_capacity s) (_costs s) (_penalized_costs s) (neighborhood s)
    (_in_neighborhood_of s) (_nodes_to_update_for_relocation_chain s)
    (_penalization_criterium s) (ejection_costs s) (insertion_costs s) (insertion_after s).

Definition set_penalized_costs (v : gmap Z (list (Z * Z))) (s : CostEvaluator) : CostEvaluator :=
  mkCostEvaluator (nodes s) (_penalization_enabled s) (_edge_penalties s) (_baseline_cost s)
    (_edge_ranking s) (neighborhood_size s) (_capacity s) (_costs s) v (neighborhood s)
    (_in_neighborhood_of s) (_nodes_to_update_for_relocation_chain s)
    (_penalization_criterium s) (ejection_costs s) (insertion_costs s) (insertion_after s).

Definition set_nodes_to_update (v : list ref) (s : CostEvaluator) : CostEvaluator :=
  mkCostEvaluator (nodes s) (_penalization_enabled s) (_edge_penalties s) (_baseline_cost s)
    (_edge_ranking s) (neighborhood_size s) (_capacity s) (_costs s) (_penalized_costs s)
    (neighborhood s) (_in_neighborhood_of s) v
    (_penalization_criterium s) (ejection_costs s) (insertion_costs s) (insertion_after s).

Definition set_penalization_criterium (v : criterium) (s : CostEvaluator) : CostEvaluator :=
  mkCostEvaluator (nodes s) (_penalization_enabled s) (_edge_penalties s) (_baseline_cost s)
    (_edge_ranking s) (neighborhood_size s) (_capacity s) (_costs s) (_penalized_costs s)
    (neighborhood s) (_in_neighborhood_of s) (_nodes_to_update_for_relocation_chain s)
    v (ejection_costs s) (insertion_costs s) (insertion_after s).

Definition set_ejection_costs (v : gmap ref Z) (s : CostEvaluator) : CostEvaluator :=
  mkCostEvaluator (nodes s) (_penalization_enabled s) (_edge_penalties s) (_baseline_cost s)
    (_edge_ranking s) (neighborhood_size s) (_capacity s) (_costs s) (_penalized_costs s)
    (neighborhood s) (_in_neighborhood_of s) (_nodes_to_update_for_relocation_chain s)
    (_penalization_criterium s) v (insertion_costs s) (insertion_after s).

Definition set_insertion (c : gmap (ref * ref) Z) (a : gmap (ref * ref) ref) (s : CostEvaluator)
  : CostEvaluator :=
  mkCostEvaluator (nodes s) (_penalization_enabled s) (_edge_penalties s) (_baseline_cost s)
    (_edge_ranking s) (neighborhood_size s) (_capacity s) (_costs s) (_penalized_costs s)
    (neighborhood s) (_in_neighborhood_of s) (_nodes_to_update_for_relocation_chain s)
    (_penalization_criterium s) (ejection_costs s) c a.

Section CostEvaluatorUpdates.
Context {libm : Libm}.
Variable sol : VRPSolution.

  (** *** Relocation caches *)

Definition update_ejection_costs (self : CostEvaluator) (node : ref) : option CostEvaluator :=
    let n := node_at sol node in
    a ← get_distance sol self node (prev n);
    b ← get_distance sol self node (next n);
    c ← get_distance sol self (prev n) (next n);
    Some (set_ejection_costs (<[node := a + b - c]> (ejection_costs self)) self).

Definition _update_insertion_costs (self : CostEvaluator) (node insert_next_to_node : ref)
    : option CostEvaluator :=
    let a := node_at sol insert_next_to_node in
    b1 ← get_distance sol self node (prev a);
    b2 ← get_distance sol self node insert_next_to_node;
    b3 ← get_distance sol self (prev a) insert_next_to_node;
    let cost_insert_before := b1 + b2 - b3 in
    a1 ← get_distance sol self node (next a);
    a2 ← get_distance sol self node insert_next_to_node;
    a3 ← get_distance sol self insert_next_to_node (next a);
    let cost_insert_after := a1 + a2 - a3 in
    if cost_insert_before <=? cost_insert_after then
      Some (set_insertion
              (<[(node, insert_next_to_node) := cost_insert_before]> (insertion_costs self))
              (<[(node, insert_next_to_node) := prev a]> (insertion_after self)) self)
    else
      Some (set_insertion
              (<[(node, insert_next_to_node) := cost_insert_after]> (insertion_costs self))
              (<[(node, insert_next_to_node) := insert_next_to_node]> (insertion_after self)) self).

Definition update_relocation_costs (self : CostEvaluator) : option CostEvaluator :=
    self' ←
      foldlM (fun s node =>
                s1 ← update_ejection_costs s node;
                ns ← dict_get node (_in_neighborhood_of s1);
                s2 ← foldlM (fun s' potential_neighbour =>
                               _update_insertion_costs s' node potential_neighbour) s1 ns;
                ns' ← dict_get node (_in_neighborhood_of s2);
                foldlM (fun s' potential_neighbour =>
                          _update_insertion_costs s' potential_neighbour node) s2 ns')
             self (_nodes_to_update_for_relocation_chain self);
    Some (set_nodes_to_update [] self').

  (** *** Edge badness *)

Definition _compute_edge_length_value (self : CostEvaluator) (edge : Edge) : option pynum :=
    PyInt <$> matrix_get (_costs self)
                (node_id (node_at sol (fst (edge_nodes edge))))
                (node_id (node_at sol (snd (edge_nodes edge)))).

Definition _compute_route_center (nodes : list ref) : option (float * float) :=
    sx ← py_sum_floats ((fun n => x_coordinate (node_at sol n)) <$> nodes);
    mean_x ← py_truediv sx (PyInt (Z.of_nat (length nodes)));
    sy ← py_sum_floats ((fun n => y_coordinate (node_at sol n)) <$> nodes);
    mean_y ← py_truediv sy (PyInt (Z.of_nat (length nodes)));
    Some (mean_x, mean_y).

Definition _compute_edge_width (edge : Edge) (route_center_x route_center_y : float)
      (depot : ref) : option pynum :=
    let node1 := node_at sol (get_first_node edge) in
    let node2 := node_at sol (get_second_node edge) in
    let d := node_at sol depot in
    px ← math_pow2 (x_coordinate d - route_center_x)%float;
    py ← math_pow2 (y_coordinate d - route_center_y)%float;
    distance_depot_center ← math_sqrt (px + py)%float;
    let distance_node1 :=
      ((route_center_y - y_coordinate d) * x_coordinate node1
       - (route_center_x - x_coordinate d) * y_coordinate node1
       + (route_center_x * y_coordinate d) - (route_center_y * x_coordinate d))%float in
    let distance_node1 :=
      if is_zero distance_depot_center then PyInt 0
      else PyFloat (distance_node1 / distance_depot_center)%float in
    let distance_node2 :=
      ((route_center_y - y_coordinate d) * x_coordinate node2
       - (route_center_x - x_coordinate d) * y_coordinate node2
       + (route_center_x * y_coordinate d) - (route_center_y * x_coordinate d))%float in
    let distance_node2 :=
      if is_zero distance_depot_center then PyInt 0
      else PyFloat (distance_node2 / distance_depot_center)%float in
    py_abs <$> py_sub distance_node1 distance_node2.

Definition _compute_edge_width_value (self : CostEvaluator) (edge : Edge)
      (center : option (float * float)) (rt : ref) : option pynum :=
    '(center_x, center_y) ← center;
    _compute_edge_width edge center_x center_y (depot (route_at sol rt)).

Definition _compute_edge_width_length_value (self : CostEvaluator) (edge : Edge)
      (center : option (float * float)) (rt : ref) : option pynum :=
    '(center_x, center_y) ← center;
    width_value ← _compute_edge_width edge center_x center_y (depot (route_at sol rt));
    length_value ← matrix_get (_costs self)
                     (node_id (node_at sol (fst (edge_nodes edge))))
                     (node_id (node_at sol (snd (edge_nodes edge))));
    py_add width_value (PyInt length_value).

Definition compute_edge_value (self : CostEvaluator) (edge : Edge)
      (center : option (float * float)) (rt : ref) : option pynum :=
    match _penalization_criterium self with
    | length_ => _compute_edge_length_value self edge
    | width => _compute_edge_width_value self edge center rt
    | width_length => _compute_edge_width_length_value self edge center rt
    end.

  (** The body of the loop over the edges of one route: the value of the
      edge, divided by one plus its penalty count. *)
Definition score_edge (self : CostEvaluator) (center : option (float * float)) (rt : ref)
      (acc : gmap (nat * nat) Z * list Edge) (edge : Edge)
    : option (gmap (nat * nat) Z * list Edge) :=
    let '(penalties, edges_in_solution) := acc in
    v ← compute_edge_value self edge center rt;
    let '(p, penalties') := defaultdict_get penalties (edge_key edge) in
    v' ← py_truediv v (PyInt (1 + p));
    Some (penalties', edges_in_solution ++ [mkEdge (edge_nodes edge) v']).

Definition score_route (self : CostEvaluator) (acc : gmap (nat * nat) Z * list Edge) (rt : ref)
    : option (gmap (nat * nat) Z * list Edge) :=
    center ←
      match _penalization_criterium self with
      | length_ => Some None
      | _ => Some <$> _compute_route_center (get_nodes sol rt)
      end;
    foldlM (score_edge self center rt) acc (get_edges sol rt).

Definition determine_edge_badness (self : CostEvaluator) (routes : list ref)
    : option CostEvaluator :=
    '(penalties, edges_in_solution) ← foldlM (score_route self) (_edge_penalties self, []) routes;
    Some (set_penalization_criterium (next_criterium (_penalization_criterium self))
            (set_edge_ranking (Some (MaxHeapWithUpdate edges_in_solution))
               (set_edge_penalties penalties self))).

  (** *** Penalization *)

Definition enable_penalization (self : CostEvaluator) : CostEvaluator :=
    set_nodes_to_update
      (filter (fun node => is_depot (node_at sol node) = false) (dict_keys (neighborhood self)))
      (set_penalization_enabled true self).

Definition disable_penalization (self : CostEvaluator) : CostEvaluator :=
    set_nodes_to_update
      (filter (fun node => is_depot (node_at sol node) = false) (dict_keys (neighborhood self)))
      (set_penalization_enabled false self).

  (** [round(costs[node1][node2] + 0.1 * baseline_cost * penalty)]. *)
Definition penalization_costs (cost baseline_cost penalty : Z) : option Z :=
    c ← py_float_of_int cost;
    b ← py_float_of_int baseline_cost;
    p ← py_float_of_int penalty;
    py_round (c + 0.1 * b * p)%float.

Definition get_and_penalize_worst_edge (self : CostEvaluator) : option (CostEvaluator * Edge) :=
    heap ← _edge_ranking self;
    '(worst_edge, heap1) ← get_max_element heap;
    let '(p, penalties) := defaultdict_get (_edge_penalties self) (edge_key worst_edge) in
    let penalties := <[edge_key worst_edge := p + 1]> penalties in
    let node1 := node_id (node_at sol (fst (edge_nodes worst_edge))) in
    let node2 := node_id (node_at sol (snd (edge_nodes worst_edge))) in
    c ← matrix_get (_costs self) node1 node2;
    pc ← penalization_costs c (_baseline_cost self) (p + 1);
    pen1 ← matrix_set (_penalized_costs self) node1 node2 pc;
    pen2 ← matrix_set pen1 node2 node1 pc;
    v ← py_int_truediv c (1 + (p + 1));
    let worst_edge := mkEdge (edge_nodes worst_edge) v in
    let heap2 := insert_element heap1 worst_edge in
    let dirty := _nodes_to_update_for_relocation_chain self in
    let dirty :=
      if negb (is_depot (node_at sol (get_first_node worst_edge)))
      then dirty ++ [get_first_node worst_edge] else dirty in
    let dirty :=
      if negb (is_depot (node_at sol (get_second_node worst_edge)))
      then dirty ++ [get_second_node worst_edge] else dirty in
    Some (set_nodes_to_update dirty
            (set_edge_ranking (Some heap2)
               (set_penalized_costs pen2
                  (set_edge_penalties penalties self))),
          worst_edge).

Definition penalize (self : CostEvaluator) (edge : Edge) : CostEvaluator :=
    let '(p, penalties) := defaultdict_get (_edge_penalties self) (edge_key edge) in
    set_edge_penalties (<[edge_key edge := p + 1]> penalties) self.
End CostEvaluatorUpdates.

(* ===================================================================== *)
(** * Part IV: the cross-exchange operator                                *)
(* ===================================================================== *)

Record CrossExchange := mkCrossExchange {
  segment1 : list ref;
  segment2 : list ref;
  segment1_insert_after : ref;
  segment2_insert_after : ref;
  improvement : Z;
  start_node : ref
}.

(** [CrossExchange.__lt__]: a move is smaller when it improves more. *)
Definition CrossExchange_lt (self other : CrossExchange) : bool :=
  improvement other <? improvement self.

(** [CrossExchange.get_routes]: the routes of the first nodes of the two
    segments ([IndexError] on an empty segment). *)
Definition get_routes (sol : VRPSolution) (m : CrossExchange) : option (ref * ref) :=
  n1 ← head (segment1 m);
  n2 ← head (segment2 m);
  Some (route (node_at sol n1), route (node_at sol n2)).

Section CrossExchangeSearch.
Variable cost_evaluator : CostEvaluator.
Variable sol : VRPSolution.
  (** A bound on the number of iterations of each [while] loop. *)
Variable fuel : nat.

  (** "current edges - new edges" at one end of the two segments. *)
Definition cross_improvement (end1 conn1 end2 conn2 : ref) : option Z :=
    a ← get_distance sol cost_evaluator end1 conn1;
    b ← get_distance sol cost_evaluator end2 conn2;
    c ← get_distance sol cost_evaluator end1 conn2;
    d ← get_distance sol cost_evaluator end2 conn1;
    Some (a + b - c - d).

Section Loops.
Variable start_node : ref.
Variables segment1_direction segment2_direction : Z.
Variables route1_segment_connection_start route2_segment_connection_start : ref.
Variable segment2_start : ref.
Variable improvement_first_cross : Z.

Let route1 := route (node_at sol start_node).
Let route2 := route (node_at sol route2_segment_connection_start).

    (** The inner loop: [segment2] grows from [segment2_start] while it
        has not reached a depot and route 1 stays feasible. *)
Fixpoint extend_segment2 (n : nat) (segment1_end : ref) (segment1_list : list ref)
        (segment1_volume : Z) (segment2_end : ref) (segment2_list : list ref)
        (segment2_volume : Z) : option (list CrossExchange) :=
      match n with
      | O => None
      | S n' =>
          if negb (is_depot (node_at sol segment2_end))
             && is_feasible cost_evaluator
                  (volume (route_at sol route1) - segment1_volume + segment2_volume)
          then
            found ←
              (if is_feasible cost_evaluator
                    (volume (route_at sol route2) - segment2_volume + segment1_volume)
               then
                 route1_segment_connection_end ← get_neighbour sol segment1_end segment1_direction;
                 route2_segment_connection_end ← get_neighbour sol segment2_end segment2_direction;
                 improvement_second_cross ←
                   cross_improvement segment1_end route1_segment_connection_end
                                     segment2_end route2_segment_connection_end;
                 let improvement := improvement_first_cross + improvement_second_cross in
                 if 0 <? improvement then
                   Some [mkCrossExchange
                           segment1_list
                           segment2_list
                           (if segment2_direction =? 1 then route2_segment_connection_start
                            else route2_segment_connection_end)
                           (if segment1_direction =? 1 then route1_segment_connection_start
                            else route1_segment_connection_end)
                           improvement
                           start_node]
                 else Some []
               else Some []);
            segment2_end' ← get_neighbour sol segment2_end segment2_direction;
            let segment2_list' :=
              if (segment2_direction =? 1) && (segment1_direction =? 0)
                 || (segment1_direction + segment2_direction =? 0)
              then segment2_end' :: segment2_list
              else segment2_list ++ [segment2_end'] in
            let segment2_volume' := segment2_volume + demand (node_at sol segment2_end') in
            rest ← extend_segment2 n' segment1_end segment1_list segment1_volume
                     segment2_end' segment2_list' segment2_volume';
            Some (found ++ rest)
          else Some []
      end.

    (** The outer loop: [segment1] grows from [start_node] until it
        reaches a depot. *)
Fixpoint extend_segment1 (n : nat) (segment1_end : ref) (segment1_list : list ref)
        (segment1_volume : Z) : option (list CrossExchange) :=
      match n with
      | O => None
      | S n' =>
          if negb (is_depot (node_at sol segment1_end)) then
            found ← extend_segment2 fuel segment1_end segment1_list segment1_volume
                      segment2_start [segment2_start] (demand (node_at sol segment2_start));
            segment1_end' ← get_neighbour sol segment1_end segment1_direction;
            let segment1_list' :=
              if (segment1_direction =? 1) && (segment2_direction =? 0)
                 || (segment1_direction + segment2_direction =? 0)
              then segment1_end' :: segment1_list
              else segment1_list ++ [segment1_end'] in
            let segment1_volume' := segment1_volume + demand (node_at sol segment1_end') in
            rest ← extend_segment1 n' segment1_end' segment1_list' segment1_volume';
            Some (found ++ rest)
          else Some []
      end.
End Loops.

  (** The body of the loop over the neighborhood of [start_node]. *)
Definition search_from_neighbour (start_node : ref) (segment1_direction segment2_direction : Z)
      (route1_segment_connection_start route2_segment_connection_start : ref)
    : option (list CrossExchange) :=
    if bool_decide (route (node_at sol route2_segment_connection_start)
                    ≠ route (node_at sol start_node))
    then
      segment2_start ← get_neighbour sol route2_segment_connection_start segment2_direction;
      if is_depot (node_at sol segment2_start) then Some []
      else
        improvement_first_cross ←
          cross_improvement start_node route1_segment_connection_start
                            segment2_start route2_segment_connection_start;
        if 0 <? improvement_first_cross then
          extend_segment1 start_node segment1_direction segment2_direction
            route1_segment_connection_start route2_segment_connection_start
            segment2_start improvement_first_cross
            fuel start_node [start_node] (demand (node_at sol start_node))
        else Some []
    else Some [].

Definition search_direction (start_node : ref) (segment1_direction segment2_direction : Z)
    : option (list CrossExchange) :=
    let route1_segment_connection_start :=
      if segment1_direction =? 1 then prev (node_at sol start_node)
      else next (node_at sol start_node) in
    ns ← get_neighborhood cost_evaluator start_node;
    moves ← mapM (search_from_neighbour start_node segment1_direction segment2_direction
                    route1_segment_connection_start) ns;
    Some (concat moves).

Definition search_cross_exchanges_from (start_node : ref)
      (segment1_directions segment2_directions : list Z) : option (list CrossExchange) :=
    moves ←
      mapM (fun segment1_direction =>
              found ← mapM (search_direction start_node segment1_direction) segment2_directions;
              Some (concat found))
           segment1_directions;
    Some (concat moves).

Definition search_cross_exchanges (start_nodes : list ref) : option (list CrossExchange) :=
    candidate_moves ←
      mapM (fun start_node => search_cross_exchanges_from start_node [0; 1] [0; 1]) start_nodes;
    Some (py_sorted CrossExchange_lt (concat candidate_moves)).
End CrossExchangeSearch.

(* ===================================================================== *)
(** * Part V: concrete scenarios                                          *)
(* ===================================================================== *)

(** The scenarios are evaluated with a C library whose [pow(x, 2.0)] is
    the correctly rounded square. *)
Lemma mul_abs_abs (x : float) : (abs x * abs x = x * x)%float.
Proof.
  apply Prim2SF_inj. rewrite !mul_spec, abs_spec.
  destruct (Prim2SF x) as [s | s | | s m e]; try done; by destruct s.
Qed.

Definition ieee_libm : Libm :=
  {| libm_pow2 x := (x * x)%float;
     libm_pow2_abs := mul_abs_abs;
     libm_pow2_zero := eq_refl |}.

(** Scenario S2: one route [depot(0,0) -> n1(1,0) -> n2(2,0) -> depot]. *)
Definition s2_node (r : ref) : Node :=
  match r with
  | 1%nat => mkNode 1 1 0 1 false 0 2 0
  | 2%nat => mkNode 2 2 0 1 false 1 0 0
  | _ => mkNode 0 0 0 0 true 2 1 0
  end.

Definition s2_solution : VRPSolution :=
  mkSolution s2_node (fun _ => mkRoute 0 2 2) [0%nat].

(** Scenario S5: capacity 10, route 0 is [depot -> a(4) -> b(4) -> depot]
    and route 1 is [depot -> x(3) -> y(3) -> depot]; every route has its
    own depot object (references 5 and 6), all with node id 0. *)
Definition s5_node (r : ref) : Node :=
  match r with
  | 1%nat => mkNode 1 10 0 4 false 5 2 0
  | 2%nat => mkNode 2 0 10 4 false 1 5 0
  | 3%nat => mkNode 3 0 11 3 false 6 4 1
  | 4%nat => mkNode 4 10 1 3 false 3 6 1
  | 5%nat => mkNode 0 0 0 0 true 2 1 0
  | 6%nat => mkNode 0 0 0 0 true 4 3 1
  | _ => mkNode 0 0 0 0 true 0 0 0
  end.

Definition s5_route (r : ref) : Route :=
  match r with
  | O => mkRoute 5 8 2
  | _ => mkRoute 6 6 2
  end.

Definition s5_solution : VRPSolution := mkSolution s5_node s5_route [0%nat; 1%nat].

(** Scenario S5 with a third vehicle that stays at the depot: route 2 has
    its own depot object (reference 7) and no customer. *)
Definition s5_idle_node (r : ref) : Node :=
  match r with
  | 7%nat => mkNode 0 0 0 0 true 7 7 2
  | _ => s5_node r
  end.

Definition s5_idle_route (r : ref) : Route :=
  match r with
  | 2%nat => mkRoute 7 0 0
  | _ => s5_route r
  end.

Definition s5_idle_solution : VRPSolution :=
  mkSolution s5_idle_node s5_idle_route [0%nat; 1%nat; 2%nat].

(** A solution far from the origin, with the routes of S5: the depot is at
    [(2^516, 0)], the customers [a] and [b] of route 0 are within [2^471]
    of it, and the customers [x] and [y] of route 1 are at the height
    [2^511].  Every coordinate is finite, and so is the distance between
    any two nodes. *)
Definition far_node (r : ref) : Node :=
  match r with
  | 1%nat => mkNode 1 (0x1p516 + 0x1p470) 0x1p470 4 false 5 2 0
  | 2%nat => mkNode 2 0x1p516 0x1p471 4 false 1 5 0
  | 3%nat => mkNode 3 0x1p516 0x1p511 3 false 6 4 1
  | 4%nat => mkNode 4 (0x1p516 + 0x1p470) 0x1p511 3 false 3 6 1
  | 5%nat => mkNode 0 0x1p516 0 0 true 2 1 0
  | 6%nat => mkNode 0 0x1p516 0 0 true 4 3 1
  | _ => mkNode 0 0x1p516 0 0 true 0 0 0
  end.

Definition far_solution : VRPSolution := mkSolution far_node s5_route [0%nat; 1%nat].

(** The evaluator of a scenario, or a default when construction raises. *)
Definition empty_evaluator : CostEvaluator :=
  mkCostEvaluator [] false ∅ 0 None 20 0 ∅ ∅ [] [] [] width ∅ ∅ ∅.

Definition s2_evaluator : CostEvaluator :=
  default empty_evaluator (CostEvaluator_init (libm := ieee_libm) s2_solution [0; 1; 2]%nat 10).

Definition s5_evaluator : CostEvaluator :=
  default empty_evaluator (CostEvaluator_init (libm := ieee_libm) s5_solution [0; 1; 2; 3; 4]%nat 10).

(** Scenario S3: two nodes at distance 5, baseline cost 10, and a ranking
    that holds their edge. *)
Definition far_evaluator : CostEvaluator :=
  default empty_evaluator
    (CostEvaluator_init (libm := ieee_libm) far_solution [0; 1; 2; 3; 4]%nat 10).

Definition s3_solution : VRPSolution :=
  mkSolution (fun r => match r with
                       | O => mkNode 0 0 0 0 true 1 1 0
                       | _ => mkNode 1 3 4 1 false 0 0 0
                       end)
             (fun _ => mkRoute 0 1 1) [0%nat].

Definition s3_evaluator : CostEvaluator :=
  mkCostEvaluator [0; 1]%nat true ∅ 10 (Some [mkEdge (0%nat, 1%nat) 5]) 20 10
    {[ 0 := [(0, 0); (1, 5)]; 1 := [(0, 5); (1, 0)] ]}
    {[ 0 := [(0, 0); (1, 5)]; 1 := [(0, 5); (1, 0)] ]}
    [(1%nat, [])] [(1%nat, [])] [] length_ ∅ ∅ ∅.

(* ===================================================================== *)
(** * Part VI: specifications                                             *)
(* ===================================================================== *)

(** The states an evaluator goes through: built by the constructor from
    the node list [nodes0] (read in the store [sol0]), then changed by
    any sequence of its operations that return, each on the store of the
    moment. *)
Inductive reachable {libm : Libm} (sol0 : VRPSolution) (nodes0 : list ref)
  : CostEvaluator -> Prop :=
  | reach_init capacity self :
      CostEvaluator_init sol0 nodes0 capacity = Some self ->
      reachable sol0 nodes0 self
  | reach_get_and_penalize_worst_edge sol self self' e :
      reachable sol0 nodes0 self ->
      get_and_penalize_worst_edge sol self = Some (self', e) ->
      reachable sol0 nodes0 self'
  | reach_penalize self edge :
      reachable sol0 nodes0 self ->
      reachable sol0 nodes0 (penalize self edge)
  | reach_enable_penalization sol self :
      reachable sol0 nodes0 self ->
      reachable sol0 nodes0 (enable_penalization sol self)
  | reach_disable_penalization sol self :
      reachable sol0 nodes0 self ->
      reachable sol0 nodes0 (disable_penalization sol self)
  | reach_determine_edge_badness sol self routes self' :
      reachable sol0 nodes0 self ->
      determine_edge_badness sol self routes = Some self' ->
      reachable sol0 nodes0 self'
  | reach_update_relocation_costs sol self self' :
      reachable sol0 nodes0 self ->
      update_relocation_costs sol self = Some self' ->
      reachable sol0 nodes0 self'
  | reach_update_ejection_costs sol self node self' :
      reachable sol0 nodes0 self ->
      update_ejection_costs sol self node = Some self' ->
      reachable sol0 nodes0 self'.

(** The part of the state that no operation changes after construction. *)
Definition statics (self : CostEvaluator) :=
  (nodes self, neighborhood self, _in_neighborhood_of self, _costs self,
   _baseline_cost self, _capacity self, neighborhood_size self).

(** ** Cross-exchange moves *)

(** The neighbour of [n] in a direction, as [get_neighbour] gives it for
    the directions 0 and 1. *)
Definition step (sol : VRPSolution) (direction : Z) (n : ref) : ref :=
  if direction =? 1 then prev (node_at sol n) else next (node_at sol n).

(** The sum of the demands of a list of nodes. *)
Definition segment_demand (sol : VRPSolution) (l : list ref) : Z :=
  foldr (fun n acc => demand (node_at sol n) + acc) 0 l.

(** Whether a segment growing in direction [own], against a segment
    growing in direction [other], takes its new nodes in front. *)
Definition prepends (own other : Z) : bool :=
  (own =? 1) && (other =? 0) || (own + other =? 0).

Definition segment_of (prepend : bool) (w : list ref) : list ref :=
  if prepend then rev w else w.

(** What the search records when it stores the move [m] for the seed [s]:
    the directions [d1] and [d2], the neighbour [c2] of the seed on the
    other route, and the numbers [k1] and [k2] of extensions of the two
    segments. *)
Record emitted (cost_evaluator : CostEvaluator) (sol : VRPSolution) (s : ref)
    (m : CrossExchange) (d1 d2 : Z) (c2 : ref) (k1 k2 : nat) : Prop := {
  em_direction1 : d1 = 0 \/ d1 = 1;
  em_direction2 : d2 = 0 \/ d2 = 1;
  em_neighbour : exists ns, get_neighborhood cost_evaluator s = Some ns /\ c2 ∈ ns;
  em_other_route : route (node_at sol c2) ≠ route (node_at sol s);
  em_walk1 : Forall (fun n => is_depot (node_at sol n) = false) (walk (step sol d1) (S k1) s);
  em_walk2 : Forall (fun n => is_depot (node_at sol n) = false)
               (walk (step sol d2) (S k2) (step sol d2 c2));
  em_segment1 : segment1 m = segment_of (prepends d1 d2) (walk (step sol d1) (S k1) s);
  em_segment2 : segment2 m
                = segment_of (prepends d2 d1) (walk (step sol d2) (S k2) (step sol d2 c2));
  em_load1 : volume (route_at sol (route (node_at sol s)))
             - segment_demand sol (segment1 m) + segment_demand sol (segment2 m)
             <= _capacity cost_evaluator;
  em_load2 : volume (route_at sol (route (node_at sol c2)))
             - segment_demand sol (segment2 m) + segment_demand sol (segment1 m)
             <= _capacity cost_evaluator;
  em_improvement :
    exists first_cross second_cross,
      cross_improvement cost_evaluator sol s (step sol d1 s) (step sol d2 c2) c2
      = Some first_cross
      /\ cross_improvement cost_evaluator sol
           (Nat.iter k1 (step sol d1) s)
           (step sol d1 (Nat.iter k1 (step sol d1) s))
           (Nat.iter k2 (step sol d2) (step sol d2 c2))
           (step sol d2 (Nat.iter k2 (step sol d2) (step sol d2 c2)))
         = Some second_cross
      /\ 0 < first_cross
      /\ improvement m = first_cross + second_cross
      /\ 0 < improvement m;
  em_anchor1 : segment1_insert_after m
               = if d2 =? 1 then c2
                 else step sol d2 (Nat.iter k2 (step sol d2) (step sol d2 c2));
  em_anchor2 : segment2_insert_after m
               = if d1 =? 1 then step sol d1 s
                 else step sol d1 (Nat.iter k1 (step sol d1) s);
  em_start_node : start_node m = s
}.

(** ** Well-formed solutions *)

(** A route is a cycle: following [next] from the depot visits its [size]
    members, none of them a depot and each pointing back to the route, and
    returns to the depot; [prev] is the inverse of [next] along the cycle;
    [volume] is the sum of the demands. *)
Definition wf_route (sol : VRPSolution) (rt : ref) : Prop :=
  let r := route_at sol rt in
  let cs := get_nodes sol rt in
  0 <= size r
  /\ is_depot (node_at sol (depot r)) = true
  /\ Forall (fun c => is_depot (node_at sol c) = false /\ route (node_at sol c) = rt) cs
  /\ Forall (fun p => next (node_at sol (fst p)) = snd p /\ prev (node_at sol (snd p)) = fst p)
       (consecutive_pairs (depot r :: cs ++ [depot r]))
  /\ volume r = segment_demand sol cs.

Definition wf_solution (sol : VRPSolution) : Prop :=
  NoDup (routes sol) /\ Forall (wf_route sol) (routes sol).

(** A non-depot member of a route of the solution. *)
Definition customer (sol : VRPSolution) (n : ref) : Prop :=
  exists rt, rt ∈ routes sol /\ n ∈ get_nodes sol rt.

(** The evaluator knows the distance between any two nodes of the store. *)
Definition distances_defined (cost_evaluator : CostEvaluator) (sol : VRPSolution) : Prop :=
  forall a b, is_Some (get_distance sol cost_evaluator a b).

(** ** Edge badness, in the words of the specification *)

(** The mean of some floats, [sum(...) / len(...)]; no float has none. *)
Definition spec_mean (l : list float) : option float :=
  total ← py_sum_floats l;
  py_truediv total (PyInt (Z.of_nat (length l))).

(** The centroid of a route: the mean of the coordinates of its non-depot
    nodes. *)
Definition spec_centroid (sol : VRPSolution) (rt : ref) : option (float * float) :=
  let members := get_nodes sol rt in
  cx ← spec_mean ((fun n => x_coordinate (node_at sol n)) <$> members);
  cy ← spec_mean ((fun n => y_coordinate (node_at sol n)) <$> members);
  Some (cx, cy).

(** The equation of the line through the depot [(dx, dy)] and the
    centroid [(cx, cy)], evaluated at [(x, y)]:
    [(cy - dy) x - (cx - dx) y + cx dy - cy dx]. *)
Definition spec_line (dx dy cx cy x y : float) : float :=
  ((cy - dy) * x - (cx - dx) * y + cx * dy - cy * dx)%float.

(** The width of the edge [(u, v)] of the route [rt].  With [dist] the
    distance from the depot to the centroid, the width is 0 when [dist] is
    zero; otherwise the distance [d(n)] of a node to the line is the value
    of the line equation divided by [dist], and the width is
    [|d(u) - d(v)|]. *)
Definition spec_width {libm : Libm} (sol : VRPSolution) (rt u v : ref) : option pynum :=
  '(cx, cy) ← spec_centroid sol rt;
  let dep := node_at sol (depot (route_at sol rt)) in
  square_x ← math_pow2 (x_coordinate dep - cx)%float;
  square_y ← math_pow2 (y_coordinate dep - cy)%float;
  dist ← math_sqrt (square_x + square_y)%float;
  let d (n : ref) : float :=
    (spec_line (x_coordinate dep) (y_coordinate dep) cx cy
       (x_coordinate (node_at sol n)) (y_coordinate (node_at sol n)) / dist)%float in
  Some (if is_zero dist then PyInt 0 else PyFloat (abs (d u - d v))).

(** The score of an edge under each criterion. *)
Definition spec_score {libm : Libm} (sol : VRPSolution) (self : CostEvaluator) (rt u v : ref)
  : option pynum :=
  let cost := matrix_get (_costs self) (node_id (node_at sol u)) (node_id (node_at sol v)) in
  match _penalization_criterium self with
  | length_ => PyInt <$> cost
  | width => spec_width sol rt u v
  | width_length => w ← spec_width sol rt u v; c ← cost; py_add w (PyInt c)
  end.

(** The value an edge receives: its score divided by one plus its penalty
    count. *)
Definition spec_edge_value {libm : Libm} (sol : VRPSolution) (self : CostEvaluator) (rt : ref)
    (e : Edge) : option float :=
  score ← spec_score sol self rt (get_first_node e) (get_second_node e);
  py_truediv score (PyInt (1 + default 0 (_edge_penalties self !! edge_key e))).

(** The edges of the given routes, each with its route. *)
Definition route_edges (sol : VRPSolution) (routes : list ref) : list (ref * Edge) :=
  rt ← routes; (fun e => (rt, e)) <$> get_edges sol rt.

(** [scored sol self (rt, e) e']: [e'] is the edge [e] of the route [rt]
    with the value of the specification. *)
Definition scored {libm : Libm} (sol : VRPSolution) (self : CostEvaluator) (re : ref * Edge)
    (e' : Edge) : Prop :=
  edge_nodes e' = edge_nodes re.2 /\ spec_edge_value sol self re.1 re.2 = Some (value e').

(** ** The heap order *)

Section HeapOrder.
Context {A : Type} (lt : A -> A -> bool).

(** [a] is not greater than [b]. *)
Definition not_greater (a b : A) : Prop := lt b a = false.

(** The element at [c] is not smaller than its parent. *)
Definition edge_ok (heap : list A) (c : nat) : Prop :=
  forall x y, heap !! c = Some x -> heap !! parent_pos c = Some y -> not_greater y x.

(** The heap order below position [k]: every parent at [k] or later is
    not greater than its children.  [heap_from 0] is the heap invariant of
    [heapq]. *)
Definition heap_from (k : nat) (heap : list A) : Prop :=
  forall c, (1 <= c)%nat -> (k <= parent_pos c)%nat -> edge_ok heap c.

(** [p] lies in the subtree of [k]. *)
Inductive below (k : nat) : nat -> Prop :=
  | below_refl : below k k
  | below_child c : below k (parent_pos c) -> (1 <= c)%nat -> below k c.

(** The heap order below [k] except around [p], where an item waits to be
    placed: the edges into [p] and out of [p] may be wrong, but the parent
    of [p] is not greater than the children of [p]. *)
Definition hole_inv (k : nat) (heap : list A) (p : nat) : Prop :=
  (forall c, (1 <= c)%nat -> (k <= parent_pos c)%nat -> c ≠ p -> parent_pos c ≠ p ->
             edge_ok heap c)
  /\ ((k < p)%nat ->
      forall c x y, parent_pos c = p -> (1 <= c)%nat ->
                    heap !! c = Some x -> heap !! parent_pos p = Some y -> not_greater y x).

(** The same with the edges out of [p] in order. *)
Definition up_inv (k : nat) (heap : list A) (p : nat) : Prop :=
  (forall c, (1 <= c)%nat -> (k <= parent_pos c)%nat -> c ≠ p -> edge_ok heap c)
  /\ ((k < p)%nat ->
      forall c x y, parent_pos c = p -> (1 <= c)%nat ->
                    heap !! c = Some x -> heap !! parent_pos p = Some y -> not_greater y x).

(** Pops until the heap is empty: the popped elements in order, and what
    is left when the fuel runs out first. *)
Fixpoint drain (fuel : nat) (heap : list A) : list A * list A :=
  match fuel with
  | O => ([], heap)
  | S fuel' =>
      match heappop lt heap with
      | None => ([], heap)
      | Some (item, heap') =>
          let '(popped, rest) := drain fuel' heap' in (item :: popped, rest)
      end
  end.
End HeapOrder.

(** Calls [get_max_element] until the ranking is empty: the edges returned,
    in order, and what is left when the fuel runs out first. *)
Fixpoint pop_all (fuel : nat) (heap : list Edge) : list Edge * list Edge :=
  match fuel with
  | O => ([], heap)
  | S fuel' =>
      match get_max_element heap with
      | None => ([], heap)
      | Some (e, heap') =>
          let '(popped, rest) := pop_all fuel' heap' in (e :: popped, rest)
      end
  end.

(** ** The order of the floats *)

(** A key that orders the floats other than NaN as [<] does: first the
    class (negative infinity, negative, zero, positive, positive infinity),
    then the exponent and the mantissa, both negated for a negative. *)
Definition sf_key (x : spec_float) : Z * Z * Z :=
  match x with
  | S754_nan => (0, 0, 0)
  | S754_infinity true => (-2, 0, 0)
  | S754_finite true m e => (-1, - e, - Zpos m)
  | S754_zero _ => (0, 0, 0)
  | S754_finite false m e => (1, e, Zpos m)
  | S754_infinity false => (2, 0, 0)
  end.

Definition key_lt (a b : Z * Z * Z) : Prop :=
  a.1.1 < b.1.1 \/ (a.1.1 = b.1.1 /\ (a.1.2 < b.1.2 \/ (a.1.2 = b.1.2 /\ a.2 < b.2))).

(** A float that is a number. *)
Definition is_number (f : float) : Prop := is_nan f = false.

(** ** Scenario S5, ranked *)

Definition s5_ranked : CostEvaluator :=
  default empty_evaluator (determine_edge_badness (libm := ieee_libm) s5_solution s5_evaluator [0; 1]%nat).

Definition s5_heap : list Edge := default [] (_edge_ranking s5_ranked).

(** ** The far solution, ranked *)

Definition far_ranked : CostEvaluator :=
  default empty_evaluator
    (determine_edge_badness (libm := ieee_libm) far_solution far_evaluator [0; 1]%nat).

Definition far_heap : list Edge := default [] (_edge_ranking far_ranked).


(** ** Penalized costs *)

(** The value of the mantissa [m] at the exponent [e] of a binary64, in
    units of 2^-1074 (the least positive binary64). *)
Definition scaled (m e : Z) : Z := m * 2 ^ (e + 1074).

(** An integer that some binary64 holds exactly. *)
Definition representable (c : Z) : Prop :=
  c = 0 \/
  exists m e, canonical_mantissa prec emax m e = true /\ c * 2 ^ 1074 = scaled (Zpos m) e.

(** A binary64 that is not below zero (a NaN is not). *)
Definition sf_not_negative (x : spec_float) : Prop :=
  match x with
  | S754_finite true _ _ | S754_infinity true => False
  | _ => True
  end.

(** The node of a list whose row (and column) a dictionary keyed by node
    ids ends up holding for the id [i]: the last one that carries it. *)
Fixpoint last_with_id (sol : VRPSolution) (l : list ref) (i : Z) : option ref :=
  match l with
  | [] => None
  | n :: l' =>
      match last_with_id sol l' i with
      | Some b => Some b
      | None => if decide (node_id (node_at sol n) = i) then Some n else None
      end
  end.

(** What every state of the evaluator satisfies: the costs are symmetric,
    defined between the nodes it was built from, and held exactly by a
    float; the baseline cost and the penalty counts are not negative; the
    penalized costs are symmetric and not below the costs. *)
Record costs_invariant (sol0 : VRPSolution) (nodes0 : list ref) (self : CostEvaluator) : Prop := {
  inv_costs_symmetric :
    forall i j, matrix_get (_costs self) i j = matrix_get (_costs self) j i;
  inv_costs_defined :
    forall a b, a ∈ nodes0 -> b ∈ nodes0 ->
      is_Some (matrix_get (_costs self) (node_id (node_at sol0 a)) (node_id (node_at sol0 b)));
  inv_costs_representable :
    forall i j c, matrix_get (_costs self) i j = Some c -> representable c;
  inv_baseline_cost : 0 <= _baseline_cost self;
  inv_edge_penalties : map_Forall (fun _ p => 0 <= p) (_edge_penalties self);
  inv_penalized_symmetric :
    forall i j, matrix_get (_penalized_costs self) i j = matrix_get (_penalized_costs self) j i;
  inv_penalized_above :
    forall i j c, matrix_get (_costs self) i j = Some c ->
      exists p, matrix_get (_penalized_costs self) i j = Some p /\ c <= p
}.

(** ** Scenario S5, with its worst edge penalized *)

Definition s5_penalized : CostEvaluator :=
  default empty_evaluator (fst <$> get_and_penalize_worst_edge s5_solution s5_ranked).

(* ===================================================================== *)
(** * Part VII: further code and its specifications                       *)
(* ===================================================================== *)

(** ** The ranking *)

(** A ranking in order: a [heapq] heap of edges whose values are numbers. *)
Definition ranking_ok (heap : list Edge) : Prop :=
  heap_from edge_lt 0 heap /\ Forall (fun e => is_number (value e)) heap.

(** ** The relocation caches *)

(** The state of an evaluator apart from the two relocation caches and the
    dirty list. *)
Definition outside_caches (self : CostEvaluator) :=
  (nodes self, _penalization_enabled self, _edge_penalties self, _baseline_cost self,
   _edge_ranking self, neighborhood_size self, _capacity self, _costs self,
   _penalized_costs self, neighborhood self, _in_neighborhood_of self,
   _penalization_criterium self).

(** The cost of taking [node] out of its route, as [update_ejection_costs]
    computes it. *)
Definition ejection_cost (sol : VRPSolution) (self : CostEvaluator) (node : ref) : option Z :=
  let n := node_at sol node in
  a ← get_distance sol self node (prev n);
  b ← get_distance sol self node (next n);
  c ← get_distance sol self (prev n) (next n);
  Some (a + b - c).

(** The cost of putting [node] next to [a] and the node to put it after,
    as [_update_insertion_costs] computes them. *)
Definition insertion_cost (sol : VRPSolution) (self : CostEvaluator) (node a : ref)
  : option (Z * ref) :=
  let an := node_at sol a in
  b1 ← get_distance sol self node (prev an);
  b2 ← get_distance sol self node a;
  b3 ← get_distance sol self (prev an) a;
  a1 ← get_distance sol self node (next an);
  a2 ← get_distance sol self node a;
  a3 ← get_distance sol self a (next an);
  Some (if b1 + b2 - b3 <=? a1 + a2 - a3 then (b1 + b2 - b3, prev an) else (a1 + a2 - a3, a)).

(** The pairs whose insertion entries [update_relocation_costs] writes for
    the dirty nodes [dirty]: a dirty node with a node it is a neighbour
    of, in both orders. *)
Definition relocation_pair (self : CostEvaluator) (dirty : list ref) (x y : ref) : Prop :=
  exists n l p,
    n ∈ dirty /\ dict_get n (_in_neighborhood_of self) = Some l /\ p ∈ l
    /\ ((x, y) = (n, p) \/ (x, y) = (p, n)).

(** What holds of the caches once the loop of [update_relocation_costs]
    on the evaluator [self] has gone through the dirty nodes [done]. *)
Record relocation_inv (sol : VRPSolution) (self : CostEvaluator)
    (touched : ref -> ref -> Prop) (done : list ref) (s : CostEvaluator) : Prop := {
  ri_outside : outside_caches s = outside_caches self;
  ri_known : forall n, n ∈ done -> is_Some (dict_get n (_in_neighborhood_of self));
  ri_ejected : forall n, n ∈ done ->
    exists v, ejection_cost sol self n = Some v /\ ejection_costs s !! n = Some v;
  ri_not_ejected : forall n, n ∉ done -> ejection_costs s !! n = ejection_costs self !! n;
  ri_inserted : forall x y, touched x y ->
    exists v, insertion_cost sol self x y = Some v
              /\ insertion_costs s !! (x, y) = Some v.1
              /\ insertion_after s !! (x, y) = Some v.2;
  ri_not_inserted : forall x y, ¬ touched x y ->
    insertion_costs s !! (x, y) = insertion_costs self !! (x, y)
    /\ insertion_after s !! (x, y) = insertion_after self !! (x, y)
}.

(** Scenario S5 after [update_relocation_costs]. *)
Definition s5_relocated : CostEvaluator :=
  default empty_evaluator (update_relocation_costs s5_solution s5_evaluator).

(** ** [CostEvaluator.get_solution_costs] *)

Section GetSolutionCosts.
Variable sol : VRPSolution.
Variable self : CostEvaluator.
  (** A bound on the number of iterations of the [while] loop. *)
Variable fuel : nat.
Variable ignore_penalties : bool.

  (** What one edge adds to the costs of the solution. *)
Definition solution_edge_cost (a b : ref) : option Z :=
    if ignore_penalties
    then matrix_get (_costs self) (node_id (node_at sol a)) (node_id (node_at sol b))
    else get_distance sol self a b.

  (** The [while] loop: from [cur_node] along [next] to the last node
      before a depot. *)
Fixpoint route_costs_loop (n : nat) (solution_costs : Z) (cur_node : ref) : option (Z * ref) :=
    match n with
    | O => None
    | S n' =>
        let nxt := next (node_at sol cur_node) in
        if negb (is_depot (node_at sol nxt)) then
          d ← solution_edge_cost cur_node nxt;
          route_costs_loop n' (solution_costs + d) nxt
        else Some (solution_costs, cur_node)
    end.

  (** The body of the loop over the routes. *)
Definition route_costs (solution_costs : Z) (rt : ref) : option Z :=
    let r := route_at sol rt in
    if 0 <? size r then
      '(solution_costs, cur_node) ← route_costs_loop fuel solution_costs (depot r);
      d ← solution_edge_cost cur_node (next (node_at sol cur_node));
      Some (solution_costs + d)
    else Some solution_costs.

Definition get_solution_costs : option Z := foldlM route_costs 0 (routes sol).
End GetSolutionCosts.

(** The node after [n]. *)
Definition next_of (sol : VRPSolution) (n : ref) : ref := next (node_at sol n).

(** The edges along the cycle of a route, from the depot back to it. *)
Definition route_cycle (sol : VRPSolution) (rt : ref) : list (ref * ref) :=
  let d := depot (route_at sol rt) in
  consecutive_pairs (d :: get_nodes sol rt ++ [d]).

(** The sum of the costs of a list of edges, added in order to [start];
    it raises when the cost of an edge does. *)
Definition sum_edge_costs (cost : ref -> ref -> option Z) (start : Z) (es : list (ref * ref))
  : option Z :=
  foldlM (fun acc e => d ← cost e.1 e.2; Some (acc + d)) start es.

(** ** [CrossExchange.is_disjunct] *)

(** [self.is_disjunct(other)].  Routes are compared by identity;
    [IndexError] on an empty segment that is read.  [self.segment2] is
    only read when the first test fails. *)
Definition is_disjunct (sol : VRPSolution) (self other : CrossExchange) : option bool :=
  s1 ← head (segment1 self);
  o1 ← head (segment1 other);
  o2 ← head (segment2 other);
  let others := [route (node_at sol o1); route (node_at sol o2)] in
  if bool_decide (route (node_at sol s1) ∈ others) then Some false
  else
    s2 ← head (segment2 self);
    if bool_decide (route (node_at sol s2) ∈ others) then Some false else Some true.
(* ===================================================================== *)
(** * Part VIII: properties                                             *)
(* ===================================================================== *)

(** ** The option monad *)

Lemma bind_Some_inv {A B : Type} (m : option A) (f : A -> option B) (b : B) :
  m ≫= f = Some b -> exists a, m = Some a /\ f a = Some b.
Proof. destruct m as [a|]; simpl; [eauto | discriminate]. Qed.

(** Splits a hypothesis [x ← m; k = Some y] into its two halves. *)
Ltac bind_inv H :=
  let a := fresh "a" in
  let Ha := fresh "Ha" in
  apply bind_Some_inv in H as (a & Ha & H).

(** Proves a membership in a list that evaluates to a literal. *)
Ltac solve_elem_of :=
  vm_compute; repeat first [apply list_elem_of_here | apply list_elem_of_further].

(** The properties hold whatever the C library's [pow] returns within the
    bounds of [Libm]. *)
Section AnyLibm.
Context {libm : Libm}.

(** ** Insertion-ordered dictionaries *)

Section PyDictFacts.
Context {K V : Type} `{EqDecision K}.
Implicit Types (d : list (K * V)) (k : K) (v : V).

Lemma dict_get_set_eq d k v : dict_get k (dict_set k v d) = Some v.
Proof.
    induction d as [|[k' v'] d IH]; simpl.
    - by rewrite decide_True.
    - destruct (decide (k' = k)) as [->|Hne]; simpl.
      + by rewrite decide_True.
      + by rewrite decide_False.
Qed.

Lemma dict_get_set_ne d k k' v : k ≠ k' -> dict_get k' (dict_set k v d) = dict_get k' d.
Proof.
    intros Hne. induction d as [|[k0 v0] d IH]; simpl.
    - by rewrite decide_False.
    - destruct (decide (k0 = k)) as [->|Hne0]; simpl.
      + by rewrite !decide_False.
      + by rewrite IH.
Qed.

Lemma dict_keys_set d k v :
    dict_keys (dict_set k v d) = if decide (k ∈ dict_keys d) then dict_keys d else dict_keys d ++ [k].
Proof.
    unfold dict_keys. induction d as [|[k0 v0] d IH].
    - destruct (decide (k ∈ ([] : list (K * V)).*1)) as [Hin|_]; [|done].
      by apply elem_of_nil in Hin.
    - cbn [dict_set]. destruct (decide (k0 = k)) as [->|Hne0].
      + destruct (decide (k ∈ ((k, v0) :: d).*1)) as [_|Hout]; [done |].
        exfalso. apply Hout. by left.
      + rewrite fmap_cons, IH. cbn [fst].
        destruct (decide (k ∈ d.*1)) as [Hin|Hout];
          destruct (decide (k ∈ ((k0, v0) :: d).*1)) as [Hin'|Hout']; try done.
        * exfalso. apply Hout'. by right.
        * exfalso. rewrite fmap_cons in Hin'.
          apply elem_of_cons in Hin' as [Hk|Hk]; [apply Hne0; by rewrite Hk | by apply Hout].
Qed.
End PyDictFacts.

(** ** Matrices *)

Lemma matrix_get_set_eq m i j v m' :
  matrix_set m i j v = Some m' -> matrix_get m' i j = Some v.
Proof.
  unfold matrix_set, matrix_get. intros H. bind_inv H. simplify_eq.
  rewrite lookup_insert_eq. simpl. apply dict_get_set_eq.
Qed.

Lemma matrix_get_set_ne m i j v m' i' j' :
  matrix_set m i j v = Some m' -> (i, j) ≠ (i', j') -> matrix_get m' i' j' = matrix_get m i' j'.
Proof.
  unfold matrix_set, matrix_get. intros H Hne. bind_inv H. simplify_eq.
  destruct (decide (i = i')) as [->|Hi].
  - rewrite lookup_insert_eq, Ha. simpl. apply dict_get_set_ne. congruence.
  - by rewrite lookup_insert_ne.
Qed.

(** ** Relocation caches *)

(** C7: [update_ejection_costs(n)] stores
    [get_distance(n, n.prev) + get_distance(n, n.next) - get_distance(n.prev, n.next)]
    in [ejection_costs[n]], whenever the three distances exist, and changes
    no other entry; on the route [depot(0,0) -> n1(1,0) -> n2(2,0) -> depot]
    of scenario S2, with penalization disabled, the distances are 1, 1 and
    2 and [ejection_costs[n1] = 1 + 1 - 2 = 0]. *)
Theorem update_ejection_costs_spec :
  (forall sol self n a b c,
      get_distance sol self n (prev (node_at sol n)) = Some a ->
      get_distance sol self n (next (node_at sol n)) = Some b ->
      get_distance sol self (prev (node_at sol n)) (next (node_at sol n)) = Some c ->
      exists self',
        update_ejection_costs sol self n = Some self'
        /\ ejection_costs self' !! n = Some (a + b - c)
        /\ forall n', n' ≠ n -> ejection_costs self' !! n' = ejection_costs self !! n')
  /\ (_penalization_enabled s2_evaluator = false
      /\ get_distance s2_solution s2_evaluator 1%nat 0%nat = Some 1
      /\ get_distance s2_solution s2_evaluator 1%nat 2%nat = Some 1
      /\ get_distance s2_solution s2_evaluator 0%nat 2%nat = Some 2
      /\ exists self',
          update_ejection_costs s2_solution s2_evaluator 1%nat = Some self'
          /\ ejection_costs self' !! 1%nat = Some 0).
Proof.
  split.
  - intros sol self n a b c Ha Hb Hc. unfold update_ejection_costs.
    rewrite Ha, Hb, Hc. simpl. eexists. split; [reflexivity |]. split.
    + apply lookup_insert_eq.
    + intros n' Hne. simpl. by rewrite lookup_insert_ne.
  - repeat split; try (vm_compute; reflexivity).
    eexists. split; vm_compute; reflexivity.
Qed.

(** C6: [_update_insertion_costs(n, a)] stores in [insertion_costs[(n, a)]]
    the smaller of the insert-before cost
    [get_distance(n, a.prev) + get_distance(n, a) - get_distance(a.prev, a)]
    and the insert-after cost
    [get_distance(n, a.next) + get_distance(n, a) - get_distance(a, a.next)],
    and in [insertion_after[(n, a)]] the node [a.prev] when before is at
    most after (ties go to before) and [a] otherwise. *)
Theorem update_insertion_costs_spec sol self n a d_np d_na d_pa d_nn d_an :
  get_distance sol self n (prev (node_at sol a)) = Some d_np ->
  get_distance sol self n a = Some d_na ->
  get_distance sol self (prev (node_at sol a)) a = Some d_pa ->
  get_distance sol self n (next (node_at sol a)) = Some d_nn ->
  get_distance sol self a (next (node_at sol a)) = Some d_an ->
  let before := d_np + d_na - d_pa in
  let after := d_nn + d_na - d_an in
  exists self',
    _update_insertion_costs sol self n a = Some self'
    /\ insertion_costs self' !! (n, a) = Some (Z.min before after)
    /\ insertion_after self' !! (n, a)
       = Some (if bool_decide (before <= after) then prev (node_at sol a) else a)
    /\ (forall k, k ≠ (n, a) ->
          insertion_costs self' !! k = insertion_costs self !! k
          /\ insertion_after self' !! k = insertion_after self !! k).
Proof.
  intros H1 H2 H3 H4 H5 before after. unfold _update_insertion_costs.
  rewrite H1, H2, H3, H4, H5. simpl. fold before after.
  destruct (Z.leb_spec before after) as [Hle|Hgt].
  - eexists. split; [reflexivity |]. simpl. rewrite !lookup_insert_eq.
    rewrite bool_decide_true by done. rewrite Z.min_l by done.
    repeat split; try done; by rewrite lookup_insert_ne.
  - eexists. split; [reflexivity |]. simpl. rewrite !lookup_insert_eq.
    rewrite bool_decide_false by lia. rewrite Z.min_r by lia.
    repeat split; try done; by rewrite lookup_insert_ne.
Qed.

(** ** heapq: the heap keeps its elements *)

Section HeapqPermutation.
Context {A : Type} (lt : A -> A -> bool).
Implicit Types (heap : list A) (pos : nat).
Local Open Scope nat_scope.

Lemma parent_pos_lt pos : 0 < pos -> parent_pos pos < pos.
Proof. intros H. unfold parent_pos. apply Nat.Div0.div_lt_upper_bound; lia. Qed.

Lemma insert_cons_perm heap j a b :
  heap !! j = Some b -> b :: <[j := a]> heap ≡ₚ a :: heap.
Proof.
  revert j. induction heap as [|c heap IH]; intros [|j] Hj; simplify_eq/=.
  - apply perm_swap.
  - rewrite perm_swap, (IH j Hj). apply perm_swap.
Qed.

Lemma insert_cons_exchange heap j a b :
  j < length heap -> a :: <[j := b]> heap ≡ₚ b :: <[j := a]> heap.
Proof.
  revert j. induction heap as [|c heap IH]; intros [|j] Hj; simpl in *; try lia.
  - apply perm_swap.
  - rewrite perm_swap, (IH j) by lia. apply perm_swap.
Qed.

(** Writing [x] at [c] and the old content of [c] at [p] is writing [x]
    at [p], up to the order of the elements. *)
Lemma insert_move_perm heap p c v x :
  p ≠ c -> p < length heap -> heap !! c = Some v ->
  <[c := x]> (<[p := v]> heap) ≡ₚ <[p := x]> heap.
Proof.
  revert p c. induction heap as [|y heap IH]; intros [|p] [|c] Hne Hp Hc;
    simplify_eq/=; try lia.
  - by apply insert_cons_perm.
  - apply insert_cons_exchange. lia.
  - f_equiv. apply IH; [congruence | lia | done].
Qed.

Lemma siftdown_loop_length fuel heap startpos pos x :
  length (siftdown_loop lt fuel heap startpos pos x) = length heap.
Proof.
  revert heap pos. induction fuel as [|fuel IH]; intros heap pos; simpl.
  - apply length_insert.
  - repeat case_match; rewrite ?IH, ?length_insert; done.
Qed.

Lemma siftdown_loop_perm fuel heap startpos pos x :
  pos < length heap ->
  siftdown_loop lt fuel heap startpos pos x ≡ₚ <[pos := x]> heap.
Proof.
  revert heap pos. induction fuel as [|fuel IH]; intros heap pos Hpos; simpl; [done |].
  case_bool_decide as Hlt; [|done].
  assert (0 < pos) as Hpos0 by lia.
  destruct (heap !! parent_pos pos) as [parent|] eqn:Hparent; [|done].
  destruct (lt x parent); [|done].
  assert (parent_pos pos < pos) as Hpp by (by apply parent_pos_lt).
  rewrite IH by (rewrite length_insert; lia).
  apply insert_move_perm; [lia | done | done].
Qed.

Lemma siftdown_perm heap startpos pos : _siftdown lt heap startpos pos ≡ₚ heap.
Proof.
  unfold _siftdown. destruct (heap !! pos) as [x|] eqn:Hx; [|done].
  rewrite siftdown_loop_perm by (by eapply lookup_lt_Some).
  by rewrite list_insert_id.
Qed.

Lemma siftup_loop_length fuel heap pos :
  length (siftup_loop lt fuel heap pos).1 = length heap.
Proof.
  revert heap pos. induction fuel as [|fuel IH]; intros heap pos; simpl; [done |].
  case_bool_decide; [|done].
  match goal with |- context [match heap !! ?c with _ => _ end] =>
    destruct (heap !! c) as [child|]; [|done] end.
  by rewrite IH, length_insert.
Qed.

Lemma siftup_loop_perm fuel heap pos heap' leaf x :
  pos < length heap ->
  siftup_loop lt fuel heap pos = (heap', leaf) ->
  leaf < length heap' /\ <[leaf := x]> heap' ≡ₚ <[pos := x]> heap.
Proof.
  revert heap pos. induction fuel as [|fuel IH]; intros heap pos Hpos; simpl.
  { intros [= <- <-]. done. }
  case_bool_decide as Hc; [|by intros [= <- <-]].
  set (c := match heap !! child_pos pos, heap !! (child_pos pos + 1) with
            | Some c, Some r => if negb (lt c r) then child_pos pos + 1 else child_pos pos
            | _, _ => child_pos pos
            end).
  assert (pos < c) as Hlt.
  { unfold c, child_pos. repeat case_match; lia. }
  destruct (heap !! c) as [child|] eqn:Hchild; [|by intros [= <- <-]].
  intros Hrec. apply IH in Hrec as [Hleaf Hperm];
    [|rewrite length_insert; by eapply lookup_lt_Some].
  split; [done |]. rewrite Hperm.
  apply insert_move_perm; [lia | done | done].
Qed.

Lemma siftup_perm heap pos : _siftup lt heap pos ≡ₚ heap.
Proof.
  unfold _siftup. destruct (heap !! pos) as [x|] eqn:Hx; [|done].
  destruct (siftup_loop lt (length heap) heap pos) as [heap' leaf] eqn:Hloop.
  apply (siftup_loop_perm _ _ _ _ _ x) in Hloop as [Hleaf Hperm];
    [|by eapply lookup_lt_Some].
  rewrite siftdown_perm, Hperm. by rewrite list_insert_id.
Qed.

Lemma heappush_perm heap item : heappush lt heap item ≡ₚ item :: heap.
Proof.
  unfold heappush. rewrite siftdown_perm. by rewrite Permutation_app_comm.
Qed.

(** [heappop] returns the first element of the list and keeps the others. *)
Lemma heappop_perm heap item heap' :
  heappop lt heap = Some (item, heap') -> head heap = Some item /\ item :: heap' ≡ₚ heap.
Proof.
  unfold heappop. destruct (last heap) as [lastelt|] eqn:Hlast; [|done].
  apply last_Some in Hlast as [front ->]. rewrite removelast_last.
  destruct front as [|returnitem front]; intros [= <- <-]; [done |].
  split; [done |]. rewrite siftup_perm. simpl.
  f_equiv. apply Permutation_cons_append.
Qed.

Lemma heappop_is_Some heap : heap ≠ [] -> is_Some (heappop lt heap).
Proof.
  intros Hne. unfold heappop.
  destruct (last heap) as [lastelt|] eqn:Hlast.
  - destruct (removelast heap); eauto.
  - by apply last_None in Hlast.
Qed.

Lemma heapify_perm heap : heapify lt heap ≡ₚ heap.
Proof.
  unfold heapify. generalize (rev (seq 0 (length heap / 2))). intros idx.
  revert heap. induction idx as [|i idx IH]; intros heap; simpl; [done |].
  by rewrite IH, siftup_perm.
Qed.
End HeapqPermutation.

(** ** Penalizing the worst edge *)

Lemma defaultdict_get_fst m k : (defaultdict_get m k).1 = default 0 (m !! k).
Proof. unfold defaultdict_get. by destruct (m !! k). Qed.

(** C2: a call of [get_and_penalize_worst_edge] that pops the edge
    [popped] with node ids [i] and [j] raises [edge_penalties] of the edge
    by exactly 1, sets [penalized_costs[i][j]] and [penalized_costs[j][i]]
    to [round(costs[i][j] + 0.1 * baseline_cost * edge_penalties[e])] with
    the raised count, sets the value of the edge to
    [costs[i][j] / (1 + edge_penalties[e])], puts it back into the heap
    and returns it.  With [baseline_cost = 10], [costs[i][j] = 5] and a
    count of 0 before the call, the count is 1, [penalized_costs[i][j]] is
    6 and the value is 2.5 afterwards. *)
Theorem get_and_penalize_worst_edge_spec sol self self' e :
  get_and_penalize_worst_edge sol self = Some (self', e) ->
  exists heap popped rest c,
    _edge_ranking self = Some heap
    /\ get_max_element heap = Some (popped, rest)
    /\ head heap = Some popped
    /\ let i := node_id (node_at sol (get_first_node popped)) in
       let j := node_id (node_at sol (get_second_node popped)) in
       let before := default 0 (_edge_penalties self !! edge_key popped) in
       let after := before + 1 in
       _edge_penalties self' !! edge_key popped = Some after
       /\ matrix_get (_costs self) i j = Some c
       /\ (exists fc fb fp pc,
              py_float_of_int c = Some fc
              /\ py_float_of_int (_baseline_cost self) = Some fb
              /\ py_float_of_int after = Some fp
              /\ py_round (fc + 0.1 * fb * fp)%float = Some pc
              /\ matrix_get (_penalized_costs self') i j = Some pc
              /\ matrix_get (_penalized_costs self') j i = Some pc)
       /\ edge_nodes e = edge_nodes popped
       /\ py_int_truediv c (1 + after) = Some (value e)
       /\ (exists heap', _edge_ranking self' = Some heap' /\ heap' ≡ₚ e :: rest)
       /\ (_baseline_cost self = 10 -> c = 5 -> before = 0 ->
           _edge_penalties self' !! edge_key popped = Some 1
           /\ matrix_get (_penalized_costs self') i j = Some 6
           /\ value e = 2.5%float).
Proof.
  unfold get_and_penalize_worst_edge. intros H.
  apply bind_Some_inv in H as (heap & Hheap & H).
  apply bind_Some_inv in H as ([popped rest] & Hpop & H).
  destruct (defaultdict_get (_edge_penalties self) (edge_key popped)) as [p penalties] eqn:Hp.
  assert (p = default 0 (_edge_penalties self !! edge_key popped)) as Hp'.
  { by rewrite <- defaultdict_get_fst, Hp. }
  apply bind_Some_inv in H as (c & Hc & H).
  apply bind_Some_inv in H as (pc & Hpc & H).
  apply bind_Some_inv in H as (pen1 & Hpen1 & H).
  apply bind_Some_inv in H as (pen2 & Hpen2 & H).
  apply bind_Some_inv in H as (v & Hv & H).
  injection H as <- <-.
  assert (matrix_get pen2 (node_id (node_at sol (popped.(edge_nodes).1)))
            (node_id (node_at sol (popped.(edge_nodes).2))) = Some pc
          /\ matrix_get pen2 (node_id (node_at sol (popped.(edge_nodes).2)))
               (node_id (node_at sol (popped.(edge_nodes).1))) = Some pc) as [Hij Hji].
  { revert Hpen1 Hpen2.
    generalize (node_id (node_at sol (popped.(edge_nodes).1))).
    generalize (node_id (node_at sol (popped.(edge_nodes).2))).
    intros j i Hpen1 Hpen2. split; [|by apply matrix_get_set_eq in Hpen2].
    destruct (decide (i = j)) as [->|Hne]; [by apply matrix_get_set_eq in Hpen2 |].
    rewrite (matrix_get_set_ne _ _ _ _ _ i j Hpen2) by congruence.
    by apply matrix_get_set_eq in Hpen1. }
  destruct (heappop_perm _ _ _ _ Hpop) as [Hhead _].
  exists heap, popped, rest, c. split; [done |]. split; [done |]. split; [done |].
  cbn zeta. rewrite <- Hp'. simpl. unfold get_first_node, get_second_node.
  split; [apply lookup_insert_eq |]. split; [done |]. split.
  { unfold penalization_costs in Hpc.
    apply bind_Some_inv in Hpc as (fc & Hfc & Hpc).
    apply bind_Some_inv in Hpc as (fb & Hfb & Hpc).
    apply bind_Some_inv in Hpc as (fp & Hfp & Hpc).
    by exists fc, fb, fp, pc. }
  split; [done |]. split; [done |]. split.
  { eexists. split; [done |]. apply heappush_perm. }
  intros Hb -> ->. split; [apply lookup_insert_eq |].
  rewrite Hb in Hpc. vm_compute in Hpc. vm_compute in Hv.
  injection Hpc as <-. injection Hv as <-. done.
Qed.

(** ** sorted *)

Lemma StronglySorted_weaken {A : Type} (R R' : A -> A -> Prop) (l : list A) :
  (forall a b, R a b -> R' a b) -> StronglySorted R l -> StronglySorted R' l.
Proof.
  intros HR. induction 1 as [|a l Hl IH Ha]; constructor; [done |].
  eapply Forall_impl; [exact Ha | auto].
Qed.

Section SortedFacts.
Context {A : Type} (lt : A -> A -> bool).

(** [R a b]: [b] is not smaller than [a], the order of a sorted result. *)
Let R (a b : A) : Prop := lt b a = false.

Hypothesis lt_asym : forall a b, lt a b = true -> lt b a = false.
Hypothesis R_trans : forall a b c, R a b -> R b c -> R a c.

Lemma insert_stable_perm x l : insert_stable lt x l ≡ₚ x :: l.
Proof.
  induction l as [|y l IH]; simpl; [done |].
  destruct (lt y x); [|done]. by rewrite IH, perm_swap.
Qed.

Lemma py_sorted_perm l : py_sorted lt l ≡ₚ l.
Proof.
  induction l as [|x l IH]; simpl; [done |].
  by rewrite insert_stable_perm, IH.
Qed.

Lemma insert_stable_sorted x l :
  StronglySorted R l -> StronglySorted R (insert_stable lt x l).
Proof.
  induction 1 as [|y l Hl IH Hy]; simpl.
  - repeat constructor.
  - destruct (lt y x) eqn:Hyx.
    + constructor; [done |]. rewrite insert_stable_perm.
      constructor; [by apply lt_asym | done].
    + constructor; [by constructor |].
      constructor; [done |].
      eapply Forall_impl; [exact Hy |]. intros z Hz. by apply R_trans with y.
Qed.

Lemma py_sorted_sorted l : StronglySorted R (py_sorted lt l).
Proof.
  induction l as [|x l IH]; simpl; [constructor | by apply insert_stable_sorted].
Qed.
End SortedFacts.

(** ** The order of the moves *)

(** C9: [search_cross_exchanges] returns the moves of the per-seed
    candidate lists ([search_cross_exchanges_from] with both direction
    lists [[0, 1]]), concatenated in the order of the seeds and then
    sorted: the result is a permutation of the concatenation and is in
    non-increasing order of [improvement]; it returns whenever every
    per-seed search does. *)
Theorem search_cross_exchanges_spec cost_evaluator sol fuel (start_nodes : list ref) :
  (forall result,
      search_cross_exchanges cost_evaluator sol fuel start_nodes = Some result ->
      exists per_seed,
        Forall2 (fun s l => search_cross_exchanges_from cost_evaluator sol fuel s [0; 1] [0; 1]
                            = Some l) start_nodes per_seed
        /\ result ≡ₚ concat per_seed
        /\ StronglySorted (fun a b => improvement b <= improvement a) result)
  /\ (forall per_seed,
         Forall2 (fun s l => search_cross_exchanges_from cost_evaluator sol fuel s [0; 1] [0; 1]
                             = Some l) start_nodes per_seed ->
         search_cross_exchanges cost_evaluator sol fuel start_nodes
         = Some (py_sorted CrossExchange_lt (concat per_seed))).
Proof.
  unfold search_cross_exchanges. split.
  - intros result H. apply bind_Some_inv in H as (per_seed & Hseeds & H).
    injection H as <-. exists per_seed. split; [by apply mapM_Some |].
    split; [apply py_sorted_perm |].
    eapply StronglySorted_weaken; [|apply py_sorted_sorted].
    + intros a b. unfold CrossExchange_lt. intros ?%Z.ltb_ge. done.
    + unfold CrossExchange_lt. intros a b ?%Z.ltb_lt. apply Z.ltb_ge. lia.
    + unfold CrossExchange_lt. intros a b c ?%Z.ltb_ge ?%Z.ltb_ge. apply Z.ltb_ge. lia.
  - intros per_seed H. apply mapM_Some in H. by rewrite H.
Qed.

(** ** Loops that may raise *)

Lemma foldlM_inv {A B : Type} (I : B -> Prop) (f : B -> A -> option B) (l : list A) (b b' : B) :
  (forall b a b', I b -> f b a = Some b' -> I b') ->
  I b -> foldlM f b l = Some b' -> I b'.
Proof.
  intros Hf. revert b. induction l as [|x l IH]; intros b Hb H; simpl in H.
  - by injection H as <-.
  - apply bind_Some_inv in H as (b1 & H1 & H). eauto.
Qed.

(** ** What the operations leave alone *)

Lemma update_ejection_costs_statics sol self node self' :
  update_ejection_costs sol self node = Some self' ->
  statics self' = statics self /\ _penalized_costs self' = _penalized_costs self.
Proof.
  unfold update_ejection_costs. intros H.
  repeat (apply bind_Some_inv in H as (? & _ & H)). by injection H as <-.
Qed.

Lemma update_insertion_costs_statics sol self node a self' :
  _update_insertion_costs sol self node a = Some self' ->
  statics self' = statics self /\ _penalized_costs self' = _penalized_costs self.
Proof.
  unfold _update_insertion_costs. intros H.
  repeat (apply bind_Some_inv in H as (? & _ & H)).
  by destruct (_ <=? _); injection H as <-.
Qed.

Lemma update_relocation_costs_statics sol self self' :
  update_relocation_costs sol self = Some self' ->
  statics self' = statics self /\ _penalized_costs self' = _penalized_costs self.
Proof.
  unfold update_relocation_costs. intros H.
  apply bind_Some_inv in H as (s & Hs & H). injection H as <-.
  pose (I0 := fun s0 s : CostEvaluator =>
                statics s = statics s0 /\ _penalized_costs s = _penalized_costs s0).
  assert (forall s0 (l : list ref) f b',
             (forall x y z, f x y = Some z ->
                statics z = statics x /\ _penalized_costs z = _penalized_costs x) ->
             foldlM f s0 l = Some b' -> I0 s0 b') as Hfold.
  { intros s0 l f b' Hf. apply (foldlM_inv (I0 s0)); [|done].
    intros x y z [? ?] [? ?]%Hf. split; congruence. }
  cut (I0 self s).
  { intros [Hst Hp]. split; [|done]. by rewrite <- Hst. }
  revert Hs. apply Hfold. intros b node b' H.
  apply bind_Some_inv in H as (s1 & H1 & H).
  apply bind_Some_inv in H as (ns & _ & H).
  apply bind_Some_inv in H as (s2 & H2 & H).
  apply bind_Some_inv in H as (ns' & _ & H).
  apply update_ejection_costs_statics in H1 as [H1 H1'].
  apply Hfold in H2 as [H2 H2']; [|intros x y z; apply update_insertion_costs_statics].
  apply Hfold in H as [H3 H3']; [|intros x y z; apply update_insertion_costs_statics].
  split; congruence.
Qed.

Lemma determine_edge_badness_statics sol self routes self' :
  determine_edge_badness sol self routes = Some self' ->
  statics self' = statics self /\ _penalized_costs self' = _penalized_costs self.
Proof.
  unfold determine_edge_badness. intros H.
  apply bind_Some_inv in H as ([penalties edges] & _ & H). by injection H as <-.
Qed.

Lemma get_and_penalize_worst_edge_statics sol self self' e :
  get_and_penalize_worst_edge sol self = Some (self', e) -> statics self' = statics self.
Proof.
  unfold get_and_penalize_worst_edge. intros H.
  apply bind_Some_inv in H as (heap & _ & H).
  apply bind_Some_inv in H as ([popped rest] & _ & H).
  destruct (defaultdict_get _ _) as [p penalties].
  repeat (apply bind_Some_inv in H as (? & _ & H)). by injection H as <- _.
Qed.

Lemma penalize_statics self edge :
  statics (penalize self edge) = statics self
  /\ _penalized_costs (penalize self edge) = _penalized_costs self.
Proof. unfold penalize. by destruct (defaultdict_get _ _). Qed.

Lemma reachable_statics sol0 nodes0 self :
  reachable sol0 nodes0 self ->
  exists capacity self0,
    CostEvaluator_init sol0 nodes0 capacity = Some self0 /\ statics self = statics self0.
Proof.
  induction 1 as [capacity self Hinit
                 | sol self self' e _ (c & s0 & Hi & IH) Hop
                 | self edge _ (c & s0 & Hi & IH)
                 | sol self _ (c & s0 & Hi & IH)
                 | sol self _ (c & s0 & Hi & IH)
                 | sol self routes self' _ (c & s0 & Hi & IH) Hop
                 | sol self self' _ (c & s0 & Hi & IH) Hop
                 | sol self node self' _ (c & s0 & Hi & IH) Hop].
  - by exists capacity, self.
  - exists c, s0. split; [done |].
    by rewrite (get_and_penalize_worst_edge_statics _ _ _ _ Hop).
  - exists c, s0. split; [done |]. by rewrite (proj1 (penalize_statics _ _)).
  - by exists c, s0.
  - by exists c, s0.
  - exists c, s0. split; [done |].
    by rewrite (proj1 (determine_edge_badness_statics _ _ _ _ Hop)).
  - exists c, s0. split; [done |].
    by rewrite (proj1 (update_relocation_costs_statics _ _ _ Hop)).
  - exists c, s0. split; [done |].
    by rewrite (proj1 (update_ejection_costs_statics _ _ _ _ Hop)).
Qed.

(** ** The dirty set after switching penalization *)

(** The keys of a dictionary comprehension over the non-depot nodes. *)
Lemma comprehension_keys {V : Type} (sol : VRPSolution) (f : list (ref * V) -> ref -> option V)
    (l : list ref) (d0 d : list (ref * V)) :
  foldlM (fun d node =>
            if is_depot (node_at sol node) then Some d
            else v ← f d node; Some (dict_set node v d)) d0 l = Some d ->
  NoDup (dict_keys d0) ->
  NoDup (dict_keys d)
  /\ forall n, n ∈ dict_keys d <-> n ∈ dict_keys d0 \/ (n ∈ l /\ is_depot (node_at sol n) = false).
Proof.
  revert d0. induction l as [|x l IH]; intros d0 H Hnd; simpl in H.
  - injection H as <-. split; [done |]. intros n. rewrite elem_of_nil. tauto.
  - apply bind_Some_inv in H as (d1 & H1 & H).
    destruct (is_depot (node_at sol x)) eqn:Hx.
    + injection H1 as <-. apply IH in H as [Hnd' Hin]; [|done].
      split; [done |]. intros n. rewrite Hin, elem_of_cons.
      split; [tauto |]. intros [?|[[->|?] ?]]; [tauto | congruence | tauto].
    + apply bind_Some_inv in H1 as (v & _ & H1). injection H1 as <-.
      apply IH in H as [Hnd' Hin].
      * split; [done |]. intros n. rewrite Hin, dict_keys_set, elem_of_cons.
        destruct (decide (x ∈ dict_keys d0)) as [Hx0|Hx0].
        -- split; [tauto |]. intros [?|[[->|?] ?]]; tauto.
        -- rewrite elem_of_app, list_elem_of_singleton.
           split; [intros [[? | ->] | ?]; tauto | tauto].
      * rewrite dict_keys_set. destruct (decide (x ∈ dict_keys d0)); [done |].
        apply NoDup_app. split; [done |]. split; [|apply NoDup_singleton].
        intros y Hy ->%list_elem_of_singleton. done.
Qed.

Lemma CostEvaluator_init_keys sol nodes0 capacity self :
  CostEvaluator_init sol nodes0 capacity = Some self ->
  nodes self = nodes0
  /\ NoDup (dict_keys (neighborhood self))
  /\ forall n, n ∈ dict_keys (neighborhood self)
               <-> n ∈ nodes0 /\ is_depot (node_at sol n) = false.
Proof.
  unfold CostEvaluator_init. intros H.
  apply bind_Some_inv in H as (costs & _ & H).
  apply bind_Some_inv in H as (penalized & _ & H).
  apply bind_Some_inv in H as ([nbh inb] & Hn & H).
  apply bind_Some_inv in H as (total & _ & H).
  apply bind_Some_inv in H as (avg & _ & H).
  apply bind_Some_inv in H as (baseline & _ & H).
  injection H as <-. simpl. split; [done |].
  unfold _compute_neighborhood in Hn.
  apply bind_Some_inv in Hn as (nbh' & Hn & H).
  apply bind_Some_inv in H as (inb' & _ & H). injection H as -> ->.
  apply (comprehension_keys sol (fun _ node => _get_nearest_neighbors sol nodes0 costs 20 node))
    in Hn as [Hnd Hin]; [|apply NoDup_nil_2].
  split; [done |]. intros n. rewrite Hin. unfold dict_keys. simpl.
  rewrite elem_of_nil. tauto.
Qed.

(** C8: in every state of an evaluator built from the node list [nodes0],
    after [enable_penalization()] or [disable_penalization()] the dirty
    list [_nodes_to_update_for_relocation_chain] holds exactly the
    non-depot nodes of the evaluator's node list, each exactly once. *)
Theorem penalization_switch_dirty_set sol0 nodes0 self sol self' :
  reachable sol0 nodes0 self ->
  (forall n, n ∈ nodes0 -> is_depot (node_at sol n) = is_depot (node_at sol0 n)) ->
  self' = enable_penalization sol self \/ self' = disable_penalization sol self ->
  nodes self' = nodes0
  /\ NoDup (_nodes_to_update_for_relocation_chain self')
  /\ forall n, n ∈ _nodes_to_update_for_relocation_chain self'
               <-> n ∈ nodes self' /\ is_depot (node_at sol n) = false.
Proof.
  intros Hreach Hsol Hself'.
  apply reachable_statics in Hreach as (capacity & self0 & Hinit & Hst).
  apply CostEvaluator_init_keys in Hinit as (Hnodes & Hnd & Hin).
  injection Hst as Hst1 Hst2 _ _ _ _ _. rewrite <- Hst1, <- Hst2 in *.
  assert (nodes self' = nodes self
          /\ _nodes_to_update_for_relocation_chain self'
             = filter (fun node => is_depot (node_at sol node) = false)
                      (dict_keys (neighborhood self))) as [Hn ->].
  { by destruct Hself' as [-> | ->]. }
  rewrite Hn. split; [done |]. split; [by apply NoDup_filter |].
  intros n. rewrite list_elem_of_filter, Hin, Hnodes. split.
  - tauto.
  - intros [? ?]. rewrite <- Hsol by done. tauto.
Qed.

(** ** Cross-exchange: what every stored move records *)

Lemma get_neighbour_Some sol n d r :
  get_neighbour sol n d = Some r -> (d = 0 \/ d = 1) /\ r = step sol d n.
Proof.
  unfold get_neighbour, step.
  destruct (Z.eqb_spec d 0) as [->|H0]; [intros [= <-]; auto |].
  destruct (Z.eqb_spec d 1) as [->|H1]; [intros [= <-]; auto | done].
Qed.

Lemma get_neighbour_step sol n d :
  d = 0 \/ d = 1 -> get_neighbour sol n d = Some (step sol d n).
Proof. by intros [-> | ->]. Qed.

Lemma walk_snoc (f : ref -> ref) k r : walk f (S k) r = walk f k r ++ [Nat.iter k f r].
Proof.
  revert r. induction k as [|k IH]; intros r; [done |].
  change (walk f (S (S k)) r) with (r :: walk f (S k) (f r)).
  rewrite IH. cbn [walk app]. by rewrite (Nat.iter_succ_r k).
Qed.

Lemma walk_length (f : ref -> ref) k r : length (walk f k r) = k.
Proof. revert r. induction k as [|k IH]; intros r; simpl; [done | by rewrite IH]. Qed.

Lemma walk_lookup (f : ref -> ref) k r i :
  (i < k)%nat -> walk f k r !! i = Some (Nat.iter i f r).
Proof.
  revert r i. induction k as [|k IH]; intros r [|i] Hi; simpl; try lia; [done |].
  rewrite IH by lia. by rewrite <- Nat.iter_succ_r.
Qed.

Lemma segment_demand_app sol l1 l2 :
  segment_demand sol (l1 ++ l2) = segment_demand sol l1 + segment_demand sol l2.
Proof. induction l1 as [|x l1 IH]; simpl; [done | rewrite IH; lia]. Qed.

Lemma segment_demand_segment_of sol b w :
  segment_demand sol (segment_of b w) = segment_demand sol w.
Proof.
  destruct b; [|done]. simpl. induction w as [|x w IH]; simpl; [done |].
  rewrite segment_demand_app, IH. simpl. lia.
Qed.

Lemma segment_of_snoc b w x :
  segment_of b (w ++ [x]) = if b then x :: segment_of b w else segment_of b w ++ [x].
Proof. destruct b; simpl; [by rewrite rev_unit | done]. Qed.

Section EmittedMoves.
Variable cost_evaluator : CostEvaluator.
Variable sol : VRPSolution.
Variable s : ref.
Variables d1 d2 : Z.
Variable c2 : ref.
Variable first_cross : Z.

Hypothesis Hneighbour : exists ns, get_neighborhood cost_evaluator s = Some ns /\ c2 ∈ ns.
Hypothesis Hroute : route (node_at sol c2) ≠ route (node_at sol s).
Hypothesis Hd2 : d2 = 0 \/ d2 = 1.
Hypothesis Hfirst :
  cross_improvement cost_evaluator sol s (step sol d1 s) (step sol d2 c2) c2 = Some first_cross.
Hypothesis Hpositive : 0 < first_cross.

Let nondepot (n : ref) : Prop := is_depot (node_at sol n) = false.
Let walk1 (k : nat) : list ref := walk (step sol d1) k s.
Let walk2 (k : nat) : list ref := walk (step sol d2) k (step sol d2 c2).

Lemma extend_segment2_emitted n k1 k2 moves :
  extend_segment2 cost_evaluator sol s d1 d2
    (if d1 =? 1 then prev (node_at sol s) else next (node_at sol s)) c2 first_cross n
    (Nat.iter k1 (step sol d1) s)
    (segment_of (prepends d1 d2) (walk1 (S k1)))
    (segment_demand sol (walk1 (S k1)))
    (Nat.iter k2 (step sol d2) (step sol d2 c2))
    (segment_of (prepends d2 d1) (walk2 (S k2)))
    (segment_demand sol (walk2 (S k2))) = Some moves ->
  Forall nondepot (walk1 (S k1)) ->
  Forall nondepot (walk2 k2) ->
  Forall (fun m => exists k2', emitted cost_evaluator sol s m d1 d2 c2 k1 k2') moves.
Proof.
  revert k2 moves. induction n as [|n IH]; intros k2 moves H Hw1 Hw2; [done |].
  cbn [extend_segment2] in H.
  destruct (negb (is_depot (node_at sol (Nat.iter k2 (step sol d2) (step sol d2 c2)))))
    eqn:He2; [|by injection H as <-].
  apply negb_true_iff in He2.
  destruct (is_feasible cost_evaluator _) eqn:Hload1; [|by injection H as <-].
  cbn [andb] in H.
  apply bind_Some_inv in H as (found & Hfound & H).
  apply bind_Some_inv in H as (e2' & He2' & H).
  apply get_neighbour_Some in He2' as [_ ->].
  apply bind_Some_inv in H as (rest & Hrest & H). injection H as <-.
  assert (Forall nondepot (walk2 (S k2))) as Hw2'.
  { unfold walk2. rewrite walk_snoc. apply Forall_app. split; [done |].
    by constructor. }
  apply Forall_app. split.
  - destruct (is_feasible cost_evaluator
                (volume (route_at sol (route (node_at sol c2))) - _ + _)) eqn:Hload2;
      [|by injection Hfound as <-].
    apply bind_Some_inv in Hfound as (c1e & Hc1e & Hfound).
    apply get_neighbour_Some in Hc1e as [Hd1 ->].
    apply bind_Some_inv in Hfound as (c2e & Hc2e & Hfound).
    apply get_neighbour_Some in Hc2e as [_ ->].
    apply bind_Some_inv in Hfound as (second_cross & Hsecond & Hfound).
    destruct (Z.ltb_spec 0 (first_cross + second_cross)) as [Himp|_];
      [|by injection Hfound as <-].
    injection Hfound as <-. constructor; [|constructor].
    exists k2. unfold is_feasible in Hload1, Hload2.
    apply Z.leb_le in Hload1, Hload2.
    constructor; simpl; try done.
    + by rewrite !segment_demand_segment_of.
    + by rewrite !segment_demand_segment_of.
    + by exists first_cross, second_cross.
  - revert Hrest.
    replace (if (d2 =? 1) && (d1 =? 0) || (d1 + d2 =? 0)
             then step sol d2 (Nat.iter k2 (step sol d2) (step sol d2 c2))
                  :: segment_of (prepends d2 d1) (walk2 (S k2))
             else segment_of (prepends d2 d1) (walk2 (S k2))
                  ++ [step sol d2 (Nat.iter k2 (step sol d2) (step sol d2 c2))])
      with (segment_of (prepends d2 d1) (walk2 (S (S k2)))).
    2:{ unfold walk2 at 1. rewrite walk_snoc, segment_of_snoc.
        unfold prepends. by rewrite (Z.add_comm d2 d1). }
    replace (segment_demand sol (walk2 (S k2))
             + demand (node_at sol (step sol d2 (Nat.iter k2 (step sol d2) (step sol d2 c2)))))
      with (segment_demand sol (walk2 (S (S k2)))).
    2:{ unfold walk2 at 1. rewrite walk_snoc, segment_demand_app. simpl. lia. }
    intros Hrest. by apply (IH (S k2)).
Qed.

Lemma extend_segment1_emitted fuel n k1 moves :
  extend_segment1 cost_evaluator sol fuel s d1 d2
    (if d1 =? 1 then prev (node_at sol s) else next (node_at sol s)) c2
    (step sol d2 c2) first_cross n
    (Nat.iter k1 (step sol d1) s)
    (segment_of (prepends d1 d2) (walk1 (S k1)))
    (segment_demand sol (walk1 (S k1))) = Some moves ->
  Forall nondepot (walk1 k1) ->
  nondepot (step sol d2 c2) ->
  Forall (fun m => exists k1' k2', emitted cost_evaluator sol s m d1 d2 c2 k1' k2') moves.
Proof.
  revert k1 moves. induction n as [|n IH]; intros k1 moves H Hw1 Hstart; [done |].
  cbn [extend_segment1] in H.
  destruct (negb (is_depot (node_at sol (Nat.iter k1 (step sol d1) s)))) eqn:He1;
    [|by injection H as <-].
  apply negb_true_iff in He1.
  apply bind_Some_inv in H as (found & Hfound & H).
  apply bind_Some_inv in H as (e1' & He1' & H).
  apply get_neighbour_Some in He1' as [Hd1 ->].
  apply bind_Some_inv in H as (rest & Hrest & H). injection H as <-.
  assert (Forall nondepot (walk1 (S k1))) as Hw1'.
  { unfold walk1. rewrite walk_snoc. apply Forall_app. split; [done |].
    by constructor. }
  apply Forall_app. split.
  - replace [step sol d2 c2] with (segment_of (prepends d2 d1) (walk2 1)) in Hfound
      by (by destruct (prepends d2 d1)).
    replace (demand (node_at sol (step sol d2 c2))) with (segment_demand sol (walk2 1))
      in Hfound by (simpl; lia).
    apply (extend_segment2_emitted fuel k1 0) in Hfound; [|done |constructor].
    eapply Forall_impl; [exact Hfound |]. intros m [k2' Hm]. by exists k1, k2'.
  - revert Hrest.
    replace (if (d1 =? 1) && (d2 =? 0) || (d1 + d2 =? 0)
             then step sol d1 (Nat.iter k1 (step sol d1) s)
                  :: segment_of (prepends d1 d2) (walk1 (S k1))
             else segment_of (prepends d1 d2) (walk1 (S k1))
                  ++ [step sol d1 (Nat.iter k1 (step sol d1) s)])
      with (segment_of (prepends d1 d2) (walk1 (S (S k1)))).
    2:{ unfold walk1 at 1. by rewrite walk_snoc, segment_of_snoc. }
    replace (segment_demand sol (walk1 (S k1))
             + demand (node_at sol (step sol d1 (Nat.iter k1 (step sol d1) s))))
      with (segment_demand sol (walk1 (S (S k1)))).
    2:{ unfold walk1 at 1. rewrite walk_snoc, segment_demand_app. simpl. lia. }
    intros Hrest. by apply (IH (S k1)).
Qed.
End EmittedMoves.

Lemma Forall_concat_mapM {A B : Type} (P : B -> Prop) (f : A -> option (list B))
    (l : list A) (k : list (list B)) :
  mapM f l = Some k ->
  (forall x y, x ∈ l -> f x = Some y -> Forall P y) ->
  Forall P (concat k).
Proof.
  intros H%mapM_Some Hf. induction H as [|x y l k Hxy _ IH]; simpl; [constructor |].
  apply Forall_app. split.
  - apply (Hf x); [by left | done].
  - apply IH. intros x' y' Hx'. apply Hf. by right.
Qed.

Lemma search_from_neighbour_emitted cost_evaluator sol fuel s d1 d2 c2 ns moves :
  get_neighborhood cost_evaluator s = Some ns -> c2 ∈ ns ->
  search_from_neighbour cost_evaluator sol fuel s d1 d2 (step sol d1 s) c2 = Some moves ->
  Forall (fun m => exists k1 k2, emitted cost_evaluator sol s m d1 d2 c2 k1 k2) moves.
Proof.
  intros Hns Hc2. unfold search_from_neighbour.
  case_bool_decide as Hroute; [|by intros [= <-]].
  intros H. apply bind_Some_inv in H as (start2 & Hstart2 & H).
  apply get_neighbour_Some in Hstart2 as [Hd2 ->].
  destruct (is_depot (node_at sol (step sol d2 c2))) eqn:Hdepot; [by injection H as <- |].
  apply bind_Some_inv in H as (first_cross & Hfirst & H).
  destruct (Z.ltb_spec 0 first_cross) as [Hpos|_]; [|by injection H as <-].
  replace [s] with (segment_of (prepends d1 d2) (walk (step sol d1) 1 s)) in H
    by (by destruct (prepends d1 d2)).
  replace (demand (node_at sol s)) with (segment_demand sol (walk (step sol d1) 1 s)) in H
    by (simpl; lia).
  apply (extend_segment1_emitted cost_evaluator sol s d1 d2 c2 first_cross) with (k1 := 0%nat)
    in H; eauto.
Qed.

Lemma search_cross_exchanges_from_emitted cost_evaluator sol fuel s dirs1 dirs2 moves :
  search_cross_exchanges_from cost_evaluator sol fuel s dirs1 dirs2 = Some moves ->
  Forall (fun m => exists d1 d2 c2 k1 k2,
              d1 ∈ dirs1 /\ d2 ∈ dirs2 /\ emitted cost_evaluator sol s m d1 d2 c2 k1 k2)
         moves.
Proof.
  unfold search_cross_exchanges_from. intros H.
  apply bind_Some_inv in H as (per1 & Hper1 & H). injection H as <-.
  eapply Forall_concat_mapM; [exact Hper1 |]. intros d1 found1 Hd1 H.
  apply bind_Some_inv in H as (per2 & Hper2 & H). injection H as <-.
  eapply Forall_concat_mapM; [exact Hper2 |]. intros d2 found2 Hd2 H.
  unfold search_direction in H.
  apply bind_Some_inv in H as (ns & Hns & H).
  apply bind_Some_inv in H as (per3 & Hper3 & H). injection H as <-.
  eapply Forall_concat_mapM; [exact Hper3 |]. intros c2 found3 Hc2 H.
  eapply Forall_impl; [by eapply search_from_neighbour_emitted |].
  intros m (k1 & k2 & Hm). by exists d1, d2, c2, k1, k2.
Qed.

(** ** Cross-exchange: routes of a well-formed solution *)

Lemma consecutive_pairs_lookup l i a b :
  l !! i = Some a -> l !! S i = Some b -> consecutive_pairs l !! i = Some (a, b).
Proof.
  revert i. induction l as [|x [|y l] IH]; intros [|i] Ha Hb; simplify_eq/=; try done.
  by apply IH.
Qed.

Section WellFormed.
Variable sol : VRPSolution.
Hypothesis Hwf : wf_solution sol.

Let nondepot (n : ref) : Prop := is_depot (node_at sol n) = false.

Lemma customer_route n rt :
  rt ∈ routes sol -> n ∈ get_nodes sol rt -> nondepot n /\ route (node_at sol n) = rt.
Proof.
  intros Hrt Hn. destruct Hwf as [_ Hroutes].
  rewrite Forall_forall in Hroutes. destruct (Hroutes rt Hrt) as (_ & _ & Hcs & _).
  rewrite Forall_forall in Hcs. by apply Hcs.
Qed.

Lemma customer_nondepot n : customer sol n -> nondepot n.
Proof. intros (rt & Hrt & Hn). by eapply customer_route. Qed.

(** The two neighbours of a member of a route are members of the route
    or its depot. *)
Lemma customer_neighbours rt i n :
  rt ∈ routes sol -> get_nodes sol rt !! i = Some n ->
  (get_nodes sol rt ++ [depot (route_at sol rt)]) !! S i = Some (next (node_at sol n))
  /\ (depot (route_at sol rt) :: get_nodes sol rt) !! i = Some (prev (node_at sol n)).
Proof.
  intros Hrt Hn. destruct Hwf as [_ Hroutes].
  rewrite Forall_forall in Hroutes. destruct (Hroutes rt Hrt) as (_ & _ & _ & Hpairs & _).
  rewrite Forall_forall in Hpairs.
  set (cs := get_nodes sol rt) in *. set (d := depot (route_at sol rt)) in *.
  assert (i < length cs)%nat as Hi by (by eapply lookup_lt_Some).
  split.
  - destruct ((cs ++ [d]) !! S i) as [b|] eqn:Hb.
    2:{ apply lookup_ge_None in Hb. rewrite length_app in Hb. simpl in Hb. lia. }
    assert (consecutive_pairs (d :: cs ++ [d]) !! S i = Some (n, b)) as Hp.
    { apply consecutive_pairs_lookup; simpl; [by apply lookup_app_l_Some | done]. }
    apply list_elem_of_lookup_2, Hpairs in Hp. simpl in Hp. by destruct Hp as [-> _].
  - destruct ((d :: cs) !! i) as [a|] eqn:Ha.
    2:{ apply lookup_ge_None in Ha. simpl in Ha. lia. }
    assert (consecutive_pairs (d :: cs ++ [d]) !! i = Some (a, n)) as Hp.
    { apply consecutive_pairs_lookup.
      - change (d :: cs ++ [d]) with ((d :: cs) ++ [d]). by apply lookup_app_l_Some.
      - simpl. by apply lookup_app_l_Some. }
    apply list_elem_of_lookup_2, Hpairs in Hp. simpl in Hp. by destruct Hp as [_ ->].
Qed.

Lemma route_depot rt : rt ∈ routes sol -> is_depot (node_at sol (depot (route_at sol rt))) = true.
Proof.
  intros Hrt. destruct Hwf as [_ Hroutes].
  rewrite Forall_forall in Hroutes. by destruct (Hroutes rt Hrt) as (_ & ? & _).
Qed.

(** A neighbour of a customer that is not a depot is a customer of the
    same route. *)
Lemma customer_step d n :
  customer sol n -> nondepot (step sol d n) ->
  customer sol (step sol d n) /\ route (node_at sol (step sol d n)) = route (node_at sol n).
Proof.
  intros (rt & Hrt & Hn) Hnd.
  destruct (customer_route n rt Hrt Hn) as [_ Hroute].
  apply list_elem_of_lookup in Hn as [i Hi].
  destruct (customer_neighbours rt i n Hrt Hi) as [Hnext Hprev].
  pose proof (route_depot rt Hrt) as Hdepot.
  assert (step sol d n ∈ get_nodes sol rt) as Hin.
  { unfold step in *. destruct (d =? 1).
    - destruct i as [|i]; simpl in Hprev.
      + injection Hprev as Hprev. unfold nondepot in Hnd. congruence.
      + by eapply list_elem_of_lookup_2.
    - apply lookup_app_Some in Hnext as [Hnext | [_ Hnext]].
      + by eapply list_elem_of_lookup_2.
      + apply list_lookup_singleton_Some in Hnext as [_ Hnext].
        unfold nondepot in Hnd. congruence. }
  split; [by exists rt |].
  destruct (customer_route _ rt Hrt Hin) as [_ ->]. done.
Qed.

Lemma customer_walk d k n :
  customer sol n -> Forall nondepot (walk (step sol d) k n) ->
  Forall (fun x => customer sol x /\ route (node_at sol x) = route (node_at sol n))
         (walk (step sol d) k n).
Proof.
  revert n. induction k as [|k IH]; intros n Hn Hw; simpl in *; [constructor |].
  apply Forall_cons in Hw as [_ Hw]. constructor; [done |].
  destruct k as [|k]; [constructor |].
  assert (nondepot (step sol d n)) as Hnd by (by apply Forall_cons in Hw as [? _]).
  destruct (customer_step d n Hn Hnd) as [Hc Hr].
  eapply Forall_impl; [by apply IH |]. intros x [? ?]. split; [done | congruence].
Qed.
End WellFormed.

(** ** Cross-exchange: the search returns *)

Lemma bind_is_Some {A B : Type} (m : option A) (f : A -> option B) :
  is_Some m -> (forall a, m = Some a -> is_Some (f a)) -> is_Some (m ≫= f).
Proof. intros [a ->] Hf. simpl. by apply Hf. Qed.

Section SearchReturns.
Variable cost_evaluator : CostEvaluator.
Variable sol : VRPSolution.
Variable fuel : nat.
Hypothesis Hwf : wf_solution sol.
Hypothesis Hdist : distances_defined cost_evaluator sol.
Hypothesis Hfuel : forall rt, rt ∈ routes sol -> size (route_at sol rt) < Z.of_nat fuel.

Lemma cross_improvement_is_Some a b c d :
  is_Some (cross_improvement cost_evaluator sol a b c d).
Proof.
  unfold cross_improvement.
  destruct (Hdist a b) as [? ->], (Hdist c d) as [? ->],
           (Hdist a d) as [? ->], (Hdist c b) as [? ->]. simpl. eauto.
Qed.

Lemma extend_segment2_total s d1 d2 c1s c2 first_cross n j e1 l1 v1 e2 l2 v2 :
  d1 = 0 \/ d1 = 1 -> d2 = 0 \/ d2 = 1 ->
  (j < n)%nat -> is_depot (node_at sol (Nat.iter j (step sol d2) e2)) = true ->
  is_Some (extend_segment2 cost_evaluator sol s d1 d2 c1s c2 first_cross
             n e1 l1 v1 e2 l2 v2).
Proof.
  intros Hd1 Hd2. revert j e2 l2 v2. induction n as [|n IH]; intros j e2 l2 v2 Hj Hdepot;
    [lia |].
  cbn [extend_segment2].
  destruct (is_depot (node_at sol e2)) eqn:He2; [by eexists |].
  destruct (is_feasible cost_evaluator _); [|by eexists]. cbn [negb andb].
  destruct j as [|j]; [simpl in Hdepot; congruence |].
  rewrite Nat.iter_succ_r in Hdepot.
  apply bind_is_Some.
  { destruct (is_feasible cost_evaluator _); [|by eexists].
    rewrite !get_neighbour_step by done. cbn [mbind option_bind].
    destruct (cross_improvement_is_Some e1 (step sol d1 e1) e2 (step sol d2 e2)) as [x ->].
    cbn [mbind option_bind]. destruct (0 <? _); by eexists. }
  intros found _. rewrite get_neighbour_step by done. cbn [mbind option_bind].
  apply bind_is_Some; [|by eexists]. apply (IH j); [lia | done].
Qed.

Lemma extend_segment1_total s d1 d2 c1s c2 start2 first_cross j2 n j e1 l1 v1 :
  d1 = 0 \/ d1 = 1 -> d2 = 0 \/ d2 = 1 ->
  (j2 < fuel)%nat -> is_depot (node_at sol (Nat.iter j2 (step sol d2) start2)) = true ->
  (j < n)%nat -> is_depot (node_at sol (Nat.iter j (step sol d1) e1)) = true ->
  is_Some (extend_segment1 cost_evaluator sol fuel s d1 d2 c1s c2 start2 first_cross
             n e1 l1 v1).
Proof.
  intros Hd1 Hd2 Hj2 Hdepot2. revert j e1 l1 v1.
  induction n as [|n IH]; intros j e1 l1 v1 Hj Hdepot; [lia |].
  cbn [extend_segment1].
  destruct (is_depot (node_at sol e1)) eqn:He1; [by eexists |]. cbn [negb].
  destruct j as [|j]; [simpl in Hdepot; congruence |].
  rewrite Nat.iter_succ_r in Hdepot.
  apply bind_is_Some; [by apply (extend_segment2_total s d1 d2 c1s c2 first_cross fuel j2) |].
  intros found _. rewrite get_neighbour_step by done. cbn [mbind option_bind].
  apply bind_is_Some; [|by eexists]. apply (IH j); [lia | done].
Qed.

(** Following [next] or [prev] from a customer leads to the depot of its
    route within [size] steps. *)
Lemma customer_reaches_depot d n :
  d = 0 \/ d = 1 -> customer sol n ->
  exists j, (j < fuel)%nat /\ is_depot (node_at sol (Nat.iter j (step sol d) n)) = true.
Proof.
  intros Hd (rt & Hrt & Hn).
  pose proof (route_depot sol Hwf rt Hrt) as Hdepot.
  pose proof (Hfuel rt Hrt) as Hsize.
  assert (length (get_nodes sol rt) = Z.to_nat (size (route_at sol rt))) as Hlen
    by apply walk_length.
  apply list_elem_of_lookup in Hn as [i Hi].
  assert (i < length (get_nodes sol rt))%nat as Hilen by (by eapply lookup_lt_Some).
  set (cs := get_nodes sol rt) in *. set (dep := depot (route_at sol rt)) in *.
  destruct Hd as [-> | ->].
  - assert (forall j, (i + j <= length cs)%nat ->
                      (cs ++ [dep]) !! (i + j)%nat = Some (Nat.iter j (step sol 0) n)) as Hwalk.
    { induction j as [|j IH]; intros Hj.
      - rewrite Nat.add_0_r. by apply lookup_app_l_Some.
      - specialize (IH ltac:(lia)). rewrite lookup_app_l in IH by lia.
        destruct (customer_neighbours sol Hwf rt _ _ Hrt IH) as [Hnext _].
        replace (i + S j)%nat with (S (i + j)) by lia. exact Hnext. }
    exists (length cs - i)%nat. split; [lia |].
    specialize (Hwalk (length cs - i)%nat ltac:(lia)).
    replace (i + (length cs - i))%nat with (length cs + 0)%nat in Hwalk by lia.
    rewrite lookup_app_r in Hwalk by lia.
    replace (length cs + 0 - length cs)%nat with 0%nat in Hwalk by lia.
    change ([dep] !! 0%nat) with (Some dep) in Hwalk.
    apply (inj Some) in Hwalk. by rewrite <- Hwalk.
  - assert (forall j, (j <= S i)%nat ->
                      (dep :: cs) !! (S i - j)%nat = Some (Nat.iter j (step sol 1) n)) as Hwalk.
    { induction j as [|j IH]; intros Hj.
      - by rewrite Nat.sub_0_r.
      - specialize (IH ltac:(lia)).
        replace (S i - j)%nat with (S (i - j)) in IH by lia. simpl in IH.
        destruct (customer_neighbours sol Hwf rt _ _ Hrt IH) as [_ Hprev].
        replace (S i - S j)%nat with (i - j)%nat by lia. exact Hprev. }
    exists (S i). split; [lia |].
    specialize (Hwalk (S i) ltac:(lia)). rewrite Nat.sub_diag in Hwalk.
    change ((dep :: cs) !! 0%nat) with (Some dep) in Hwalk.
    apply (inj Some) in Hwalk. by rewrite <- Hwalk.
Qed.

Lemma search_from_neighbour_total s d1 d2 c2 :
  d1 = 0 \/ d1 = 1 -> d2 = 0 \/ d2 = 1 -> customer sol s -> customer sol c2 ->
  is_Some (search_from_neighbour cost_evaluator sol fuel s d1 d2 (step sol d1 s) c2).
Proof.
  intros Hd1 Hd2 Hs Hc2. unfold search_from_neighbour.
  case_bool_decide; [|by eexists].
  rewrite get_neighbour_step by done. cbn [mbind option_bind].
  destruct (is_depot (node_at sol (step sol d2 c2))) eqn:Hstart2; [by eexists |].
  destruct (cross_improvement_is_Some s (step sol d1 s) (step sol d2 c2) c2) as [x ->].
  cbn [mbind option_bind]. destruct (0 <? x); [|by eexists].
  destruct (customer_step sol Hwf d2 c2 Hc2 Hstart2) as [Hcust _].
  destruct (customer_reaches_depot d2 _ Hd2 Hcust) as (j2 & Hj2 & Hdep2).
  destruct (customer_reaches_depot d1 _ Hd1 Hs) as (j1 & Hj1 & Hdep1).
  by apply (extend_segment1_total s d1 d2 _ c2 _ x j2 fuel j1).
Qed.

Lemma search_cross_exchanges_from_total s ns dirs1 dirs2 :
  Forall (fun d => d = 0 \/ d = 1) dirs1 -> Forall (fun d => d = 0 \/ d = 1) dirs2 ->
  customer sol s ->
  get_neighborhood cost_evaluator s = Some ns -> Forall (customer sol) ns ->
  is_Some (search_cross_exchanges_from cost_evaluator sol fuel s dirs1 dirs2).
Proof.
  intros Hdirs1 Hdirs2 Hs Hns Hcust. unfold search_cross_exchanges_from.
  apply bind_is_Some; [|by eexists].
  apply mapM_is_Some, Forall_forall. intros d1 Hd1. unfold compose.
  apply bind_is_Some; [|by eexists].
  apply mapM_is_Some, Forall_forall. intros d2 Hd2. unfold compose, search_direction.
  rewrite Hns. cbn [mbind option_bind].
  apply bind_is_Some; [|by eexists].
  apply mapM_is_Some, Forall_forall. intros c2 Hc2. unfold compose.
  rewrite Forall_forall in Hdirs1. rewrite Forall_forall in Hdirs2.
  rewrite Forall_forall in Hcust.
  apply search_from_neighbour_total; auto.
Qed.
End SearchReturns.

(** ** Cross-exchange: feasibility, improvement and shape of the moves *)

Lemma segment_of_Forall (P : ref -> Prop) b w : Forall P w -> Forall P (segment_of b w).
Proof. destruct b; simpl; [|done]. apply Forall_rev. Qed.

Lemma segment_of_head b k f r :
  exists x, head (segment_of b (walk f (S k) r)) = Some x /\ x ∈ walk f (S k) r.
Proof.
  destruct (segment_of b (walk f (S k) r)) as [|x l] eqn:Hseg.
  - apply (f_equal length) in Hseg. destruct b; simpl in Hseg; [|done].
    rewrite length_app, length_rev in Hseg. simpl in Hseg. lia.
  - exists x. split; [done |].
    assert (x ∈ segment_of b (walk f (S k) r)) as Hx by (rewrite Hseg; by left).
    destruct b; [|done]. simpl segment_of in Hx.
    apply list_elem_of_In. apply in_rev. by apply list_elem_of_In.
Qed.

(** The routes of the nodes of a stored move, in a well-formed solution. *)
Lemma emitted_routes cost_evaluator sol s m d1 d2 c2 k1 k2 :
  wf_solution sol -> customer sol s -> customer sol c2 ->
  emitted cost_evaluator sol s m d1 d2 c2 k1 k2 ->
  Forall (fun n => route (node_at sol n) = route (node_at sol s)) (segment1 m)
  /\ Forall (fun n => route (node_at sol n) = route (node_at sol c2)) (segment2 m)
  /\ get_routes sol m = Some (route (node_at sol s), route (node_at sol c2)).
Proof.
  intros Hwf Hs Hc2 Hm.
  pose proof (customer_walk sol Hwf d1 (S k1) s Hs (em_walk1 _ _ _ _ _ _ _ _ _ Hm)) as H1.
  assert (customer sol (step sol d2 c2)
          /\ route (node_at sol (step sol d2 c2)) = route (node_at sol c2)) as [Hstart2 Hr2].
  { apply customer_step; [done | done |].
    pose proof (em_walk2 _ _ _ _ _ _ _ _ _ Hm) as Hw. simpl in Hw.
    by apply Forall_cons in Hw as [? _]. }
  pose proof (customer_walk sol Hwf d2 (S k2) _ Hstart2 (em_walk2 _ _ _ _ _ _ _ _ _ Hm)) as H2.
  assert (Forall (fun n => route (node_at sol n) = route (node_at sol s))
                 (walk (step sol d1) (S k1) s)) as H1'.
  { eapply Forall_impl; [exact H1 |]. by intros x [_ ?]. }
  assert (Forall (fun n => route (node_at sol n) = route (node_at sol c2))
                 (walk (step sol d2) (S k2) (step sol d2 c2))) as H2'.
  { eapply Forall_impl; [exact H2 |]. intros x [_ ?]. congruence. }
  rewrite (em_segment1 _ _ _ _ _ _ _ _ _ Hm), (em_segment2 _ _ _ _ _ _ _ _ _ Hm).
  split; [by apply segment_of_Forall |]. split; [by apply segment_of_Forall |].
  unfold get_routes.
  rewrite (em_segment1 _ _ _ _ _ _ _ _ _ Hm), (em_segment2 _ _ _ _ _ _ _ _ _ Hm).
  destruct (segment_of_head (prepends d1 d2) k1 (step sol d1) s) as (x1 & -> & Hx1).
  destruct (segment_of_head (prepends d2 d1) k2 (step sol d2) (step sol d2 c2))
    as (x2 & -> & Hx2).
  simpl. rewrite Forall_forall in H1'. rewrite Forall_forall in H2'.
  by rewrite (H1' x1 Hx1), (H2' x2 Hx2).
Qed.


(** C10: for a customer [s] of a well-formed solution whose neighbourhood
    consists of customers, both segments of every move that
    [search_cross_exchanges_from] stores are non-empty and hold no depot;
    every node of [segment1] is on the route of [s], and the nodes of
    [segment2] are all on one route, which is not the route of [s]. *)
Theorem search_cross_exchanges_from_moves_shape cost_evaluator sol fuel s ns dirs1 dirs2 moves :
  wf_solution sol -> customer sol s ->
  get_neighborhood cost_evaluator s = Some ns -> Forall (customer sol) ns ->
  search_cross_exchanges_from cost_evaluator sol fuel s dirs1 dirs2 = Some moves ->
  Forall (fun m =>
    segment1 m ≠ [] /\ segment2 m ≠ []
    /\ Forall (fun n => is_depot (node_at sol n) = false) (segment1 m)
    /\ Forall (fun n => is_depot (node_at sol n) = false) (segment2 m)
    /\ Forall (fun n => route (node_at sol n) = route (node_at sol s)) (segment1 m)
    /\ exists R2,
        R2 ≠ route (node_at sol s)
        /\ Forall (fun n => route (node_at sol n) = R2) (segment2 m)) moves.
Proof.
  intros Hwf Hs Hns Hcust Hmoves.
  eapply Forall_impl; [by eapply search_cross_exchanges_from_emitted |].
  intros m (d1 & d2 & c2 & k1 & k2 & _ & _ & Hm).
  assert (customer sol c2) as Hc2.
  { destruct (em_neighbour _ _ _ _ _ _ _ _ _ Hm) as (ns' & Hns' & Hin).
    rewrite Hns in Hns'. injection Hns' as <-.
    rewrite Forall_forall in Hcust. by apply Hcust. }
  destruct (emitted_routes _ _ _ _ _ _ _ _ _ Hwf Hs Hc2 Hm) as (Hr1 & Hr2 & Hroutes).
  unfold get_routes in Hroutes.
  split; [intros Hnil; by rewrite Hnil in Hroutes |].
  split; [intros Hnil; rewrite Hnil in Hroutes; by destruct (head (segment1 m)) |].
  rewrite (em_segment1 _ _ _ _ _ _ _ _ _ Hm), (em_segment2 _ _ _ _ _ _ _ _ _ Hm) in *.
  split; [apply segment_of_Forall, (em_walk1 _ _ _ _ _ _ _ _ _ Hm) |].
  split; [apply segment_of_Forall, (em_walk2 _ _ _ _ _ _ _ _ _ Hm) |].
  split; [done |].
  exists (route (node_at sol c2)). split; [apply (em_other_route _ _ _ _ _ _ _ _ _ Hm) | done].
Qed.

(** ** Edge badness *)

Lemma compute_edge_width_spec sol rt e cx cy :
  spec_centroid sol rt = Some (cx, cy) ->
  _compute_edge_width sol e cx cy (depot (route_at sol rt))
  = spec_width sol rt (get_first_node e) (get_second_node e).
Proof.
  intros Hc. unfold spec_width, _compute_edge_width. rewrite Hc. cbn [mbind option_bind].
  destruct (math_pow2 _) as [px|]; [|done]. cbn [mbind option_bind].
  destruct (math_pow2 _) as [py|]; [|done]. cbn [mbind option_bind].
  destruct (math_sqrt _) as [dist|]; [|done]. cbn [mbind option_bind].
  unfold spec_line. by destruct (is_zero dist).
Qed.

Lemma compute_route_center_spec sol rt :
  _compute_route_center sol (get_nodes sol rt) = spec_centroid sol rt.
Proof.
  unfold _compute_route_center, spec_centroid, spec_mean. cbn zeta. rewrite !length_fmap.
  destruct (py_sum_floats ((fun n => x_coordinate (node_at sol n)) <$> _)) as [sx|];
    cbn [mbind option_bind]; [|done].
  destruct (py_truediv sx _) as [mean_x|]; cbn [mbind option_bind]; [|done].
  destruct (py_sum_floats ((fun n => y_coordinate (node_at sol n)) <$> _)) as [sy|];
    cbn [mbind option_bind]; [|done].
  by destruct (py_truediv sy _).
Qed.

(** The value the code computes for an edge is the value of the
    specification, when the center of the route is the one computed at the
    head of the loop. *)
Lemma compute_edge_value_spec sol self rt e center :
  center = match _penalization_criterium self with
           | length_ => Some None
           | _ => Some <$> _compute_route_center sol (get_nodes sol rt)
           end ->
  (c ← center; compute_edge_value sol self e c rt)
  = spec_score sol self rt (get_first_node e) (get_second_node e).
Proof.
  intros ->. unfold compute_edge_value, spec_score.
  rewrite compute_route_center_spec.
  destruct (_penalization_criterium self); cbn [mbind option_bind].
  - unfold _compute_edge_width_value, spec_width at 1.
    destruct (spec_centroid sol rt) as [[cx cy]|] eqn:Hc; [|done].
    cbn [fmap option_fmap option_map mbind option_bind].
    rewrite (compute_edge_width_spec sol rt e cx cy Hc). unfold spec_width. by rewrite Hc.
  - done.
  - unfold _compute_edge_width_length_value, spec_width at 1.
    destruct (spec_centroid sol rt) as [[cx cy]|] eqn:Hc; [|done].
    cbn [fmap option_fmap option_map mbind option_bind].
    rewrite (compute_edge_width_spec sol rt e cx cy Hc). unfold spec_width. by rewrite Hc.
Qed.

Section ScoreEdges.
Variable sol : VRPSolution.
Variable self : CostEvaluator.

(** Reading a [defaultdict] does not change any count. *)
Let same_counts (penalties : gmap (nat * nat) Z) : Prop :=
  forall k, default 0 (penalties !! k) = default 0 (_edge_penalties self !! k).

Lemma defaultdict_get_same_counts penalties k :
  same_counts penalties ->
  (defaultdict_get penalties k).1 = default 0 (_edge_penalties self !! k)
  /\ same_counts (defaultdict_get penalties k).2.
Proof.
  intros H. split; [by rewrite defaultdict_get_fst |].
  unfold defaultdict_get. destruct (penalties !! k) eqn:Hk; [done |].
  intros k'. simpl. destruct (decide (k = k')) as [<-|Hne].
  - rewrite lookup_insert_eq. simpl. rewrite <- H. by rewrite Hk.
  - by rewrite lookup_insert_ne.
Qed.

Lemma score_edge_spec rt center penalties edges e penalties' edges' :
  (forall e, compute_edge_value sol self e center rt
             = spec_score sol self rt (get_first_node e) (get_second_node e)) ->
  same_counts penalties ->
  score_edge sol self center rt (penalties, edges) e = Some (penalties', edges') <->
  exists e', scored sol self (rt, e) e' /\ edges' = edges ++ [e']
             /\ penalties' = (defaultdict_get penalties (edge_key e)).2.
Proof.
  intros Hcenter Hsame. unfold score_edge, scored, spec_edge_value. rewrite Hcenter. simpl.
  destruct (defaultdict_get_same_counts penalties (edge_key e) Hsame) as [Hp _].
  destruct (defaultdict_get penalties (edge_key e)) as [p pen1]. simpl in Hp. subst p.
  destruct (spec_score sol self rt _ _) as [v|]; simpl.
  2:{ split; [done | by intros (? & [_ ?] & _)]. }
  destruct (py_truediv v _) as [v'|]; simpl.
  2:{ split; [done | by intros (? & [_ ?] & _)]. }
  split.
  - intros [= <- <-]. by exists (mkEdge (edge_nodes e) v').
  - intros ([nodes' val'] & [Hn Hv] & -> & ->). simpl in *. by simplify_eq.
Qed.

Lemma score_edges_spec rt center es penalties edges :
  (forall e, compute_edge_value sol self e center rt
             = spec_score sol self rt (get_first_node e) (get_second_node e)) ->
  same_counts penalties ->
  (forall penalties' edges',
      foldlM (score_edge sol self center rt) (penalties, edges) es = Some (penalties', edges') ->
      same_counts penalties'
      /\ exists new, Forall2 (scored sol self) ((fun e => (rt, e)) <$> es) new
                     /\ edges' = edges ++ new)
  /\ (forall new,
         Forall2 (scored sol self) ((fun e => (rt, e)) <$> es) new ->
         exists penalties',
           foldlM (score_edge sol self center rt) (penalties, edges) es
           = Some (penalties', edges ++ new)
           /\ same_counts penalties').
Proof.
  intros Hcenter. revert penalties edges.
  induction es as [|e es IH]; intros penalties edges Hsame; split.
  - intros penalties' edges' [= <- <-]. split; [done |].
    exists []. split; [constructor | by rewrite app_nil_r].
  - intros new Hnew. apply Forall2_nil_inv_l in Hnew as ->.
    exists penalties. by rewrite app_nil_r.
  - intros penalties' edges' H. cbn [foldlM] in H.
    apply bind_Some_inv in H as ([pen1 edges1] & H1 & H).
    apply (score_edge_spec rt center) in H1 as (e' & He' & -> & ->); [|done..].
    destruct (defaultdict_get_same_counts penalties (edge_key e) Hsame) as [_ Hsame1].
    destruct (IH _ (edges ++ [e']) Hsame1) as [IH1 _].
    destruct (IH1 _ _ H) as (Hsame' & new & Hnew & ->).
    split; [done |]. exists (e' :: new).
    split; [by constructor | by rewrite <- app_assoc].
  - intros new Hnew. rewrite fmap_cons in Hnew.
    apply Forall2_cons_inv_l in Hnew as (e' & new' & He' & Hnew & ->).
    destruct (defaultdict_get_same_counts penalties (edge_key e) Hsame) as [_ Hsame1].
    destruct (IH _ (edges ++ [e']) Hsame1) as [_ IH2].
    destruct (IH2 new' Hnew) as (penalties' & Hfold & Hsame').
    exists penalties'. split; [|done]. cbn [foldlM].
    assert (score_edge sol self center rt (penalties, edges) e
            = Some ((defaultdict_get penalties (edge_key e)).2, edges ++ [e'])) as ->.
    { apply score_edge_spec; [done | done |]. by exists e'. }
    cbn [mbind option_bind]. by rewrite Hfold, <- app_assoc.
Qed.

Lemma get_edges_cons rt : exists e es, get_edges sol rt = e :: es.
Proof.
  unfold get_edges. destruct (get_nodes sol rt) as [|c cs]; simpl; [by eexists _, _ |].
  by eexists _, _.
Qed.

Lemma score_route_spec rt penalties edges :
  same_counts penalties ->
  (forall penalties' edges',
      score_route sol self (penalties, edges) rt = Some (penalties', edges') ->
      same_counts penalties'
      /\ exists new, Forall2 (scored sol self) ((fun e => (rt, e)) <$> get_edges sol rt) new
                     /\ edges' = edges ++ new)
  /\ (forall new,
         Forall2 (scored sol self) ((fun e => (rt, e)) <$> get_edges sol rt) new ->
         exists penalties',
           score_route sol self (penalties, edges) rt = Some (penalties', edges ++ new)
           /\ same_counts penalties').
Proof.
  intros Hsame. unfold score_route.
  pose proof (fun e => compute_edge_value_spec sol self rt e _ eq_refl) as Hcenter.
  destruct (match _penalization_criterium self with
            | length_ => Some None
            | _ => Some <$> _compute_route_center sol (get_nodes sol rt)
            end) as [center|] eqn:Hc.
  - cbn [mbind option_bind] in *.
    by apply score_edges_spec.
  - cbn [mbind option_bind] in *. split; [done |].
    intros new Hnew. exfalso.
    destruct (get_edges_cons rt) as (e & es & Hes). rewrite Hes, fmap_cons in Hnew.
    apply Forall2_cons_inv_l in Hnew as (e' & new' & [_ He'] & _).
    unfold spec_edge_value in He'. simpl in He'. by rewrite <- Hcenter in He'.
Qed.

Lemma score_routes_spec routes penalties edges :
  same_counts penalties ->
  (forall penalties' edges',
      foldlM (score_route sol self) (penalties, edges) routes = Some (penalties', edges') ->
      same_counts penalties'
      /\ exists new, Forall2 (scored sol self) (route_edges sol routes) new
                     /\ edges' = edges ++ new)
  /\ (forall new,
         Forall2 (scored sol self) (route_edges sol routes) new ->
         exists penalties',
           foldlM (score_route sol self) (penalties, edges) routes
           = Some (penalties', edges ++ new)
           /\ same_counts penalties').
Proof.
  revert penalties edges. unfold route_edges.
  induction routes as [|rt routes IH]; intros penalties edges Hsame; split.
  - intros penalties' edges' [= <- <-]. split; [done |].
    exists []. split; [constructor | by rewrite app_nil_r].
  - intros new Hnew. apply Forall2_nil_inv_l in Hnew as ->.
    exists penalties. by rewrite app_nil_r.
  - intros penalties' edges' H. cbn [foldlM] in H.
    apply bind_Some_inv in H as ([pen1 edges1] & H1 & H).
    destruct (score_route_spec rt penalties edges Hsame) as [Hr _].
    destruct (Hr _ _ H1) as (Hsame1 & new1 & Hnew1 & ->).
    destruct (IH pen1 (edges ++ new1) Hsame1) as [IH1 _].
    destruct (IH1 _ _ H) as (Hsame' & new & Hnew & ->).
    split; [done |]. exists (new1 ++ new).
    split; [|by rewrite <- app_assoc].
    rewrite bind_cons. by apply Forall2_app.
  - intros new Hnew. rewrite bind_cons in Hnew.
    apply Forall2_app_inv_l in Hnew as (new1 & new2 & Hnew1 & Hnew2 & ->).
    destruct (score_route_spec rt penalties edges Hsame) as [_ Hr].
    destruct (Hr new1 Hnew1) as (pen1 & H1 & Hsame1).
    destruct (IH pen1 (edges ++ new1) Hsame1) as [_ IH2].
    destruct (IH2 new2 Hnew2) as (penalties' & Hfold & Hsame').
    exists penalties'. split; [|done]. cbn [foldlM]. rewrite H1.
    cbn [mbind option_bind]. by rewrite Hfold, <- app_assoc.
Qed.
End ScoreEdges.

(** A route without customers has no centroid: the mean of no coordinate
    is a division by zero. *)
Lemma spec_centroid_empty sol rt : size (route_at sol rt) <= 0 -> spec_centroid sol rt = None.
Proof.
  intros Hsize. unfold spec_centroid, get_nodes.
  replace (Z.to_nat (size (route_at sol rt))) with 0%nat by lia. reflexivity.
Qed.

Lemma spec_score_empty sol self rt u v :
  _penalization_criterium self ≠ length_ -> size (route_at sol rt) <= 0 ->
  spec_score sol self rt u v = None.
Proof.
  intros Hcrit Hsize. unfold spec_score, spec_width.
  rewrite (spec_centroid_empty sol rt Hsize).
  by destruct (_penalization_criterium self).
Qed.


(** ** heapq: the heap order *)

Lemma parent_pos_child_pos p : parent_pos (child_pos p) = p /\ parent_pos (child_pos p + 1) = p.
Proof.
  unfold parent_pos, child_pos. split.
  - pose proof (Nat.div_mod_eq (2 * p + 1 - 1) 2).
    pose proof (Nat.mod_upper_bound (2 * p + 1 - 1) 2). lia.
  - pose proof (Nat.div_mod_eq (2 * p + 1 + 1 - 1) 2).
    pose proof (Nat.mod_upper_bound (2 * p + 1 + 1 - 1) 2). lia.
Qed.

Lemma child_pos_parent_pos c :
  (1 <= c)%nat -> c = child_pos (parent_pos c) \/ c = (child_pos (parent_pos c) + 1)%nat.
Proof.
  intros Hc. unfold parent_pos, child_pos.
  pose proof (Nat.div_mod_eq (c - 1) 2). pose proof (Nat.mod_upper_bound (c - 1) 2). lia.
Qed.

Lemma parent_pos_le c : (parent_pos c <= c)%nat.
Proof.
  destruct c as [|c]; [done |]. pose proof (parent_pos_lt (S c)). lia.
Qed.

Lemma half_children n : (n <= child_pos (n / 2))%nat.
Proof.
  unfold child_pos. pose proof (Nat.div_mod_eq n 2). pose proof (Nat.mod_upper_bound n 2). lia.
Qed.

Section HeapqOrder.
Context {A : Type} (lt : A -> A -> bool) (P : A -> Prop).
Implicit Types (heap v : list A) (pos k p c : nat).
Local Open Scope nat_scope.

Hypothesis lt_asym : forall a b, P a -> P b -> lt a b = true -> lt b a = false.
Hypothesis not_greater_trans : forall a b d : A,
  P a -> P b -> P d -> not_greater lt a b -> not_greater lt b d -> not_greater lt a d.

Lemma not_greater_refl a : P a -> not_greater lt a a.
Proof.
  intros Ha. unfold not_greater. destruct (lt a a) eqn:H; [|done]. by rewrite (lt_asym a a) in H.
Qed.

Lemma below_le k p : below k p -> k <= p.
Proof. induction 1 as [|c _ IH Hc]; [done |]. pose proof (parent_pos_le c). lia. Qed.

Lemma below_parent k p : below k p -> k < p -> below k (parent_pos p) /\ k <= parent_pos p.
Proof.
  intros H Hlt. destruct H as [|c Hc _]; [lia |]. split; [done | by apply below_le].
Qed.

Lemma below_0 p : below 0 p.
Proof.
  induction p as [p IH] using lt_wf_ind. destruct p as [|p]; [constructor |].
  apply below_child; [|lia]. apply IH. apply parent_pos_lt. lia.
Qed.

(** *** One step of an item towards the root *)

Lemma up_step k v v' p x pv :
  below k p -> k < p -> Forall P v ->
  v !! p = Some x -> v !! parent_pos p = Some pv -> lt x pv = true ->
  v' !! p = Some pv -> v' !! parent_pos p = Some x ->
  (forall c, c ≠ p -> c ≠ parent_pos p -> v' !! c = v !! c) ->
  up_inv lt k v p -> up_inv lt k v' (parent_pos p).
Proof.
  intros Hbelow Hlt HP Hx Hpv Hcmp Hx' Hpv' Hother [Hi Hii].
  destruct (below_parent k p Hbelow Hlt) as [Hbelow' Hk].
  assert (1 <= p) as Hp1 by lia.
  pose proof (parent_pos_lt p Hp1) as Hpp.
  assert (P x /\ P pv) as [HPx HPpv].
  { rewrite Forall_lookup in HP. split; by eapply HP. }
  assert (not_greater lt x pv) as Hxpv by (by apply lt_asym).
  split.
  - intros c Hc Hkc Hne a b Ha Hb.
    destruct (decide (c = p)) as [->|Hcp].
    { rewrite Hx' in Ha. rewrite Hpv' in Hb. by simplify_eq. }
    assert (c ≠ parent_pos p) as Hcpp by done.
    rewrite Hother in Ha by done.
    assert (P a) as HPa by (rewrite Forall_lookup in HP; by eapply HP).
    destruct (decide (parent_pos c = p)) as [Hpc|Hpc].
    { rewrite Hpc, Hx' in Hb. simplify_eq. by apply (Hii Hlt c). }
    destruct (decide (parent_pos c = parent_pos p)) as [Hpc'|Hpc'].
    { rewrite Hpc', Hpv' in Hb. simplify_eq.
      apply not_greater_trans with pv; try done.
      apply (Hi c Hc Hkc Hcp); [done | by rewrite Hpc']. }
    rewrite Hother in Hb by done. by apply (Hi c Hc Hkc Hcp).
  - intros Hlt' c a g Hpc Hc Ha Hg.
    destruct (below_parent k _ Hbelow' Hlt') as [_ Hk'].
    assert (1 <= parent_pos p) as Hpp1 by lia.
    pose proof (parent_pos_lt _ Hpp1) as Hppp.
    rewrite Hother in Hg by lia.
    assert (not_greater lt g pv) as Hgpv.
    { apply (Hi (parent_pos p)); [done | done | lia | done | done]. }
    assert (P g) as HPg by (rewrite Forall_lookup in HP; by eapply HP).
    destruct (decide (c = p)) as [->|Hcp].
    { rewrite Hx' in Ha. by simplify_eq. }
    pose proof (parent_pos_lt c Hc) as Hltc.
    rewrite Hother in Ha by lia.
    assert (P a) as HPa by (rewrite Forall_lookup in HP; by eapply HP).
    apply not_greater_trans with pv; try done.
    apply (Hi c Hc); [lia | done | done | by rewrite Hpc].
Qed.

(** *** One step of the hole towards the leaves *)

Lemma down_step k v v' p x w cs :
  k <= p -> v !! p = Some x -> parent_pos cs = p -> 1 <= cs -> v !! cs = Some w ->
  (forall s y, parent_pos s = p -> 1 <= s -> s ≠ cs -> v !! s = Some y -> not_greater lt w y) ->
  v' !! p = Some w -> v' !! cs = Some x ->
  (forall c, c ≠ p -> c ≠ cs -> v' !! c = v !! c) ->
  hole_inv lt k v p -> hole_inv lt k v' cs.
Proof.
  intros Hkp Hx Hpcs Hcs1 Hw Hsmallest Hw' Hx' Hother [Hi Hii].
  pose proof (parent_pos_lt cs Hcs1) as Hlt.
  split.
  - intros c Hc Hkc Hne Hpne a b Ha Hb.
    destruct (decide (c = p)) as [->|Hcp].
    { rewrite Hw' in Ha. simplify_eq.
      pose proof (parent_pos_lt (parent_pos cs) Hc) as Hpp.
      rewrite Hother in Hb by lia.
      apply (Hii ltac:(lia) cs); done. }
    rewrite Hother in Ha by done.
    destruct (decide (parent_pos c = p)) as [Hpc|Hpc].
    { rewrite Hpc, Hw' in Hb. simplify_eq. by apply (Hsmallest c). }
    rewrite Hother in Hb by done. by apply (Hi c).
  - intros Hkcs c a b Hpc Hc Ha Hb.
    pose proof (parent_pos_lt c Hc) as Hltc.
    rewrite Hpcs, Hw' in Hb. injection Hb as <-.
    rewrite Hother in Ha by lia.
    apply (Hi c Hc); [lia | lia | lia | done | by rewrite Hpc].
Qed.
(** *** The loops *)

Lemma up_inv_done k v p :
  up_inv lt k v p -> (k < p -> edge_ok lt v p) -> heap_from lt k v.
Proof.
  intros [Hi _] Hp c Hc Hk. destruct (decide (c = p)) as [->|Hne]; [|by apply Hi].
  apply Hp. pose proof (parent_pos_lt p Hc). lia.
Qed.

Lemma hole_inv_leaf k v p : length v <= child_pos p -> hole_inv lt k v p -> up_inv lt k v p.
Proof.
  intros Hleaf [Hi Hii]. split; [|done].
  intros c Hc Hk Hne. destruct (decide (parent_pos c = p)) as [Hpc|Hpc]; [|by apply Hi].
  intros x y Hx _. apply lookup_lt_Some in Hx.
  destruct (child_pos_parent_pos c Hc) as [Heq|Heq]; rewrite Hpc in Heq; lia.
Qed.

Lemma siftdown_loop_heap k fuel heap pos x :
  pos < length heap -> pos <= fuel -> Forall P (<[pos := x]> heap) -> below k pos ->
  up_inv lt k (<[pos := x]> heap) pos ->
  heap_from lt k (siftdown_loop lt fuel heap k pos x).
Proof.
  revert heap pos. induction fuel as [|fuel IH]; intros heap pos Hpos Hfuel HP Hbelow Hinv.
  { cbn [siftdown_loop]. apply (up_inv_done k _ pos Hinv). lia. }
  cbn [siftdown_loop]. case_bool_decide as Hk.
  2:{ apply (up_inv_done k _ pos Hinv). lia. }
  pose proof (parent_pos_lt pos ltac:(lia)) as Hpp.
  destruct (heap !! parent_pos pos) as [parent|] eqn:Hparent.
  2:{ apply lookup_ge_None in Hparent. lia. }
  assert (<[pos := x]> heap !! pos = Some x) as Hvx by (by apply list_lookup_insert_eq).
  assert (<[pos := x]> heap !! parent_pos pos = Some parent) as Hvp.
  { rewrite list_lookup_insert_ne by lia. done. }
  destruct (lt x parent) eqn:Hcmp.
  - assert (<[parent_pos pos := x]> (<[pos := parent]> heap) ≡ₚ <[pos := x]> heap) as Hperm.
    { apply insert_move_perm; [lia | done | done]. }
    apply IH.
    + rewrite length_insert. lia.
    + lia.
    + by rewrite Hperm.
    + by apply below_parent.
    + apply (up_step k (<[pos := x]> heap) _ pos x parent); try done.
      * rewrite list_lookup_insert_ne by lia. by apply list_lookup_insert_eq.
      * apply list_lookup_insert_eq. rewrite length_insert. lia.
      * intros c Hc1 Hc2. by rewrite !list_lookup_insert_ne.
  - apply (up_inv_done k _ pos Hinv). intros _ a b Ha Hb.
    rewrite Hvx in Ha. rewrite Hvp in Hb. by simplify_eq.
Qed.

Lemma siftup_loop_heap k fuel heap pos x heap' leaf :
  pos < length heap -> length heap <= pos + fuel -> Forall P (<[pos := x]> heap) ->
  below k pos -> hole_inv lt k (<[pos := x]> heap) pos ->
  siftup_loop lt fuel heap pos = (heap', leaf) ->
  leaf < length heap' /\ below k leaf /\ Forall P (<[leaf := x]> heap')
  /\ up_inv lt k (<[leaf := x]> heap') leaf.
Proof.
  revert heap pos. induction fuel as [|fuel IH]; intros heap pos Hpos Hfuel HP Hbelow Hinv;
    [lia |].
  cbn [siftup_loop]. case_bool_decide as Hchild.
  2:{ intros [= <- <-]. split; [done |]. split; [done |]. split; [done |].
      apply hole_inv_leaf; [rewrite length_insert; lia | done]. }
  destruct (parent_pos_child_pos pos) as [Hpl Hpr].
  assert (pos < child_pos pos) as Hlt by (unfold child_pos; lia).
  destruct (heap !! child_pos pos) as [c0|] eqn:Hc0.
  2:{ apply lookup_ge_None in Hc0. lia. }
  assert (P c0) as HPc0.
  { rewrite Forall_lookup in HP. apply (HP (child_pos pos)).
    rewrite list_lookup_insert_ne by lia. done. }
  set (cs := match heap !! (child_pos pos + 1) with
             | Some r => if negb (lt c0 r) then child_pos pos + 1 else child_pos pos
             | None => child_pos pos
             end).
  assert (exists w, heap !! cs = Some w /\ parent_pos cs = pos /\ pos < cs
                    /\ forall s y, parent_pos s = pos -> 1 <= s -> s ≠ cs ->
                                   heap !! s = Some y -> not_greater lt w y)
    as (w & Hw & Hpcs & Hltcs & Hsmallest).
  { unfold cs. destruct (heap !! (child_pos pos + 1)) as [r|] eqn:Hr.
    - assert (P r) as HPr.
      { rewrite Forall_lookup in HP. apply (HP (child_pos pos + 1)).
        rewrite list_lookup_insert_ne by lia. done. }
      destruct (lt c0 r) eqn:Hcmp; cbn [negb].
      + exists c0. repeat split; try done. intros s y Hps Hs Hne Hy.
        destruct (child_pos_parent_pos s Hs) as [Heq|Heq]; rewrite Hps in Heq; [done |].
        rewrite Heq, Hr in Hy. injection Hy as <-. by apply lt_asym.
      + exists r. repeat split; try done; [lia |]. intros s y Hps Hs Hne Hy.
        destruct (child_pos_parent_pos s Hs) as [Heq|Heq]; rewrite Hps in Heq; [|done].
        rewrite Heq, Hc0 in Hy. by injection Hy as <-.
    - exists c0. repeat split; try done. intros s y Hps Hs Hne Hy.
      destruct (child_pos_parent_pos s Hs) as [Heq|Heq]; rewrite Hps in Heq; [done |].
      rewrite Heq, Hr in Hy. done. }
  rewrite Hw. intros Hloop.
  assert (cs < length heap) as Hcslen by (by eapply lookup_lt_Some).
  assert (<[cs := x]> (<[pos := w]> heap) ≡ₚ <[pos := x]> heap) as Hperm.
  { apply insert_move_perm; [lia | done | done]. }
  apply IH in Hloop; try done.
  - by rewrite length_insert.
  - rewrite length_insert. lia.
  - by rewrite Hperm.
  - apply below_child; [by rewrite Hpcs | lia].
  - apply (down_step k (<[pos := x]> heap) _ pos x w cs); try done.
    + by apply below_le.
    + by apply list_lookup_insert_eq.
    + lia.
    + rewrite list_lookup_insert_ne by lia. done.
    + intros s y Hps Hs Hne Hy. apply (Hsmallest s y); try done.
      pose proof (parent_pos_lt s Hs). rewrite list_lookup_insert_ne in Hy by lia. done.
    + rewrite list_lookup_insert_ne by lia. by apply list_lookup_insert_eq.
    + apply list_lookup_insert_eq. by rewrite length_insert.
    + intros c Hc1 Hc2. by rewrite !list_lookup_insert_ne.
Qed.

Lemma siftup_heap k heap :
  heap_from lt (S k) heap -> Forall P heap -> heap_from lt k (_siftup lt heap k).
Proof.
  intros Hheap HP. unfold _siftup.
  destruct (heap !! k) as [x|] eqn:Hx.
  2:{ intros c Hc Hk a b Ha Hb. apply lookup_ge_None in Hx.
      apply lookup_lt_Some in Hb. lia. }
  assert (k < length heap) as Hlen by (by eapply lookup_lt_Some).
  destruct (siftup_loop lt (length heap) heap k) as [heap' leaf] eqn:Hloop.
  apply (siftup_loop_heap k _ _ _ x) in Hloop as (Hleaf & Hbelow & HP' & Hinv).
  - unfold _siftdown. rewrite list_lookup_insert_eq by done.
    apply siftdown_loop_heap; rewrite ?length_insert, ?list_insert_insert_eq; done.
  - done.
  - lia.
  - by rewrite list_insert_id.
  - constructor.
  - rewrite list_insert_id by done. split; [|lia].
    intros c Hc Hk Hne Hpne. apply Hheap; [done | lia].
Qed.

(** *** The operations of the heap *)

Lemma heapify_heap heap : Forall P heap -> heap_from lt 0 (heapify lt heap).
Proof.
  intros HP. unfold heapify.
  assert (heap_from lt (length heap / 2) heap) as Hstart.
  { intros c Hc Hk a b Ha Hb. apply lookup_lt_Some in Ha.
    pose proof (half_children (length heap)).
    destruct (child_pos_parent_pos c Hc) as [Heq|Heq]; unfold child_pos in *; lia. }
  revert Hstart HP. generalize (length heap / 2). intros n. revert heap.
  induction n as [|n IH]; intros heap Hheap HP; [done |].
  rewrite seq_S, rev_unit. cbn [foldl Nat.add].
  apply IH; [by apply siftup_heap |]. by rewrite siftup_perm.
Qed.

Lemma heappush_heap heap item :
  heap_from lt 0 heap -> Forall P heap -> P item -> heap_from lt 0 (heappush lt heap item).
Proof.
  intros Hheap HP Hitem. unfold heappush, _siftdown.
  rewrite lookup_app_r, Nat.sub_diag by done. cbn [lookup list_lookup].
  assert (<[length heap := item]> (heap ++ [item]) = heap ++ [item]) as Hid.
  { apply list_insert_id. by rewrite lookup_app_r, Nat.sub_diag. }
  apply siftdown_loop_heap.
  - rewrite length_app. simpl. lia.
  - done.
  - rewrite Hid. apply Forall_app. split; [done | by constructor].
  - apply below_0.
  - rewrite Hid. split.
    + intros c Hc _ Hne a b Ha Hb.
      pose proof (parent_pos_lt c Hc) as Hlt.
      assert (c < length heap) as Hclen.
      { apply lookup_lt_Some in Ha. rewrite length_app in Ha. simpl in Ha. lia. }
      rewrite lookup_app_l in Ha by done. rewrite lookup_app_l in Hb by lia.
      by apply (Hheap c Hc ltac:(lia)).
    + intros _ c a b Hpc Hc Ha _. apply lookup_lt_Some in Ha.
      rewrite length_app in Ha. simpl in Ha.
      destruct (child_pos_parent_pos c Hc) as [Heq|Heq]; rewrite Hpc in Heq;
        unfold child_pos in Heq; lia.
Qed.

(** The first element of a heap is not greater than any other. *)
Lemma heap_root_minimal heap r :
  heap_from lt 0 heap -> Forall P heap -> heap !! 0 = Some r ->
  Forall (not_greater lt r) heap.
Proof.
  intros Hheap HP Hr. apply Forall_lookup. intros i.
  induction i as [i IH] using lt_wf_ind. intros x Hx.
  rewrite Forall_lookup in HP.
  destruct i as [|i].
  - rewrite Hr in Hx. injection Hx as <-. apply not_greater_refl. by eapply HP.
  - pose proof (parent_pos_lt (S i) ltac:(lia)) as Hlt.
    destruct (heap !! parent_pos (S i)) as [y|] eqn:Hy.
    2:{ apply lookup_ge_None in Hy. apply lookup_lt_Some in Hx. lia. }
    apply not_greater_trans with y; eauto.
    apply (Hheap (S i)); [lia | lia | done | done].
Qed.

Lemma heappop_heap heap item heap' :
  heap_from lt 0 heap -> Forall P heap -> heappop lt heap = Some (item, heap') ->
  heap_from lt 0 heap' /\ Forall P heap' /\ Forall (not_greater lt item) heap'.
Proof.
  intros Hheap HP Hpop.
  destruct (heappop_perm lt _ _ _ Hpop) as [Hhead Hperm].
  assert (Forall P heap' /\ Forall (not_greater lt item) heap') as [HP' Hmin].
  { assert (heap !! 0 = Some item) as Hroot by (by destruct heap; simplify_eq/=).
    pose proof (heap_root_minimal heap item Hheap HP Hroot) as Hall.
    rewrite <- Hperm in HP, Hall.
    apply Forall_cons in HP as [_ HP]. by apply Forall_cons in Hall as [_ Hall]. }
  split; [|done].
  unfold heappop in Hpop. destruct (last heap) as [lastelt|] eqn:Hlast; [|done].
  apply last_Some in Hlast as [front ->]. rewrite removelast_last in Hpop.
  destruct front as [|returnitem front]; injection Hpop as <- <-.
  { intros c Hc _ a b Ha. done. }
  apply siftup_heap.
  - intros c Hc Hk a b Ha Hb.
    pose proof (parent_pos_lt c Hc) as Hlt.
    destruct c as [|c]; [lia |]. destruct (parent_pos (S c)) as [|pc] eqn:Hpc; [lia |].
    cbn in Ha, Hb.
    apply (Hheap (S c)); [lia | lia | |].
    + cbn. by apply lookup_app_l_Some.
    + rewrite Hpc. cbn. by apply lookup_app_l_Some.
  - cbn. rewrite <- Hperm in HP. apply Forall_cons in HP as [_ HP].
    rewrite <- siftup_perm. done.
Qed.

(** Popping a heap until it is empty gives all its elements, each not
    greater than the ones after it. *)
Lemma drain_sorted heap :
  heap_from lt 0 heap -> Forall P heap ->
  exists popped,
    drain lt (length heap) heap = (popped, [])
    /\ popped ≡ₚ heap
    /\ StronglySorted (not_greater lt) popped.
Proof.
  remember (length heap) as n eqn:Hn. revert heap Hn.
  induction n as [|n IH]; intros heap Hn Hheap HP.
  { destruct heap; [|done]. exists []. repeat split; [done | constructor]. }
  cbn [drain].
  destruct (heappop_is_Some lt heap) as [[item heap'] Hpop]; [by destruct heap |].
  rewrite Hpop.
  destruct (heappop_perm lt _ _ _ Hpop) as [_ Hperm].
  destruct (heappop_heap _ _ _ Hheap HP Hpop) as (Hheap' & HP' & Hmin).
  destruct (IH heap') as (popped & -> & Hperm' & Hsorted); try done.
  { apply Permutation_length in Hperm. simpl in Hperm. lia. }
  exists (item :: popped). split; [done |]. split; [by rewrite Hperm' |].
  constructor; [done |]. by rewrite Hperm'.
Qed.
End HeapqOrder.

(** ** The order of the floats *)

Lemma SFltb_key x y :
  x ≠ S754_nan -> y ≠ S754_nan -> SFltb x y = true <-> key_lt (sf_key x) (sf_key y).
Proof.
  intros Hx Hy. unfold SFltb, key_lt.
  destruct x as [sx|sx| |sx mx ex], y as [sy|sy| |sy my ey]; try done;
    try destruct sx; try destruct sy; cbn; try (split; [done | lia]); try (split; [lia | done]).
  - destruct (Z.compare_spec ex ey) as [->|?|?]; cbn.
    + change (Pos.compare_cont Eq mx my) with (Pos.compare mx my).
      destruct (Pos.compare_spec mx my) as [->|?|?]; cbn; split; (done || lia).
    + split; (done || lia).
    + split; (done || lia).
  - destruct (Z.compare_spec ex ey) as [->|?|?]; cbn.
    + change (Pos.compare_cont Eq mx my) with (Pos.compare mx my).
      destruct (Pos.compare_spec mx my) as [->|?|?]; cbn; split; (done || lia).
    + split; (done || lia).
    + split; (done || lia).
Qed.

Lemma is_number_Prim2SF f : is_number f -> Prim2SF f ≠ S754_nan.
Proof.
  unfold is_number, Prim2SF. intros ->.
  destruct (is_zero f); [done |]. destruct (is_infinity f); [done |].
  destruct (Z.frexp f) as [r exp]. destruct (shr_fexp _ _ _ _ _) as [shr e'].
  by destruct (shr_m shr).
Qed.

Lemma float_ltb_key x y :
  is_number x -> is_number y ->
  (x <? y)%float = true <-> key_lt (sf_key (Prim2SF x)) (sf_key (Prim2SF y)).
Proof.
  intros Hx Hy. rewrite ltb_spec. by apply SFltb_key; apply is_number_Prim2SF.
Qed.

Lemma float_lt_asym x y :
  is_number x -> is_number y -> (x <? y)%float = true -> (y <? x)%float = false.
Proof.
  intros Hx Hy H. apply float_ltb_key in H; [|done..].
  apply not_true_is_false. intros H'. apply float_ltb_key in H'; [|done..].
  unfold key_lt in *. lia.
Qed.

Lemma float_not_lt_trans x y z :
  is_number x -> is_number y -> is_number z ->
  (x <? y)%float = false -> (y <? z)%float = false -> (x <? z)%float = false.
Proof.
  intros Hx Hy Hz H1 H2.
  apply not_true_iff_false in H1, H2. rewrite float_ltb_key in H1, H2 by done.
  apply not_true_is_false. intros H3. apply float_ltb_key in H3; [|done..].
  unfold key_lt in *. lia.
Qed.

(** For numbers, "not smaller" is "greater or equal". *)
Lemma float_not_lt_leb x y :
  is_number x -> is_number y -> (x <? y)%float = false -> (y <=? x)%float = true.
Proof.
  intros Hx%is_number_Prim2SF Hy%is_number_Prim2SF. rewrite ltb_spec, leb_spec.
  unfold SFltb, SFleb.
  destruct (Prim2SF x) as [sx|sx| |sx mx ex], (Prim2SF y) as [sy|sy| |sy my ey]; try done;
    try destruct sx; try destruct sy; cbn; try done.
  - rewrite (Z.compare_antisym ex ey).
    change (Pos.compare_cont Eq my mx) with (Pos.compare my mx).
    change (Pos.compare_cont Eq mx my) with (Pos.compare mx my).
    rewrite (Pos.compare_antisym mx my).
    by destruct (ex ?= ey), (Pos.compare mx my).
  - rewrite (Z.compare_antisym ex ey).
    change (Pos.compare_cont Eq my mx) with (Pos.compare my mx).
    change (Pos.compare_cont Eq mx my) with (Pos.compare mx my).
    rewrite (Pos.compare_antisym mx my).
    by destruct (ex ?= ey), (Pos.compare mx my).
Qed.

(** ** Popping the ranking *)

Lemma StronglySorted_weaken_on {A : Type} (P : A -> Prop) (R R' : A -> A -> Prop) (l : list A) :
  (forall a b, P a -> P b -> R a b -> R' a b) ->
  Forall P l -> StronglySorted R l -> StronglySorted R' l.
Proof.
  intros HR HP. induction 1 as [|a l Hl IH Ha]; constructor.
  - apply IH. by apply Forall_cons in HP as [_ ?].
  - apply Forall_cons in HP as [HPa HPl].
    rewrite Forall_forall in Ha, HPl. apply Forall_forall. intros b Hb. apply HR; auto.
Qed.

Lemma edge_lt_asym a b :
  is_number (value a) -> is_number (value b) -> edge_lt a b = true -> edge_lt b a = false.
Proof. unfold edge_lt. intros. by apply float_lt_asym. Qed.

Lemma edge_not_greater_trans a b d :
  is_number (value a) -> is_number (value b) -> is_number (value d) ->
  not_greater edge_lt a b -> not_greater edge_lt b d -> not_greater edge_lt a d.
Proof. unfold not_greater, edge_lt. intros. by apply float_not_lt_trans with (value b). Qed.

(** Popping with [get_max_element] is popping the [heapq] list. *)
Lemma pop_all_drain fuel heap : pop_all fuel heap = drain edge_lt fuel heap.
Proof.
  revert heap. induction fuel as [|fuel IH]; intros heap; [done |].
  cbn [pop_all drain]. unfold get_max_element.
  destruct (heappop edge_lt heap) as [[e heap']|]; [|done]. by rewrite IH.
Qed.

(** C5, as amended: after [determine_edge_badness(routes)] has rebuilt the
    ranking from the edges of the given routes, and when none of their
    values is a NaN, calling [get_max_element] until the ranking is empty
    ([pop_all]) returns each of these edges once and empties the ranking
    after as many calls as there are edges; the edges come in
    non-increasing order of [value]: every edge popped has a value at
    least as large as every edge popped after it. *)
Theorem edge_ranking_pops_by_value sol self routes self' heap :
  determine_edge_badness sol self routes = Some self' ->
  _edge_ranking self' = Some heap ->
  Forall (fun e => is_number (value e)) heap ->
  exists edges popped,
    Forall2 (scored sol self) (route_edges sol routes) edges
    /\ heap ≡ₚ edges
    /\ pop_all (length heap) heap = (popped, [])
    /\ popped ≡ₚ heap
    /\ StronglySorted (fun a b => (value b <=? value a)%float = true) popped.
Proof.
  intros Hcall Hheap HP. unfold determine_edge_badness in Hcall.
  apply bind_Some_inv in Hcall as ([penalties edges] & Hfold & Hcall).
  injection Hcall as <-. simpl in Hheap. injection Hheap as <-.
  destruct (score_routes_spec sol self routes (_edge_penalties self) []) as [Hfwd _];
    [done |].
  destruct (Hfwd _ _ Hfold) as (_ & new & Hnew & ->). simpl in *.
  pose proof (heapify_perm edge_lt new) as Hperm.
  assert (Forall (fun e => is_number (value e)) new) as HPnew.
  { by rewrite <- Hperm. }
  destruct (drain_sorted edge_lt (fun e => is_number (value e)) edge_lt_asym
              edge_not_greater_trans (heapify edge_lt new))
    as (popped & Hdrain & Hpopped & Hsorted); [|done |].
  { apply (heapify_heap edge_lt (fun e => is_number (value e)));
      [exact edge_lt_asym | exact edge_not_greater_trans | done]. }
  exists new, popped. split; [done |]. split; [done |].
  split; [by rewrite pop_all_drain |]. split; [done |].
  eapply (StronglySorted_weaken_on (fun e => is_number (value e))); [| |exact Hsorted].
  - intros a b Ha Hb Hab. by apply float_not_lt_leb.
  - by rewrite Hpopped.
Qed.

(* ===================================================================== *)
(** * Penalized costs: symmetric and never below the costs                *)
(* ===================================================================== *)

(** ** Rounding to binary64 from below *)

Lemma digits2_pos_bounds m :
  2 ^ (Zpos (digits2_pos m) - 1) <= Zpos m < 2 ^ Zpos (digits2_pos m).
Proof.
  induction m as [m IH | m IH |]; cbn [digits2_pos].
  - rewrite Pos2Z.inj_succ, Z.pow_succ_r by lia.
    replace (Z.succ (Zpos (digits2_pos m)) - 1) with (Z.succ (Zpos (digits2_pos m) - 1)) by lia.
    rewrite Z.pow_succ_r by lia. lia.
  - rewrite Pos2Z.inj_succ, Z.pow_succ_r by lia.
    replace (Z.succ (Zpos (digits2_pos m)) - 1) with (Z.succ (Zpos (digits2_pos m) - 1)) by lia.
    rewrite Z.pow_succ_r by lia. lia.
  - cbn. lia.
Qed.

Lemma Zdigits2_bounds z : 0 < z -> 2 ^ (Zdigits2 z - 1) <= z < 2 ^ Zdigits2 z.
Proof. destruct z; try lia. intros _. apply digits2_pos_bounds. Qed.

Lemma Zdigits2_nonneg z : 0 <= Zdigits2 z.
Proof. destruct z; cbn; lia. Qed.

Lemma Zdigits2_unique z d : 2 ^ (d - 1) <= z < 2 ^ d -> 0 < z -> Zdigits2 z = d.
Proof.
  intros [Hl Hu] Hz. pose proof (Zdigits2_bounds z Hz) as [Hl' Hu'].
  pose proof (Zdigits2_nonneg z).
  destruct (Z.lt_trichotomy (Zdigits2 z) d) as [Hlt | [-> | Hgt]]; [| done |].
  - assert (2 ^ Zdigits2 z <= 2 ^ (d - 1)) by (apply Z.pow_le_mono_r; lia). lia.
  - assert (0 <= d) by (destruct (Z.le_gt_cases 0 d); [done |]; rewrite Z.pow_neg_r in Hu; lia).
    assert (2 ^ d <= 2 ^ (Zdigits2 z - 1)) by (apply Z.pow_le_mono_r; lia). lia.
Qed.

Lemma shr_1_m s : 0 <= shr_m s -> shr_m (shr_1 s) = shr_m s / 2.
Proof.
  destruct s as [m r s]. cbn [shr_m]. intros Hm.
  destruct m as [| [p | p |] |]; cbn [shr_1 shr_m]; try lia; try done.
  - apply Z.div_unique with 1; lia.
  - apply Z.div_unique with 0; lia.
Qed.

Lemma shr_iter_m p : forall s, 0 <= shr_m s -> shr_m (SpecFloat.iter_pos shr_1 p s) = shr_m s / 2 ^ Zpos p.
Proof.
  assert (Hnn : forall s, 0 <= shr_m s -> 0 <= shr_m (shr_1 s)).
  { intros s Hs. rewrite shr_1_m by done. apply Z.div_pos; lia. }
  induction p as [p IH | p IH |]; intros s Hs; cbn [SpecFloat.iter_pos].
  - assert (0 <= shr_m (SpecFloat.iter_pos shr_1 p (shr_1 s))).
    { rewrite IH by auto. apply Z.div_pos; [auto | lia]. }
    rewrite !IH, shr_1_m by auto.
    rewrite !Z.div_div by lia. f_equal.
    replace (Z.pos p~1) with (1 + Z.pos p + Z.pos p) by lia.
    rewrite !Z.pow_add_r by lia. change (2 ^ 1) with 2. ring.
  - assert (0 <= shr_m (SpecFloat.iter_pos shr_1 p s)).
    { rewrite IH by auto. apply Z.div_pos; [auto | lia]. }
    rewrite !IH by auto.
    rewrite !Z.div_div by lia. f_equal.
    replace (Z.pos p~0) with (Z.pos p + Z.pos p) by lia.
    rewrite !Z.pow_add_r by lia. ring.
  - rewrite shr_1_m by done. done.
Qed.

Lemma shr_record_of_loc_m m l : shr_m (shr_record_of_loc m l) = m.
Proof. by destruct l as [| []]. Qed.

Lemma shr_fexp_m m e l mrs e' :
  0 <= m -> shr_fexp prec emax m e l = (mrs, e') ->
  e' = Z.max e (fexp prec emax (Zdigits2 m + e)) /\ shr_m mrs = m / 2 ^ (e' - e).
Proof.
  intros Hm. unfold shr_fexp, shr.
  destruct (fexp prec emax (Zdigits2 m + e) - e) as [| p | p] eqn:Hn; intros [= <- <-].
  - split; [lia |]. rewrite Z.sub_diag, Z.div_1_r. apply shr_record_of_loc_m.
  - split; [lia |]. rewrite shr_iter_m by (rewrite shr_record_of_loc_m; done).
    rewrite shr_record_of_loc_m. f_equal. f_equal. lia.
  - split; [lia |]. rewrite Z.sub_diag, Z.div_1_r. apply shr_record_of_loc_m.
Qed.

Lemma fexp_eq d : fexp prec emax d = Z.max (d - 53) (-1074).
Proof. reflexivity. Qed.

Lemma canonical_mantissa_eq m e :
  canonical_mantissa prec emax m e = true <-> e = Z.max (Zpos (digits2_pos m) + e - 53) (-1074).
Proof. unfold canonical_mantissa. rewrite Z.eqb_eq, fexp_eq. split; intros H; [symmetry; exact H | symmetry; exact H]. Qed.

Lemma scaled_shift m e k : 0 <= k -> -1074 <= e -> scaled (m * 2 ^ k) e = scaled m (e + k).
Proof.
  intros Hk He. unfold scaled.
  replace (e + k + 1074) with (k + (e + 1074)) by lia.
  rewrite (Z.pow_add_r 2 k (e + 1074)) by lia. ring.
Qed.

Lemma scaled_le_mono m m' e : m <= m' -> scaled m e <= scaled m' e.
Proof. intros H. unfold scaled. apply Z.mul_le_mono_nonneg_r; [apply Z.pow_nonneg; lia | done]. Qed.

Lemma scaled_pos_inv m e : 0 < scaled m e -> 0 < m.
Proof.
  unfold scaled. intros H. pose proof (Z.pow_nonneg 2 (e + 1074)). nia.
Qed.

Lemma scaled_pos m e : 0 < m -> -1074 <= e -> 0 < scaled m e.
Proof. intros. unfold scaled. apply Z.mul_pos_pos; [done |]. apply Z.pow_pos_nonneg; lia. Qed.

Lemma shr_fexp_lower M eM m e l mrs e' :
  canonical_mantissa prec emax M eM = true ->
  -1074 <= e -> 0 <= m ->
  scaled (Zpos M) eM <= scaled m e ->
  shr_fexp prec emax m e l = (mrs, e') ->
  -1074 <= e' /\ scaled (Zpos M) eM <= scaled (shr_m mrs) e'.
Proof.
  intros HM He Hm Hle Hshr.
  apply canonical_mantissa_eq in HM.
  destruct (shr_fexp_m _ _ _ _ _ Hm Hshr) as [He' Hmrs]. rewrite Hmrs. clear Hshr Hmrs.
  rewrite fexp_eq in He'.
  assert (0 < m) as Hm'.
  { apply (scaled_pos_inv m e). pose proof (scaled_pos (Zpos M) eM). lia. }
  split; [lia |].
  destruct (Z.eq_dec e' e) as [-> | Hne].
  { by rewrite Z.sub_diag, Z.div_1_r. }
  assert (e < e') by lia.
  destruct (Z.le_gt_cases e' eM) as [Hc | Hc].
  - replace eM with (e' + (eM - e')) by lia.
    rewrite <- scaled_shift by lia. apply scaled_le_mono.
    apply Z.div_le_lower_bound; [apply Z.pow_pos_nonneg; lia |].
    apply (Z.mul_le_mono_pos_r _ _ (2 ^ (e + 1074))); [apply Z.pow_pos_nonneg; lia |].
    etrans; [| exact Hle]. unfold scaled.
    assert (2 ^ (eM + 1074) = 2 ^ (e' - e) * 2 ^ (eM - e') * 2 ^ (e + 1074)) as ->.
    { rewrite <- !Z.pow_add_r by lia. f_equal. lia. }
    apply Z.eq_le_incl. ring.
  - pose proof (Zdigits2_bounds m Hm') as [Hd _].
    pose proof (digits2_pos_bounds M) as [_ HdM].
    set (d := Zdigits2 m) in *. set (dM := Zpos (digits2_pos M)) in *.
    assert (e' - e = d - 53) as -> by lia.
    assert (2 ^ 52 <= m / 2 ^ (d - 53)).
    { apply Z.div_le_lower_bound; [apply Z.pow_pos_nonneg; lia |].
      rewrite <- Z.pow_add_r by lia. by replace (d - 53 + 52) with (d - 1) by lia. }
    etrans; [| apply scaled_le_mono; eassumption].
    unfold scaled. rewrite <- Z.pow_add_r by lia.
    etrans; [apply Z.mul_le_mono_nonneg_r; [apply Z.pow_nonneg; lia | apply Z.lt_le_incl, HdM] |].
    rewrite <- Z.pow_add_r by lia. apply Z.pow_le_mono_r; lia.
Qed.

Lemma round_nearest_even_ge m l : m <= round_nearest_even m l.
Proof. destruct l as [| []]; cbn; try lia. destruct (Z.even m); lia. Qed.

(** What [binary_round_aux] gives for an input that is at least a
    binary64: that float or a larger one. *)
Lemma binary_round_aux_lower M eM s m e l :
  canonical_mantissa prec emax M eM = true ->
  -1074 <= e -> 0 <= m ->
  scaled (Zpos M) eM <= scaled m e ->
  binary_round_aux prec emax s m e l = S754_infinity s \/
  exists m' e', binary_round_aux prec emax s m e l = S754_finite s m' e' /\
                scaled (Zpos M) eM <= scaled (Zpos m') e'.
Proof.
  intros HM He Hm Hle. unfold binary_round_aux.
  destruct (shr_fexp prec emax m e l) as [mrs1 e1] eqn:H1.
  destruct (shr_fexp_lower _ _ _ _ _ _ _ HM He Hm Hle H1) as [He1 Hle1].
  set (m2 := round_nearest_even (shr_m mrs1) (loc_of_shr_record mrs1)).
  assert (shr_m mrs1 <= m2) as Hrne by apply round_nearest_even_ge.
  assert (0 < shr_m mrs1).
  { apply (scaled_pos_inv _ e1). pose proof (scaled_pos (Zpos M) eM).
    pose proof (proj1 (canonical_mantissa_eq _ _) HM). lia. }
  destruct (shr_fexp prec emax m2 e1 loc_Exact) as [mrs2 e2] eqn:H2.
  assert (scaled (Zpos M) eM <= scaled m2 e1) as Hle2.
  { etrans; [exact Hle1 |]. by apply scaled_le_mono. }
  assert (0 <= m2) as Hm2 by lia.
  destruct (shr_fexp_lower _ _ _ _ _ _ _ HM He1 Hm2 Hle2 H2) as [He2 Hle3].
  assert (0 < shr_m mrs2).
  { apply (scaled_pos_inv _ e2). pose proof (scaled_pos (Zpos M) eM).
    pose proof (proj1 (canonical_mantissa_eq _ _) HM). lia. }
  destruct (shr_m mrs2) as [| m' |]; try lia.
  destruct (e2 <=? emax - prec); [right; eauto | by left].
Qed.

Lemma pos_iter_xO m d : Zpos (Pos.iter xO m d) = Zpos m * 2 ^ Zpos d.
Proof.
  revert m. induction d as [| d IH] using Pos.peano_ind; intros m.
  - cbn. lia.
  - rewrite Pos.iter_succ, Pos2Z.inj_xO, IH, Pos2Z.inj_succ, Z.pow_succ_r by lia. lia.
Qed.

Lemma shl_align_scaled m e e' mz ez :
  -1074 <= e' -> -1074 <= e ->
  shl_align m e e' = (mz, ez) ->
  -1074 <= ez /\ scaled (Zpos mz) ez = scaled (Zpos m) e.
Proof.
  intros He' He. unfold shl_align.
  destruct (e' - e) as [| d | d] eqn:Hd; intros [= <- <-]; try done.
  rewrite pos_iter_xO. split; [done |].
  rewrite scaled_shift by lia. f_equal. lia.
Qed.

Lemma binary_round_lower M eM s m e :
  canonical_mantissa prec emax M eM = true ->
  -1074 <= e ->
  scaled (Zpos M) eM <= scaled (Zpos m) e ->
  binary_round prec emax s m e = S754_infinity s \/
  exists m' e', binary_round prec emax s m e = S754_finite s m' e' /\
                scaled (Zpos M) eM <= scaled (Zpos m') e'.
Proof.
  intros HM He Hle. unfold binary_round.
  destruct (shl_align m e _) as [mz ez] eqn:Hal.
  apply shl_align_scaled in Hal as [Hez Heq]; [| rewrite fexp_eq; lia | done].
  apply binary_round_aux_lower; [done | done | lia | by rewrite Heq].
Qed.

Lemma Zdigits2_mono a b : 0 < a -> a <= b -> Zdigits2 a <= Zdigits2 b.
Proof.
  intros Ha Hab.
  pose proof (Zdigits2_bounds a Ha) as [Hl _].
  pose proof (Zdigits2_bounds b ltac:(lia)) as [_ Hu].
  destruct (Z.le_gt_cases (Zdigits2 a) (Zdigits2 b)) as [| Hlt]; [done |].
  pose proof (Zdigits2_nonneg b).
  assert (2 ^ Zdigits2 b <= 2 ^ (Zdigits2 a - 1)) by (apply Z.pow_le_mono_r; lia). lia.
Qed.

(** After [shr_fexp] on an input that is not below its format exponent,
    the mantissa is zero at the least exponent, or it is canonical. *)
Lemma shr_fexp_canonical m e l mrs e' :
  0 <= m -> e <= fexp prec emax (Zdigits2 m + e) ->
  shr_fexp prec emax m e l = (mrs, e') ->
  (shr_m mrs = 0 /\ e' = -1074) \/
  (0 < shr_m mrs /\ fexp prec emax (Zdigits2 (shr_m mrs) + e') = e').
Proof.
  intros Hm He Hshr.
  destruct (shr_fexp_m _ _ _ _ _ Hm Hshr) as [He' Hmrs]. rewrite Hmrs. clear Hshr Hmrs.
  rewrite fexp_eq in *.
  destruct (Z.eq_dec m 0) as [-> | Hm0].
  { left. cbn [Zdigits2] in *. split; [apply Z.div_0_l | lia].
    apply Z.pow_nonzero; lia. }
  pose proof (Zdigits2_bounds m ltac:(lia)) as [Hl Hu].
  set (d := Zdigits2 m) in *.
  assert (0 < d) by (destruct m; cbn in *; lia).
  set (n := e' - e). assert (0 <= n) by lia.
  destruct (Z.le_gt_cases d n) as [Hdn | Hdn].
  - left. split; [| lia]. apply Z.div_small. split; [lia |].
    assert (2 ^ d <= 2 ^ n) by (apply Z.pow_le_mono_r; lia). lia.
  - right.
    assert (2 ^ (d - n - 1) <= m / 2 ^ n).
    { apply Z.div_le_lower_bound; [apply Z.pow_pos_nonneg; lia |].
      rewrite <- Z.pow_add_r by lia. by replace (n + (d - n - 1)) with (d - 1) by lia. }
    assert (m / 2 ^ n < 2 ^ (d - n)).
    { apply Z.div_lt_upper_bound; [apply Z.pow_pos_nonneg; lia |].
      rewrite <- Z.pow_add_r by lia. by replace (n + (d - n)) with d by lia. }
    assert (0 < 2 ^ (d - n - 1)) by (apply Z.pow_pos_nonneg; lia).
    split; [lia |].
    rewrite (Zdigits2_unique (m / 2 ^ n) (d - n)) by (try split; (done || lia)).
    lia.
Qed.

Lemma binary_round_aux_valid s m e l :
  0 <= m -> e <= fexp prec emax (Zdigits2 m + e) ->
  valid_binary (binary_round_aux prec emax s m e l) = true.
Proof.
  intros Hm He. unfold binary_round_aux.
  destruct (shr_fexp prec emax m e l) as [mrs1 e1] eqn:H1.
  assert (0 <= shr_m mrs1) as Hm1.
  { destruct (shr_fexp_m _ _ _ _ _ Hm H1) as [_ ->]. apply Z.div_pos; [done |].
    apply Z.pow_pos_nonneg; [lia |]. destruct (shr_fexp_m _ _ _ _ _ Hm H1) as [-> _]. lia. }
  apply shr_fexp_canonical in H1; [| done | done].
  set (m2 := round_nearest_even (shr_m mrs1) (loc_of_shr_record mrs1)).
  assert (shr_m mrs1 <= m2) as Hrne by apply round_nearest_even_ge.
  destruct (shr_fexp prec emax m2 e1 loc_Exact) as [mrs2 e2] eqn:H2.
  apply shr_fexp_canonical in H2; [| lia |]; cycle 1.
  { rewrite fexp_eq in *. destruct H1 as [[_ ->] | [Hpos Hcan]]; [lia |].
    pose proof (Zdigits2_mono _ _ Hpos Hrne). lia. }
  destruct H2 as [[-> _] | [Hpos Hcan]]; [done |].
  destruct (shr_m mrs2) as [| p |]; try done.
  destruct (e2 <=? emax - prec) eqn:Hb; [| done].
  unfold valid_binary, SpecFloat.valid_binary, bounded, canonical_mantissa.
  cbn [Zdigits2] in Hcan. rewrite Hcan, Z.eqb_refl. done.
Qed.

Lemma binary_round_valid s m e :
  valid_binary (binary_round prec emax s m e) = true.
Proof.
  unfold binary_round, shl_align.
  set (e' := fexp prec emax (Zpos (digits2_pos m) + e)).
  destruct (e' - e) as [| d | d] eqn:Hd.
  - apply binary_round_aux_valid; [lia |]. cbn [Zdigits2]. fold e'. lia.
  - apply binary_round_aux_valid; [lia |]. cbn [Zdigits2]. fold e'. lia.
  - apply binary_round_aux_valid; [lia |].
    pose proof (digits2_pos_bounds m) as [Hl Hu].
    rewrite (Zdigits2_unique _ (Zpos (digits2_pos m) + Zpos d)).
    + replace (Zpos (digits2_pos m) + Zpos d + e') with (Zpos (digits2_pos m) + e) by lia.
      fold e'. lia.
    + rewrite pos_iter_xO.
      replace (Zpos (digits2_pos m) + Zpos d - 1) with (Zpos (digits2_pos m) - 1 + Zpos d) by lia.
      rewrite !Z.pow_add_r by lia.
      pose proof (Z.pow_pos_nonneg 2 (Zpos d)). nia.
    + lia.
Qed.

Lemma binary_normalize_valid m e sz :
  valid_binary (binary_normalize prec emax m e sz) = true.
Proof. destruct m; [done | apply binary_round_valid ..]. Qed.

(** ** Python's float operations *)

Lemma is_infinity_spec f :
  is_infinity f = true <-> exists s, Prim2SF f = S754_infinity s.
Proof.
  unfold is_infinity. rewrite FloatAxioms.eqb_spec, abs_spec.
  change (Prim2SF infinity) with (S754_infinity false).
  destruct (Prim2SF f) as [s | s | | s m e]; cbn; split; try done; eauto.
  - by intros [? ?].
  - by intros [? ?].
  - by intros [? ?].
Qed.

Lemma py_float_of_int_Some z f :
  py_float_of_int z = Some f ->
  Prim2SF f = binary_normalize prec emax z 0 false /\ forall s, Prim2SF f <> S754_infinity s.
Proof.
  unfold py_float_of_int. destruct (is_infinity _) eqn:Hinf; [done |]. intros [= <-].
  assert (Prim2SF (SF2Prim (binary_normalize prec emax z 0 false))
          = binary_normalize prec emax z 0 false) as Heq.
  { apply Prim2SF_SF2Prim, binary_normalize_valid. }
  split; [done |]. intros s Hs.
  assert (is_infinity (SF2Prim (binary_normalize prec emax z 0 false)) = true)
    by (apply is_infinity_spec; eauto).
  congruence.
Qed.

Lemma binary_round_aux_not_negative m e l :
  sf_not_negative (binary_round_aux prec emax false m e l).
Proof.
  unfold binary_round_aux.
  destruct (shr_fexp prec emax m e l) as [mrs1 e1].
  destruct (shr_fexp prec emax _ e1 loc_Exact) as [mrs2 e2].
  destruct (shr_m mrs2); [done | | done]. by destruct (e2 <=? emax - prec).
Qed.

Lemma binary_normalize_not_negative z e :
  0 <= z -> sf_not_negative (binary_normalize prec emax z e false).
Proof.
  destruct z as [| p | p]; [done | | lia]. intros _. cbn [binary_normalize].
  unfold binary_round. destruct (shl_align p e _) as [mz ez].
  apply binary_round_aux_not_negative.
Qed.

Lemma SFmul_not_negative x y :
  sf_not_negative x -> sf_not_negative y -> sf_not_negative (SFmul prec emax x y).
Proof.
  destruct x as [sx | [] | | [] mx ex], y as [sy | [] | | [] my ey]; try done.
  intros _ _. apply binary_round_aux_not_negative.
Qed.

Lemma SFsqrt_not_negative x : sf_not_negative (SFsqrt prec emax x).
Proof.
  destruct x as [s | [] | | [] m e]; try done. cbn [SFsqrt].
  destruct (SFsqrt_core_binary prec emax (Zpos m) e) as [[mz ez] lz].
  apply binary_round_aux_not_negative.
Qed.

Lemma valid_finite_emin s m e :
  valid_binary (S754_finite s m e) = true ->
  canonical_mantissa prec emax m e = true /\ -1074 <= e.
Proof.
  unfold valid_binary, SpecFloat.valid_binary, bounded. intros [H _]%andb_prop.
  split; [done |]. apply canonical_mantissa_eq in H. lia.
Qed.

Lemma shl_align_down m e ez :
  -1074 <= ez -> ez <= e ->
  scaled (Zpos (shl_align m e ez).1) ez = scaled (Zpos m) e.
Proof.
  intros Hez He. destruct (shl_align m e ez) as [mz ez'] eqn:Hal.
  pose proof Hal as Hal'. unfold shl_align in Hal'.
  apply shl_align_scaled in Hal as [_ <-]; [| lia | lia]. cbn [fst].
  destruct (ez - e) eqn:Hd; injection Hal' as <- <-; try lia; f_equal; lia.
Qed.

(** Adding a float that is not negative to a positive float gives at least
    that float. *)
Lemma SFadd_lower M eM mx ex y :
  canonical_mantissa prec emax M eM = true ->
  -1074 <= ex -> valid_binary y = true -> sf_not_negative y ->
  scaled (Zpos M) eM <= scaled (Zpos mx) ex ->
  let r := SFadd prec emax (S754_finite false mx ex) y in
  r = S754_nan \/ r = S754_infinity false \/
  exists m e, r = S754_finite false m e /\ -1074 <= e /\ scaled (Zpos M) eM <= scaled (Zpos m) e.
Proof.
  intros HM Hex Hy Hnn Hle.
  destruct y as [sy | [] | | [] my ey]; try done; cbn [SFadd]; eauto 10.
  apply valid_finite_emin in Hy as [_ Hey].
  set (ez := Z.min ex ey).
  pose proof (shl_align_down mx ex ez ltac:(lia) ltac:(lia)) as Ha.
  destruct (shl_align mx ex ez) as [a ea]. destruct (shl_align my ey ez) as [b eb].
  cbn [fst cond_Zopp Z.add binary_normalize] in *.
  destruct (binary_round_lower M eM false (a + b) ez HM ltac:(lia)) as [Heq | (m & e & Heq & Hb)].
  - etrans; [exact Hle |]. rewrite <- Ha. apply scaled_le_mono. lia.
  - auto.
  - right; right. exists m, e. split; [done |]. split; [| done].
    pose proof (binary_round_valid false (a + b) ez) as Hv.
    rewrite Heq in Hv. by apply valid_finite_emin in Hv as [_ ?].
Qed.

Lemma round_half_even_shift_ge m k : m / 2 ^ Zpos k <= round_half_even_shift m k.
Proof.
  unfold round_half_even_shift. cbv zeta.
  repeat match goal with |- context [if ?b then _ else _] => destruct b end; lia.
Qed.

Lemma round_half_even_shift_le m k : round_half_even_shift m k <= m / 2 ^ Zpos k + 1.
Proof.
  unfold round_half_even_shift. cbv zeta.
  repeat match goal with |- context [if ?b then _ else _] => destruct b end; lia.
Qed.

(** [round] of a float that is at least the integer [c] is at least [c]. *)
Lemma py_round_lower f m e c v :
  Prim2SF f = S754_finite false m e -> -1074 <= e ->
  c * 2 ^ 1074 <= scaled (Zpos m) e ->
  py_round f = Some v -> c <= v.
Proof.
  intros Hf He Hle. unfold py_round. rewrite Hf. intros [= <-].
  unfold scaled in Hle.
  assert (0 < 2 ^ 1074) as H0 by (apply Z.pow_pos_nonneg; lia).
  destruct e as [| p | p].
  - apply (Z.mul_le_mono_pos_r _ _ (2 ^ 1074)); done.
  - apply (Z.mul_le_mono_pos_r _ _ (2 ^ 1074)); [done |].
    rewrite (Z.pow_add_r 2 (Zpos p) 1074) in Hle by lia. lia.
  - etrans; [| apply round_half_even_shift_ge].
    apply Z.div_le_lower_bound; [apply Z.pow_pos_nonneg; lia |].
    apply (Z.mul_le_mono_pos_r _ _ (2 ^ (Zneg p + 1074))); [apply Z.pow_pos_nonneg; lia |].
    etrans; [| exact Hle]. apply Z.eq_le_incl.
    replace 1074 with (Zpos p + (Zneg p + 1074)) at 2 by lia.
    rewrite (Z.pow_add_r 2 (Zpos p) (Zneg p + 1074)) by lia. ring.
Qed.

Lemma py_round_not_negative f v :
  sf_not_negative (Prim2SF f) -> py_round f = Some v -> 0 <= v.
Proof.
  unfold py_round. destruct (Prim2SF f) as [s | s | | [] m e]; try done; intros _ [= <-]; [lia |].
  destruct e as [| p | p]; [lia | |].
  - pose proof (Z.pow_nonneg 2 (Zpos p)). nia.
  - etrans; [| apply round_half_even_shift_ge]. apply Z.div_pos; [lia |].
    apply Z.pow_pos_nonneg; lia.
Qed.

Lemma SFadd_zero_not_negative y :
  sf_not_negative y -> sf_not_negative (SFadd prec emax (S754_zero false) y).
Proof. by destruct y as [[] | [] | | [] m e]. Qed.

Lemma py_float_of_int_not_negative z f :
  0 <= z -> py_float_of_int z = Some f -> sf_not_negative (Prim2SF f).
Proof.
  intros Hz [-> _]%py_float_of_int_Some. by apply binary_normalize_not_negative.
Qed.

(** The float of a positive representable integer is that integer. *)
Lemma py_float_of_int_lower c M eM f :
  canonical_mantissa prec emax M eM = true -> c * 2 ^ 1074 = scaled (Zpos M) eM ->
  py_float_of_int c = Some f ->
  exists m e, Prim2SF f = S754_finite false m e /\ scaled (Zpos M) eM <= scaled (Zpos m) e.
Proof.
  intros HM Hc [Hf Hinf]%py_float_of_int_Some.
  assert (0 < c) as Hpos.
  { pose proof (scaled_pos (Zpos M) eM ltac:(lia)) as Hs.
    apply canonical_mantissa_eq in HM.
    assert (0 < 2 ^ 1074) by (apply Z.pow_pos_nonneg; lia). nia. }
  destruct c as [| p | p]; try lia. cbn [binary_normalize] in Hf.
  destruct (binary_round_lower M eM false p 0 HM ltac:(lia)) as [Heq | (m & e & Heq & Hb)].
  - rewrite <- Hc. unfold scaled. by rewrite Z.add_0_l.
  - rewrite Heq in Hf. by destruct (Hinf false).
  - exists m, e. by rewrite Hf, Heq.
Qed.

(** A penalized cost is never below the cost it is computed from. *)
Lemma penalization_costs_ge c b p pc :
  representable c -> 0 <= b -> 0 <= p ->
  penalization_costs c b p = Some pc -> c <= pc.
Proof.
  intros Hc Hb Hp. unfold penalization_costs. intros H.
  apply bind_Some_inv in H as (fc & Hfc & H).
  apply bind_Some_inv in H as (fb & Hfb & H).
  apply bind_Some_inv in H as (fp & Hfp & H).
  set (t := (0.1 * fb * fp)%float) in *.
  assert (sf_not_negative (Prim2SF t)) as Ht.
  { unfold t. rewrite !mul_spec. apply SFmul_not_negative; [apply SFmul_not_negative |].
    - by vm_compute.
    - exact (py_float_of_int_not_negative _ _ Hb Hfb).
    - exact (py_float_of_int_not_negative _ _ Hp Hfp). }
  destruct Hc as [-> | (M & eM & HM & Hc)].
  - eapply py_round_not_negative; [| exact H]. rewrite add_spec.
    apply py_float_of_int_Some in Hfc as [-> _]. cbn [binary_normalize].
    by apply SFadd_zero_not_negative.
  - destruct (py_float_of_int_lower _ _ _ _ HM Hc Hfc) as (m & e & Hfc' & Hle).
    pose proof (Prim2SF_valid fc) as Hv. rewrite Hfc' in Hv.
    apply valid_finite_emin in Hv as [_ He].
    pose proof (SFadd_lower M eM m e (Prim2SF t) HM He (Prim2SF_valid t) Ht Hle) as Hadd.
    cbv zeta in Hadd. rewrite <- Hfc' in Hadd. fold SF64add in Hadd. rewrite <- add_spec in Hadd.
    destruct Hadd as [Hr | [Hr | (m' & e' & Hr & He' & Hle')]].
    + unfold py_round in H. by rewrite Hr in H.
    + unfold py_round in H. by rewrite Hr in H.
    + eapply py_round_lower; [exact Hr | done | | exact H]. by rewrite Hc.
Qed.

Lemma small_representable v : 0 <= v < 2 ^ 53 -> representable v.
Proof.
  intros [Hv Hu]. destruct (Z.eq_dec v 0) as [-> | Hne]; [by left |]. right.
  pose proof (Zdigits2_bounds v ltac:(lia)) as [Hl Hu'].
  set (d := Zdigits2 v) in *.
  assert (0 < d) by (destruct v; cbn in *; lia).
  assert (d <= 53).
  { destruct (Z.le_gt_cases d 53) as [| Hgt]; [done |].
    assert (2 ^ 53 <= 2 ^ (d - 1)) by (apply Z.pow_le_mono_r; lia). lia. }
  assert (0 < 2 ^ (53 - d)) by (apply Z.pow_pos_nonneg; lia).
  exists (Z.to_pos (v * 2 ^ (53 - d))), (d - 53).
  assert (Zpos (Z.to_pos (v * 2 ^ (53 - d))) = v * 2 ^ (53 - d)) as HM by (apply Z2Pos.id; nia).
  split.
  - apply canonical_mantissa_eq.
    change (Zpos (digits2_pos ?p)) with (Zdigits2 (Zpos p)). rewrite HM.
    rewrite (Zdigits2_unique _ 53); [lia | | nia].
    split.
    + replace (53 - 1) with (d - 1 + (53 - d)) by lia.
      rewrite (Z.pow_add_r 2 (d - 1) (53 - d)) by lia.
      apply Z.mul_le_mono_nonneg_r; lia.
    + replace (2 ^ 53) with (2 ^ d * 2 ^ (53 - d)).
      * apply Z.mul_lt_mono_pos_r; lia.
      * rewrite <- Z.pow_add_r by lia. f_equal. lia.
  - rewrite HM, scaled_shift by lia. unfold scaled. f_equal. f_equal. lia.
Qed.

(** [round] of a float that is not negative is an integer that a float
    holds exactly. *)
Lemma py_round_representable f v :
  sf_not_negative (Prim2SF f) -> py_round f = Some v -> representable v.
Proof.
  intros Hnn Hr. pose proof (py_round_not_negative _ _ Hnn Hr) as Hv.
  pose proof (Prim2SF_valid f) as Hval.
  unfold py_round in Hr.
  destruct (Prim2SF f) as [s | s | | [] m e]; try done; injection Hr as <-; [by left |].
  apply valid_finite_emin in Hval as [Hcan He].
  destruct e as [| p | p].
  - right. exists m, 0. split; [done |]. unfold scaled. by rewrite Z.add_0_l.
  - right. exists m, (Zpos p). split; [done |]. unfold scaled.
    rewrite (Z.pow_add_r 2 (Zpos p) 1074) by lia. ring.
  - apply small_representable. split; [done |].
    pose proof (round_half_even_shift_le (Zpos m) p).
    apply canonical_mantissa_eq in Hcan.
    pose proof (digits2_pos_bounds m) as [_ Hu].
    assert (Zpos m < 2 ^ 53).
    { eapply Z.lt_le_trans; [exact Hu |]. apply Z.pow_le_mono_r; lia. }
    assert (Zpos m / 2 ^ Zpos p < 2 ^ 52).
    { apply Z.div_lt_upper_bound; [apply Z.pow_pos_nonneg; lia |].
      assert (2 ^ 1 <= 2 ^ Zpos p) by (apply Z.pow_le_mono_r; lia).
      change (2 ^ 1) with 2 in *. change (2 ^ 53) with (2 * 2 ^ 52) in *.
      assert (0 < 2 ^ 52) by done. nia. }
    change (2 ^ 53) with (2 ^ 52 + 2 ^ 52). assert (0 < 2 ^ 52) by done. lia.
Qed.

(** ** Distances *)

Lemma SFabs_binary_round s m e :
  SFabs (binary_round prec emax s m e) = binary_round prec emax false m e.
Proof.
  unfold binary_round. destruct (shl_align m e _) as [mz ez]. unfold binary_round_aux.
  destruct (shr_fexp prec emax (Zpos mz) ez loc_Exact) as [mrs1 e1].
  destruct (shr_fexp prec emax _ e1 loc_Exact) as [mrs2 e2].
  destruct (shr_m mrs2); [done | | done]. by destruct (e2 <=? emax - prec).
Qed.

Lemma SFabs_binary_normalize_opp z e :
  SFabs (binary_normalize prec emax (- z) e false) = SFabs (binary_normalize prec emax z e false).
Proof.
  destruct z as [| p | p]; [done | |].
  - change (SFabs (binary_round prec emax true p e) = SFabs (binary_round prec emax false p e)).
    by rewrite !SFabs_binary_round.
  - change (SFabs (binary_round prec emax false p e) = SFabs (binary_round prec emax true p e)).
    by rewrite !SFabs_binary_round.
Qed.

Lemma SFabs_SFsub x y : SFabs (SFsub prec emax x y) = SFabs (SFsub prec emax y x).
Proof.
  destruct x as [sx | sx | | sx mx ex], y as [sy | sy | | sy my ey];
    try done; try (by destruct sx, sy).
  cbn [SFsub]. rewrite (Z.min_comm ey ex), <- SFabs_binary_normalize_opp.
  f_equal. f_equal. lia.
Qed.

Lemma SFmul_square_abs x y : SFabs x = SFabs y -> SFmul prec emax x x = SFmul prec emax y y.
Proof.
  destruct x as [sx | sx | | sx mx ex], y as [sy | sy | | sy my ey]; try done.
  - by destruct sx, sy.
  - by destruct sx, sy.
  - intros [= -> ->]. by destruct sx, sy.
Qed.

Lemma is_infinity_abs x y : SFabs (Prim2SF x) = SFabs (Prim2SF y) -> is_infinity x = is_infinity y.
Proof. intros H. unfold is_infinity. by rewrite !FloatAxioms.eqb_spec, !abs_spec, H. Qed.

Lemma is_nan_abs x y : SFabs (Prim2SF x) = SFabs (Prim2SF y) -> is_nan x = is_nan y.
Proof.
  intros H. unfold is_nan. rewrite !FloatAxioms.eqb_spec.
  destruct (Prim2SF x) as [sx | sx | | sx mx ex], (Prim2SF y) as [sy | sy | | sy my ey];
    try done; try (by destruct sx, sy).
  unfold SFeqb, SFcompare. rewrite !Z.compare_refl, !Pos.compare_cont_refl.
  by destruct sx, sy.
Qed.

Lemma is_nan_spec f : is_nan f = true <-> Prim2SF f = S754_nan.
Proof.
  unfold is_nan. rewrite FloatAxioms.eqb_spec.
  destruct (Prim2SF f) as [s | s | | s m e]; cbn; try done.
  - by destruct s.
  - unfold SFeqb, SFcompare. rewrite Z.compare_refl, Pos.compare_cont_refl. by destruct s.
Qed.

Lemma is_finite_spec f :
  is_finite f = true <->
  match Prim2SF f with S754_zero _ | S754_finite _ _ _ => True | _ => False end.
Proof.
  unfold is_finite.
  destruct (is_nan f) eqn:Hnan.
  { apply is_nan_spec in Hnan. rewrite Hnan. cbn. split; [done | tauto]. }
  destruct (is_infinity f) eqn:Hinf.
  { apply is_infinity_spec in Hinf as [s ->]. cbn. split; [done | tauto]. }
  cbn. split; [| done]. intros _.
  destruct (Prim2SF f) as [s | s | | s m e] eqn:Hf; try done.
  - assert (is_infinity f = true) by (apply is_infinity_spec; eauto). congruence.
  - assert (is_nan f = true) by (by apply is_nan_spec). congruence.
Qed.

Lemma SFsub_diag x :
  SFsub prec emax x x
  = match x with S754_zero _ | S754_finite _ _ _ => S754_zero false | _ => S754_nan end.
Proof.
  destruct x as [[] | [] | | s m e]; try done.
  cbn [SFsub]. by rewrite Z.sub_diag.
Qed.

(** The square of a difference does not depend on its order. *)
Lemma math_pow2_sub_sym x y : math_pow2 (x - y) = math_pow2 (y - x).
Proof.
  assert (SFabs (Prim2SF (x - y)) = SFabs (Prim2SF (y - x))) as Habs.
  { rewrite !sub_spec. apply SFabs_SFsub. }
  assert (abs (x - y) = abs (y - x)) as Ha.
  { apply Prim2SF_inj. by rewrite !abs_spec. }
  unfold math_pow2.
  rewrite (is_nan_abs _ _ Habs), (is_infinity_abs _ _ Habs).
  rewrite <- (libm_pow2_abs (x - y)), Ha, (libm_pow2_abs (y - x)).
  destruct (is_nan (y - x)) eqn:Hnan; [|done].
  f_equal. apply Prim2SF_inj.
  pose proof Hnan as Hnan'. rewrite <- (is_nan_abs _ _ Habs) in Hnan'.
  apply is_nan_spec in Hnan, Hnan'. by rewrite Hnan, Hnan'.
Qed.

Lemma sub_diag (z : float) : (z - z)%float = if is_finite z then 0%float else nan.
Proof.
  apply Prim2SF_inj. rewrite sub_spec. unfold SF64sub. rewrite SFsub_diag.
  pose proof (is_finite_spec z) as Hfin.
  destruct (Prim2SF z) as [s | s | | s m e], (is_finite z); try reflexivity;
    try (by destruct Hfin as [Hfin _]; destruct (Hfin eq_refl));
    by destruct Hfin as [_ Hfin]; discriminate Hfin.
Qed.

(** The square of the difference of a coordinate with itself: zero, or a
    NaN for a coordinate that is not finite. *)
Lemma math_pow2_diag (z : float) :
  math_pow2 (z - z) = Some (if is_finite z then 0%float else nan).
Proof.
  rewrite sub_diag. unfold math_pow2. destruct (is_finite z); [|reflexivity].
  change (is_nan 0) with false. change (is_infinity 0) with false. cbn match.
  rewrite libm_pow2_zero. reflexivity.
Qed.

Lemma compute_euclidean_distance_sym sol a b :
  _compute_euclidean_distance sol a b = _compute_euclidean_distance sol b a.
Proof.
  unfold _compute_euclidean_distance.
  by rewrite (math_pow2_sub_sym (x_coordinate _)), (math_pow2_sub_sym (y_coordinate _)).
Qed.

Lemma compute_euclidean_distance_representable sol a b d :
  _compute_euclidean_distance sol a b = Some d -> 0 <= d /\ representable d.
Proof.
  unfold _compute_euclidean_distance. intros H.
  apply bind_Some_inv in H as (dx & _ & H).
  apply bind_Some_inv in H as (dy & _ & H).
  apply bind_Some_inv in H as (s & Hs & H).
  unfold math_sqrt in Hs. destruct (_ <? _)%float; [done |]. injection Hs as <-.
  assert (sf_not_negative (Prim2SF (sqrt (dx + dy)))).
  { rewrite sqrt_spec. apply SFsqrt_not_negative. }
  split; [by eapply py_round_not_negative | by eapply py_round_representable].
Qed.

(** ** The matrices the constructor builds *)

Lemma last_with_id_id sol l i a : last_with_id sol l i = Some a -> node_id (node_at sol a) = i.
Proof.
  induction l as [| n l IH]; [done |]. cbn [last_with_id].
  destruct (last_with_id sol l i); [auto |]. case_decide; congruence.
Qed.

Lemma last_with_id_elem sol l a :
  a ∈ l -> is_Some (last_with_id sol l (node_id (node_at sol a))).
Proof.
  induction l as [| n l IH]; [by intros ?%elem_of_nil |].
  intros [-> | Hin]%elem_of_cons; cbn [last_with_id].
  - destruct (last_with_id sol l _); [done |]. by rewrite decide_True.
  - destruct (IH Hin) as [b ->]. done.
Qed.

Section Comprehension.
Context (sol : VRPSolution).

(** [{n2.node_id: g(n2) for n2 in l}], continued from [row0]. *)
Lemma row_comprehension (g : ref -> option Z) (l : list ref) row0 row :
  foldlM (fun row n2 => d ← g n2; Some (dict_set (node_id (node_at sol n2)) d row)) row0 l = Some row ->
  forall j, match last_with_id sol l j with
            | Some b => is_Some (g b) /\ dict_get j row = g b
            | None => dict_get j row = dict_get j row0
            end.
Proof.
  revert row0. induction l as [| n l IH]; intros row0 H j; cbn [foldlM last_with_id] in *.
  - by injection H as <-.
  - apply bind_Some_inv in H as (row1 & H1 & H).
    apply bind_Some_inv in H1 as (d & Hd & [= <-]).
    specialize (IH _ H j). destruct (last_with_id sol l j); [done |].
    rewrite IH. case_decide as Hid.
    + subst j. by rewrite dict_get_set_eq, Hd.
    + by rewrite dict_get_set_ne.
Qed.

(** [{n1.node_id: {n2.node_id: g(n1, n2) for n2 in l2} for n1 in l}]. *)
Lemma matrix_comprehension (g : ref -> ref -> option Z) (l l2 : list ref) M0 M :
  foldlM (fun M n1 =>
            row ← foldlM (fun row n2 => d ← g n1 n2; Some (dict_set (node_id (node_at sol n2)) d row)) [] l2;
            Some (<[node_id (node_at sol n1) := row]> M)) M0 l = Some M ->
  forall i j, match last_with_id sol l i with
              | Some a =>
                  match last_with_id sol l2 j with
                  | Some b => is_Some (g a b) /\ matrix_get M i j = g a b
                  | None => matrix_get M i j = None
                  end
              | None => matrix_get M i j = matrix_get M0 i j
              end.
Proof.
  revert M0. induction l as [| n l IH]; intros M0 H i j; cbn [foldlM last_with_id] in *.
  - by injection H as <-.
  - apply bind_Some_inv in H as (M1 & H1 & H).
    apply bind_Some_inv in H1 as (row & Hrow & [= <-]).
    specialize (IH _ H i j). destruct (last_with_id sol l i); [done |].
    rewrite IH. unfold matrix_get. case_decide as Hid.
    + subst i. rewrite lookup_insert_eq. cbn [mbind option_bind].
      pose proof (row_comprehension _ _ _ _ Hrow j) as Hj.
      by destruct (last_with_id sol l2 j).
    + by rewrite lookup_insert_ne.
Qed.
End Comprehension.

Lemma build_costs_get sol nodes costs i j :
  build_costs sol nodes = Some costs ->
  matrix_get costs i j =
    (a ← last_with_id sol nodes i; b ← last_with_id sol nodes j;
     _compute_euclidean_distance sol a b).
Proof.
  intros H. pose proof (matrix_comprehension sol _ _ _ _ _ H i j) as Hij.
  destruct (last_with_id sol nodes i) as [a |]; cbn [mbind option_bind].
  - destruct (last_with_id sol nodes j) as [b |]; cbn [mbind option_bind]; [by destruct Hij | done].
  - by rewrite Hij.
Qed.

Lemma build_costs_defined sol nodes costs a b :
  build_costs sol nodes = Some costs -> a ∈ nodes -> b ∈ nodes ->
  is_Some (matrix_get costs (node_id (node_at sol a)) (node_id (node_at sol b))).
Proof.
  intros H Ha Hb.
  pose proof (matrix_comprehension sol _ _ _ _ _ H
                (node_id (node_at sol a)) (node_id (node_at sol b))) as Hij.
  destruct (last_with_id_elem sol nodes a Ha) as [a' Ha'].
  destruct (last_with_id_elem sol nodes b Hb) as [b' Hb'].
  rewrite Ha', Hb' in Hij. destruct Hij as [Hs ->]. done.
Qed.

Lemma build_penalized_costs_get sol nodes costs penalized i j :
  build_costs sol nodes = Some costs ->
  build_penalized_costs sol costs nodes = Some penalized ->
  matrix_get penalized i j = matrix_get costs i j.
Proof.
  intros Hc H. rewrite (build_costs_get _ _ _ _ _ Hc).
  pose proof (matrix_comprehension sol
                (fun a b => matrix_get costs (node_id (node_at sol a)) (node_id (node_at sol b)))
                _ _ _ _ H i j) as Hij.
  destruct (last_with_id sol nodes i) as [a |] eqn:Ha; cbn [mbind option_bind].
  - destruct (last_with_id sol nodes j) as [b |] eqn:Hb; cbn [mbind option_bind]; [| done].
    destruct Hij as [_ ->].
    rewrite (last_with_id_id _ _ _ _ Ha), (last_with_id_id _ _ _ _ Hb).
    by rewrite (build_costs_get _ _ _ _ _ Hc), Ha, Hb.
  - by rewrite Hij.
Qed.

Lemma build_costs_symmetric sol nodes costs i j :
  build_costs sol nodes = Some costs -> matrix_get costs i j = matrix_get costs j i.
Proof.
  intros H. rewrite !(build_costs_get _ _ _ _ _ H).
  destruct (last_with_id sol nodes i), (last_with_id sol nodes j); cbn [mbind option_bind]; try done.
  apply compute_euclidean_distance_sym.
Qed.

Lemma build_costs_representable sol nodes costs i j c :
  build_costs sol nodes = Some costs -> matrix_get costs i j = Some c ->
  0 <= c /\ representable c.
Proof.
  intros H. rewrite (build_costs_get _ _ _ _ _ H).
  destruct (last_with_id sol nodes i), (last_with_id sol nodes j); cbn [mbind option_bind]; try done.
  apply compute_euclidean_distance_representable.
Qed.

(** ** The baseline cost and the penalty counts *)

Lemma py_int_truediv_not_negative a b f :
  0 <= a -> 0 <= b -> py_int_truediv a b = Some f -> sf_not_negative (Prim2SF f).
Proof.
  intros Ha Hb. unfold py_int_truediv.
  destruct (b =? 0) eqn:Hb0; [done |]. destruct (a =? 0) eqn:Ha0.
  { intros [= <-]. by destruct (b <? 0). }
  cbv zeta.
  assert ((a <? 0) = false) as -> by lia. assert ((b <? 0) = false) as -> by lia.
  cbn [xorb].
  destruct (is_infinity _); [done |]. intros [= <-].
  rewrite Prim2SF_SF2Prim by apply binary_normalize_valid.
  apply binary_normalize_not_negative.
  assert (0 <= Z.abs a * 2 ^ Z.max 0 (Z.log2 (Z.abs b) + 56 - Z.log2 (Z.abs a)) / Z.abs b).
  { apply Z.div_pos; [| lia]. apply Z.mul_nonneg_nonneg; [lia |]. apply Z.pow_nonneg; lia. }
  set (q := _ / Z.abs b) in *. set (r := _ mod Z.abs b). clearbody q r.
  destruct (r =? 0); lia.
Qed.

Lemma py_int_of_float_not_negative f v :
  sf_not_negative (Prim2SF f) -> py_int_of_float f = Some v -> 0 <= v.
Proof.
  unfold py_int_of_float. destruct (Prim2SF f) as [s | s | | [] m e]; try done; intros _ [= <-]; [lia |].
  destruct e as [| p | p]; [lia | |].
  - pose proof (Z.pow_nonneg 2 (Zpos p)). nia.
  - apply Z.div_pos; [lia |]. apply Z.pow_pos_nonneg; lia.
Qed.

Lemma defaultdict_get_not_negative m k :
  map_Forall (fun _ p => 0 <= p) m ->
  0 <= (defaultdict_get m k).1 /\ map_Forall (fun _ p => 0 <= p) (defaultdict_get m k).2.
Proof.
  intros Hm. unfold defaultdict_get. destruct (m !! k) as [v |] eqn:Hk; cbn [fst snd].
  - split; [| done]. exact (Hm _ _ Hk).
  - split; [done |]. by apply map_Forall_insert_2.
Qed.

(** ** The invariant of the cost matrices *)

Lemma CostEvaluator_init_invariant sol nodes0 capacity self :
  CostEvaluator_init sol nodes0 capacity = Some self -> costs_invariant sol nodes0 self.
Proof.
  unfold CostEvaluator_init. intros H.
  apply bind_Some_inv in H as (costs & Hcosts & H).
  apply bind_Some_inv in H as (penalized & Hpen & H).
  apply bind_Some_inv in H as ([nb inb] & _ & H).
  apply bind_Some_inv in H as (total & Htotal & H).
  apply bind_Some_inv in H as (avg & Havg & H).
  apply bind_Some_inv in H as (baseline & Hbase & H). injection H as <-.
  split; cbn.
  - intros i j. by apply (build_costs_symmetric sol nodes0).
  - intros a b. by apply build_costs_defined.
  - intros i j c Hc. by apply (build_costs_representable sol nodes0 costs i j).
  - eapply py_int_of_float_not_negative; [| exact Hbase].
    eapply py_int_truediv_not_negative; [| | exact Havg]; [| lia].
    revert Htotal. apply (foldlM_inv (fun acc => 0 <= acc)); [| done].
    intros acc node acc' Hacc. destruct (is_depot _); [by intros [= <-] |].
    intros H. apply bind_Some_inv in H as (others & _ & H).
    revert H. apply (foldlM_inv (fun acc => 0 <= acc)); [| done].
    intros acc1 other acc2 Hacc1 H. apply bind_Some_inv in H as (d & Hd & [= <-]).
    apply (build_costs_representable sol nodes0 costs) in Hd as [? _]; [lia | done].
  - apply map_Forall_empty.
  - intros i j. rewrite !(build_penalized_costs_get sol nodes0 costs penalized) by done.
    by apply (build_costs_symmetric sol nodes0).
  - intros i j c Hc. exists c.
    by rewrite (build_penalized_costs_get sol nodes0 costs penalized).
Qed.

(** The invariant only reads the costs, the baseline cost, the penalty
    counts and the penalized costs. *)
Lemma costs_invariant_transfer sol0 nodes0 self self' :
  statics self' = statics self ->
  _penalized_costs self' = _penalized_costs self ->
  map_Forall (fun _ p => 0 <= p) (_edge_penalties self') ->
  costs_invariant sol0 nodes0 self -> costs_invariant sol0 nodes0 self'.
Proof.
  intros Hst Hpen Hpenalties [H1 H2 H3 H4 H5 H6 H7].
  injection Hst as _ _ _ Hcosts Hbase _ _.
  split; rewrite ?Hcosts, ?Hbase, ?Hpen; done.
Qed.

Lemma update_ejection_costs_penalties sol self node self' :
  update_ejection_costs sol self node = Some self' ->
  _edge_penalties self' = _edge_penalties self.
Proof.
  unfold update_ejection_costs. intros H.
  repeat (apply bind_Some_inv in H as (? & _ & H)). by injection H as <-.
Qed.

Lemma update_insertion_costs_penalties sol self node a self' :
  _update_insertion_costs sol self node a = Some self' ->
  _edge_penalties self' = _edge_penalties self.
Proof.
  unfold _update_insertion_costs. intros H.
  repeat (apply bind_Some_inv in H as (? & _ & H)).
  by destruct (_ <=? _); injection H as <-.
Qed.

Lemma update_relocation_costs_penalties sol self self' :
  update_relocation_costs sol self = Some self' ->
  _edge_penalties self' = _edge_penalties self.
Proof.
  unfold update_relocation_costs. intros H.
  apply bind_Some_inv in H as (s & Hs & H). injection H as <-.
  pose (I0 := fun s0 s : CostEvaluator => _edge_penalties s = _edge_penalties s0).
  assert (forall s0 (l : list ref) f b',
             (forall x y z, f x y = Some z -> _edge_penalties z = _edge_penalties x) ->
             foldlM f s0 l = Some b' -> I0 s0 b') as Hfold.
  { intros s0 l f b' Hf. apply (foldlM_inv (I0 s0)); [| done].
    intros x y z ? ?%Hf. unfold I0 in *. congruence. }
  change (I0 self s). revert Hs. apply Hfold. intros b node b' H.
  apply bind_Some_inv in H as (s1 & H1 & H).
  apply bind_Some_inv in H as (ns & _ & H).
  apply bind_Some_inv in H as (s2 & H2 & H).
  apply bind_Some_inv in H as (ns' & _ & H).
  apply update_ejection_costs_penalties in H1.
  apply Hfold in H2; [| intros x y z; apply update_insertion_costs_penalties].
  apply Hfold in H; [| intros x y z; apply update_insertion_costs_penalties].
  unfold I0 in *. congruence.
Qed.

Lemma determine_edge_badness_penalties sol self routes self' :
  determine_edge_badness sol self routes = Some self' ->
  map_Forall (fun _ p => 0 <= p) (_edge_penalties self) ->
  map_Forall (fun _ p => 0 <= p) (_edge_penalties self').
Proof.
  unfold determine_edge_badness. intros H Hnn.
  apply bind_Some_inv in H as ([penalties edges] & Hfold & H). injection H as <-. cbn.
  change (map_Forall (fun _ p => 0 <= p) (penalties, edges).1).
  revert Hfold. apply (foldlM_inv (fun acc => map_Forall (fun _ p => 0 <= p) acc.1)); [| done].
  intros acc rt acc' Hacc H. unfold score_route in H.
  apply bind_Some_inv in H as (center & _ & H).
  revert H. apply (foldlM_inv (fun acc => map_Forall (fun _ p => 0 <= p) acc.1)); [| done].
  intros [pens es] e acc2 Hpens H. unfold score_edge in H.
  apply bind_Some_inv in H as (v & _ & H).
  pose proof (defaultdict_get_not_negative pens (edge_key e) Hpens) as [_ Hnn'].
  destruct (defaultdict_get pens (edge_key e)) as [p pens'].
  apply bind_Some_inv in H as (v' & _ & H). by injection H as <-.
Qed.

Lemma matrix_get_set_both m i j v m1 m2 i' j' :
  matrix_set m i j v = Some m1 -> matrix_set m1 j i v = Some m2 ->
  matrix_get m2 i' j' =
    if decide ((i', j') = (i, j) \/ (i', j') = (j, i)) then Some v else matrix_get m i' j'.
Proof.
  intros H1 H2. case_decide as Hd.
  - destruct (decide ((i', j') = (j, i))) as [[= -> ->] | Hne].
    + by apply (matrix_get_set_eq m1).
    + destruct Hd as [[= -> ->] | ?]; [| done].
      rewrite (matrix_get_set_ne _ _ _ _ _ _ _ H2) by done.
      by apply (matrix_get_set_eq m).
  - rewrite (matrix_get_set_ne _ _ _ _ _ _ _ H2) by (intros [= -> ->]; tauto).
    rewrite (matrix_get_set_ne _ _ _ _ _ _ _ H1) by (intros [= -> ->]; tauto). done.
Qed.

Lemma get_and_penalize_worst_edge_invariant sol0 nodes0 sol self self' e :
  get_and_penalize_worst_edge sol self = Some (self', e) ->
  costs_invariant sol0 nodes0 self -> costs_invariant sol0 nodes0 self'.
Proof.
  unfold get_and_penalize_worst_edge. intros H [H1 H2 H3 H4 H5 H6 H7].
  apply bind_Some_inv in H as (heap & _ & H).
  apply bind_Some_inv in H as ([popped rest] & _ & H).
  pose proof (defaultdict_get_not_negative _ (edge_key popped) H5) as [Hp Hpens].
  destruct (defaultdict_get _ _) as [p penalties]. cbn [fst snd] in Hp, Hpens.
  apply bind_Some_inv in H as (c & Hc & H).
  apply bind_Some_inv in H as (pc & Hpc & H).
  apply bind_Some_inv in H as (pen1 & Hpen1 & H).
  apply bind_Some_inv in H as (pen2 & Hpen2 & H).
  apply bind_Some_inv in H as (v & _ & H). injection H as <- _.
  set (i := node_id (node_at sol (edge_nodes popped).1)) in *.
  set (j := node_id (node_at sol (edge_nodes popped).2)) in *.
  assert (c <= pc) as Hge.
  { eapply penalization_costs_ge; [| | | exact Hpc]; [by eapply H3 | done | lia]. }
  split; cbn; try done.
  - apply map_Forall_insert_2; [lia | done].
  - intros i' j'. rewrite !(matrix_get_set_both _ _ _ _ _ _ _ _ Hpen1 Hpen2).
    repeat case_decide; try done; exfalso;
      match goal with
      | Hn : ¬ _, Hy : _ \/ _ |- _ => apply Hn; destruct Hy as [[= -> ->] | [= -> ->]]; auto
      end.
  - intros i' j' c' Hc'. rewrite (matrix_get_set_both _ _ _ _ _ _ _ _ Hpen1 Hpen2).
    case_decide as Hd; [| by apply H7].
    exists pc. split; [done |].
    destruct Hd as [[= -> ->] | [= -> ->]]; [| rewrite H1 in Hc']; congruence.
Qed.

Lemma reachable_invariant sol0 nodes0 self :
  reachable sol0 nodes0 self -> costs_invariant sol0 nodes0 self.
Proof.
  induction 1 as [capacity self Hinit
                 | sol self self' e _ IH Hop
                 | self edge _ IH
                 | sol self _ IH
                 | sol self _ IH
                 | sol self routes self' _ IH Hop
                 | sol self self' _ IH Hop
                 | sol self node self' _ IH Hop].
  - by eapply CostEvaluator_init_invariant.
  - by eapply get_and_penalize_worst_edge_invariant.
  - apply (costs_invariant_transfer _ _ self); [apply penalize_statics .. | | done].
    unfold penalize.
    pose proof (defaultdict_get_not_negative _ (edge_key edge) (inv_edge_penalties _ _ _ IH))
      as [Hp Hpens].
    destruct (defaultdict_get _ _) as [p penalties]. cbn in *.
    apply map_Forall_insert_2; [lia | done].
  - apply (costs_invariant_transfer _ _ self); [done | done | | done].
    apply (inv_edge_penalties _ _ _ IH).
  - apply (costs_invariant_transfer _ _ self); [done | done | | done].
    apply (inv_edge_penalties _ _ _ IH).
  - apply (costs_invariant_transfer _ _ self);
      [eapply determine_edge_badness_statics; done ..
      | eapply determine_edge_badness_penalties; [done | apply (inv_edge_penalties _ _ _ IH)]
      | done].
  - apply (costs_invariant_transfer _ _ self);
      [eapply update_relocation_costs_statics; done ..
      | rewrite (update_relocation_costs_penalties _ _ _ Hop);
        apply (inv_edge_penalties _ _ _ IH)
      | done].
  - apply (costs_invariant_transfer _ _ self);
      [eapply update_ejection_costs_statics; done ..
      | rewrite (update_ejection_costs_penalties _ _ _ _ Hop);
        apply (inv_edge_penalties _ _ _ IH)
      | done].
Qed.

(** C3: in the state the constructor builds and in every state reached
    from it by any sequence of [get_and_penalize_worst_edge], [penalize],
    [enable_penalization], [disable_penalization],
    [determine_edge_badness], [update_relocation_costs] (and
    [update_ejection_costs]) calls that return, for all ids [i] and [j]:
    [penalized_costs[i][j]] and [penalized_costs[j][i]] are the same (both
    missing, or the same number), and where [costs[i][j]] exists,
    [penalized_costs[i][j]] exists and is at least [costs[i][j]].  The
    costs exist between the ids of any two nodes the evaluator was built
    from. *)
Theorem penalized_costs_symmetric_and_above sol0 nodes0 self :
  reachable sol0 nodes0 self ->
  (forall i j,
     matrix_get (_penalized_costs self) i j = matrix_get (_penalized_costs self) j i
     /\ forall c, matrix_get (_costs self) i j = Some c ->
                  exists p, matrix_get (_penalized_costs self) i j = Some p /\ c <= p)
  /\ (forall a b, a ∈ nodes0 -> b ∈ nodes0 ->
        is_Some (matrix_get (_costs self)
                   (node_id (node_at sol0 a)) (node_id (node_at sol0 b)))).
Proof.
  intros Hreach. destruct (reachable_invariant _ _ _ Hreach) as [_ Hdef _ _ _ Hsym Habove].
  split; [| exact Hdef]. intros i j. split; [apply Hsym | apply Habove].
Qed.

(* ===================================================================== *)
(** * Further properties of the code                                      *)
(* ===================================================================== *)

(** ** [MaxHeapWithUpdate] *)

Lemma heapify_ranking_ok elements :
  Forall (fun e => is_number (value e)) elements -> ranking_ok (heapify edge_lt elements).
Proof.
  intros HP. split.
  - apply (heapify_heap edge_lt (fun e => is_number (value e)));
      [exact edge_lt_asym | exact edge_not_greater_trans | done].
  - by rewrite heapify_perm.
Qed.

Lemma heappop_ranking_ok heap e rest :
  ranking_ok heap -> heappop edge_lt heap = Some (e, rest) ->
  ranking_ok rest /\ Forall (fun x => (value x <=? value e)%float = true) heap.
Proof.
  intros [Hheap HP] Hpop.
  destruct (heappop_heap edge_lt (fun e => is_number (value e)) edge_lt_asym
              edge_not_greater_trans heap e rest Hheap HP Hpop) as (Hheap' & HP' & Hmin).
  destruct (heappop_perm edge_lt _ _ _ Hpop) as [_ Hperm].
  split; [by split |]. rewrite <- Hperm.
  assert (is_number (value e)) as He.
  { rewrite <- Hperm in HP. by apply Forall_cons in HP as [? _]. }
  constructor.
  - apply float_not_lt_leb; [done | done |].
    destruct (value e <? value e)%float eqn:Hlt; [| done].
    by rewrite (float_lt_asym _ _ He He Hlt) in Hlt.
  - rewrite Forall_forall in Hmin, HP'. apply Forall_forall. intros x Hx.
    apply float_not_lt_leb; [done | by apply HP' |]. exact (Hmin x Hx).
Qed.

Lemma heappush_ranking_ok heap e :
  ranking_ok heap -> is_number (value e) -> ranking_ok (heappush edge_lt heap e).
Proof.
  intros [Hheap HP] He. split.
  - by apply (heappush_heap edge_lt (fun e => is_number (value e)));
      [exact edge_lt_asym | exact edge_not_greater_trans | ..].
  - rewrite heappush_perm. by constructor.
Qed.

(** X1: [MaxHeapWithUpdate(elements)] keeps the elements it is given, each
    once, and arranges them as a heap. *)
Theorem MaxHeapWithUpdate_spec elements :
  Forall (fun e => is_number (value e)) elements ->
  MaxHeapWithUpdate elements ≡ₚ elements /\ ranking_ok (MaxHeapWithUpdate elements).
Proof.
  intros HP. split; [apply heapify_perm | by apply heapify_ranking_ok].
Qed.

Lemma MaxHeapWithUpdate_spec_witness :
  let elements := [mkEdge (0, 1)%nat 1; mkEdge (1, 2)%nat 3; mkEdge (2, 0)%nat 2] in
  MaxHeapWithUpdate elements ≡ₚ elements /\ ranking_ok (MaxHeapWithUpdate elements).
Proof.
  apply MaxHeapWithUpdate_spec. repeat constructor.
Defined.

(** X2: [get_max_element] raises exactly on an empty ranking.  On a
    ranking in order it returns an edge whose value is at least the value
    of every edge of the ranking, and leaves the other edges, again in
    order. *)
Theorem get_max_element_spec heap :
  ranking_ok heap ->
  (get_max_element heap = None <-> heap = [])
  /\ forall e rest, get_max_element heap = Some (e, rest) ->
       e :: rest ≡ₚ heap
       /\ Forall (fun x => (value x <=? value e)%float = true) heap
       /\ ranking_ok rest.
Proof.
  intros Hok. unfold get_max_element. split.
  - split; [| by intros ->].
    intros Hnone. destruct heap as [| x heap]; [done |].
    destruct (heappop_is_Some edge_lt (x :: heap)) as [? ?]; [done | congruence].
  - intros e rest Hpop. destruct (heappop_ranking_ok _ _ _ Hok Hpop) as [? ?].
    by destruct (heappop_perm edge_lt _ _ _ Hpop) as [_ ?].
Qed.

Lemma get_max_element_spec_witness :
  exists e rest,
    get_max_element (MaxHeapWithUpdate
                       [mkEdge (0, 1)%nat 1; mkEdge (1, 2)%nat 3; mkEdge (2, 0)%nat 2])
    = Some (e, rest)
    /\ value e = 3%float /\ ranking_ok rest.
Proof.
  eexists _, _. split; [vm_compute; reflexivity |]. split; [reflexivity |].
  refine (proj2 (proj2 (proj2 (get_max_element_spec
            (MaxHeapWithUpdate
               [mkEdge (0, 1)%nat 1; mkEdge (1, 2)%nat 3; mkEdge (2, 0)%nat 2]) _) _ _ _))).
  - apply heapify_ranking_ok. repeat constructor.
  - vm_compute. reflexivity.
Defined.

(** X3: [insert_element] adds the edge to the ranking and keeps the
    ranking in order. *)
Theorem insert_element_spec heap e :
  ranking_ok heap -> is_number (value e) ->
  insert_element heap e ≡ₚ e :: heap /\ ranking_ok (insert_element heap e).
Proof.
  intros Hok He. split; [apply heappush_perm | by apply heappush_ranking_ok].
Qed.

Lemma insert_element_spec_witness :
  ranking_ok (insert_element
                (MaxHeapWithUpdate [mkEdge (0, 1)%nat 1; mkEdge (1, 2)%nat 3])
                (mkEdge (2, 0)%nat 2)).
Proof.
  refine (proj2 (insert_element_spec _ _ _ _)).
  - apply heapify_ranking_ok. repeat constructor.
  - reflexivity.
Defined.

Section SortedOn.
Context {A : Type} (lt : A -> A -> bool) (P : A -> Prop).

Hypothesis lt_asym : forall a b, P a -> P b -> lt a b = true -> lt b a = false.
Hypothesis not_greater_trans : forall a b d : A,
  P a -> P b -> P d -> not_greater lt a b -> not_greater lt b d -> not_greater lt a d.

Lemma insert_stable_sorted_on x l :
  P x -> Forall P l -> StronglySorted (not_greater lt) l ->
  StronglySorted (not_greater lt) (insert_stable lt x l).
Proof.
  intros Hx HP. induction 1 as [| y l Hl IH Hy]; simpl.
  - repeat constructor.
  - apply Forall_cons in HP as [HPy HPl]. destruct (lt y x) eqn:Hyx.
    + constructor; [by apply IH |]. rewrite insert_stable_perm.
      constructor; [by apply lt_asym | done].
    + constructor; [by constructor |].
      constructor; [done |].
      rewrite Forall_forall in Hy, HPl. apply Forall_forall. intros z Hz.
      apply not_greater_trans with y; auto.
Qed.

Lemma py_sorted_sorted_on l :
  Forall P l -> StronglySorted (not_greater lt) (py_sorted lt l).
Proof.
  induction 1 as [| x l Hx Hl IH]; simpl; [constructor |].
  apply insert_stable_sorted_on; [done | by rewrite py_sorted_perm | done].
Qed.
End SortedOn.

(** X4: [get_sorted_list] returns the edges of the ranking, each once, in
    non-increasing order of value, whatever the order of the list it
    reads. *)
Theorem get_sorted_list_spec heap :
  Forall (fun e => is_number (value e)) heap ->
  get_sorted_list heap ≡ₚ heap
  /\ StronglySorted (fun a b => (value b <=? value a)%float = true) (get_sorted_list heap).
Proof.
  intros HP. unfold get_sorted_list. split; [apply py_sorted_perm |].
  eapply (StronglySorted_weaken_on (fun e => is_number (value e)));
    [| | apply (py_sorted_sorted_on edge_lt (fun e => is_number (value e)))].
  - intros a b Ha Hb Hab. by apply float_not_lt_leb.
  - by rewrite py_sorted_perm.
  - exact edge_lt_asym.
  - exact edge_not_greater_trans.
  - done.
Qed.

Lemma get_sorted_list_spec_witness :
  value <$> get_sorted_list [mkEdge (0, 1)%nat 1; mkEdge (1, 2)%nat 3; mkEdge (2, 0)%nat 2]
  = [3; 2; 1]%float
  /\ StronglySorted (fun a b => (value b <=? value a)%float = true)
       (get_sorted_list [mkEdge (0, 1)%nat 1; mkEdge (1, 2)%nat 3; mkEdge (2, 0)%nat 2]).
Proof.
  split; [vm_compute; reflexivity |].
  refine (proj2 (get_sorted_list_spec _ _)). repeat constructor.
Defined.

(** ** Distances *)

(** The distance from a node to itself. *)
Lemma compute_euclidean_distance_diag sol a :
  _compute_euclidean_distance sol a a
  = if is_finite (x_coordinate (node_at sol a)) && is_finite (y_coordinate (node_at sol a))
    then Some 0 else None.
Proof.
  unfold _compute_euclidean_distance. rewrite !math_pow2_diag. cbn [mbind option_bind].
  by destruct (is_finite (x_coordinate _)), (is_finite (y_coordinate _)).
Qed.

(** X5: the rounded Euclidean distance does not depend on the order of
    the two nodes (it raises for both orders or for none), is never
    negative, and from a node to itself it is 0 when both coordinates of
    the node are finite and raises otherwise. *)
Theorem compute_euclidean_distance_spec sol a b :
  _compute_euclidean_distance sol a b = _compute_euclidean_distance sol b a
  /\ (forall d, _compute_euclidean_distance sol a b = Some d -> 0 <= d)
  /\ _compute_euclidean_distance sol a a
     = if is_finite (x_coordinate (node_at sol a)) && is_finite (y_coordinate (node_at sol a))
       then Some 0 else None.
Proof.
  split; [apply compute_euclidean_distance_sym |].
  split; [| apply compute_euclidean_distance_diag].
  intros d Hd. by apply compute_euclidean_distance_representable in Hd as [? _].
Qed.

(** ** The constructor *)

Lemma row_comprehension_defined sol (g : ref -> option Z) (l : list ref) row0 row :
  foldlM (fun row n2 => d ← g n2; Some (dict_set (node_id (node_at sol n2)) d row)) row0 l
  = Some row ->
  forall b, b ∈ l -> is_Some (g b).
Proof.
  revert row0. induction l as [| n l IH]; intros row0 H b Hb; cbn [foldlM] in H.
  - by apply elem_of_nil in Hb.
  - apply bind_Some_inv in H as (row1 & H1 & H).
    apply bind_Some_inv in H1 as (d & Hd & _).
    apply elem_of_cons in Hb as [-> | Hb]; [by rewrite Hd | eauto].
Qed.

Lemma matrix_comprehension_defined sol (g : ref -> ref -> option Z) (l l2 : list ref)
    (M0 M : gmap Z (list (Z * Z))) :
  foldlM (fun M n1 =>
            row ← foldlM (fun row n2 => d ← g n1 n2;
                                        Some (dict_set (node_id (node_at sol n2)) d row)) [] l2;
            Some (<[node_id (node_at sol n1) := row]> M)) M0 l = Some M ->
  forall a b, a ∈ l -> b ∈ l2 -> is_Some (g a b).
Proof.
  revert M0. induction l as [| n l IH]; intros M0 H a b Ha Hb; cbn [foldlM] in H.
  - by apply elem_of_nil in Ha.
  - apply bind_Some_inv in H as (M1 & H1 & H).
    apply bind_Some_inv in H1 as (row & Hrow & _).
    apply elem_of_cons in Ha as [-> | Ha]; [| eauto].
    by apply (row_comprehension_defined sol (g n) l2 [] row).
Qed.

Lemma last_with_id_unique sol l a :
  NoDup ((fun n => node_id (node_at sol n)) <$> l) -> a ∈ l ->
  last_with_id sol l (node_id (node_at sol a)) = Some a.
Proof.
  induction l as [| n l IH]; [by intros _ ?%elem_of_nil |].
  rewrite fmap_cons. intros [Hn Hnd]%NoDup_cons [-> | Ha]%elem_of_cons; cbn [last_with_id].
  - destruct (last_with_id sol l _) as [b |] eqn:Hb.
    + exfalso. apply Hn. apply list_elem_of_fmap. exists b.
      split; [by rewrite (last_with_id_id _ _ _ _ Hb) |].
      clear -Hb. induction l as [| m l IH]; [done |]. cbn [last_with_id] in Hb.
      destruct (last_with_id sol l _); [right; auto |].
      case_decide; [| done]. injection Hb as <-. by left.
    + by rewrite decide_True.
  - by rewrite (IH Hnd Ha).
Qed.

(** X6: in a fresh evaluator the distance between two nodes of the node
    list, with penalization disabled or enabled, is the rounded Euclidean
    distance between the last nodes of the list that carry their ids:
    between the two nodes themselves when no two nodes share an id. *)
Theorem fresh_get_distance sol nodes0 capacity self a b :
  CostEvaluator_init sol nodes0 capacity = Some self ->
  a ∈ nodes0 -> b ∈ nodes0 ->
  exists a' b' d,
    last_with_id sol nodes0 (node_id (node_at sol a)) = Some a'
    /\ last_with_id sol nodes0 (node_id (node_at sol b)) = Some b'
    /\ _compute_euclidean_distance sol a' b' = Some d
    /\ get_distance sol self a b = Some d
    /\ get_distance sol (enable_penalization sol self) a b = Some d
    /\ (NoDup ((fun n => node_id (node_at sol n)) <$> nodes0) -> a' = a /\ b' = b).
Proof.
  intros H Ha Hb. unfold CostEvaluator_init in H.
  apply bind_Some_inv in H as (costs & Hcosts & H).
  apply bind_Some_inv in H as (penalized & Hpen & H).
  apply bind_Some_inv in H as ([nb inb] & _ & H).
  apply bind_Some_inv in H as (total & _ & H).
  apply bind_Some_inv in H as (avg & _ & H).
  apply bind_Some_inv in H as (baseline & _ & H). injection H as <-.
  destruct (last_with_id_elem sol nodes0 a Ha) as [a' Ha'].
  destruct (last_with_id_elem sol nodes0 b Hb) as [b' Hb'].
  destruct (build_costs_defined sol nodes0 costs a b Hcosts Ha Hb) as [d Hd].
  exists a', b', d. split; [done |]. split; [done |].
  pose proof (build_costs_get sol nodes0 costs
                (node_id (node_at sol a)) (node_id (node_at sol b)) Hcosts) as Hget.
  rewrite Ha', Hb', Hd in Hget. cbn [mbind option_bind] in Hget.
  split; [done |]. unfold get_distance. cbn.
  split; [done |]. split.
  - by rewrite (build_penalized_costs_get sol nodes0 costs penalized).
  - intros Hnd. rewrite (last_with_id_unique sol nodes0 a Hnd Ha) in Ha'.
    rewrite (last_with_id_unique sol nodes0 b Hnd Hb) in Hb'. split; congruence.
Qed.

Lemma dict_get_elem {K V : Type} `{EqDecision K} (d : list (K * V)) k v :
  dict_get k d = Some v -> (k, v) ∈ d.
Proof.
  induction d as [| [k' v'] d IH]; [done |]. cbn [dict_get].
  case_decide as Hk; [intros [= <-]; subst; by left | right; auto].
Qed.

Lemma dict_get_is_Some {K V : Type} `{EqDecision K} (d : list (K * V)) k :
  is_Some (dict_get k d) <-> k ∈ dict_keys d.
Proof.
  unfold dict_keys. induction d as [| [k' v'] d IH]; cbn [dict_get].
  - split; [by intros [? ?] | by intros ?%elem_of_nil].
  - rewrite fmap_cons, elem_of_cons. cbn [fst]. case_decide as Hk.
    + split; [intros _; by left | eauto].
    + rewrite IH. split; [tauto | intros [-> | ?]; [done | tauto]].
Qed.

Lemma py_list_get_Some {A : Type} (l : list A) i x :
  py_list_get l i = Some x ->
  - Z.of_nat (length l) <= i < Z.of_nat (length l) /\ x ∈ l.
Proof.
  unfold py_list_get. cbv zeta.
  destruct ((0 <=? i) && (i <? Z.of_nat (length l))) eqn:H1.
  - intros Hx. split; [lia | by eapply list_elem_of_lookup_2].
  - destruct ((- Z.of_nat (length l) <=? i) && (i <? 0)) eqn:H2; [| done].
    intros Hx. split; [lia | by eapply list_elem_of_lookup_2].
Qed.

(** A dictionary comprehension over the non-depot nodes: every node it
    reaches has a value, and every value it holds is the value of its
    key. *)
Lemma comprehension_values {V : Type} (sol : VRPSolution) (f : ref -> option V)
    (l : list ref) (d0 d : list (ref * V)) :
  foldlM (fun d node =>
            if is_depot (node_at sol node) then Some d
            else v ← f node; Some (dict_set node v d)) d0 l = Some d ->
  (forall n, n ∈ l -> is_depot (node_at sol n) = false -> is_Some (f n))
  /\ forall n v, dict_get n d = Some v -> dict_get n d0 = Some v \/ f n = Some v.
Proof.
  revert d0. induction l as [| x l IH]; intros d0 H; cbn [foldlM] in H.
  - injection H as <-. split; [by intros n ?%elem_of_nil | auto].
  - apply bind_Some_inv in H as (d1 & H1 & H). apply IH in H as [Hdef Hval].
    destruct (is_depot (node_at sol x)) eqn:Hx.
    + injection H1 as <-. split; [| done].
      intros n [-> | Hn]%elem_of_cons Hnd; [congruence | auto].
    + apply bind_Some_inv in H1 as (v & Hv & [= <-]). split.
      * intros n [-> | Hn]%elem_of_cons Hnd; [by rewrite Hv | auto].
      * intros n w Hw. destruct (Hval n w Hw) as [Hw' | ?]; [| by right].
        destruct (decide (x = n)) as [-> | Hne].
        -- rewrite dict_get_set_eq in Hw'. right. congruence.
        -- rewrite dict_get_set_ne in Hw' by done. by left.
Qed.

Lemma CostEvaluator_init_neighborhood sol nodes0 capacity self :
  CostEvaluator_init sol nodes0 capacity = Some self ->
  exists costs,
    build_costs sol nodes0 = Some costs /\ _costs self = costs
    /\ foldlM (fun d node =>
                 if is_depot (node_at sol node) then Some d
                 else nn ← _get_nearest_neighbors sol nodes0 costs 20 node;
                      Some (dict_set node nn d))
              [] nodes0 = Some (neighborhood self)
    /\ foldlM (fun d node =>
                 if is_depot (node_at sol node) then Some d
                 else others ←
                        foldlM (fun acc other =>
                                  l ← dict_get other (neighborhood self);
                                  Some (if bool_decide (node ∈ l) then acc ++ [other] else acc))
                               [] (dict_keys (neighborhood self));
                      Some (dict_set node others d))
              [] nodes0 = Some (_in_neighborhood_of self)
    /\ is_Some (py_int_truediv
                  (default 0 (foldlM (fun acc node =>
                     if is_depot (node_at sol node) then Some acc
                     else others ← dict_get node (neighborhood self);
                          foldlM (fun acc' other =>
                                    d ← matrix_get costs (node_id (node_at sol node))
                                          (node_id (node_at sol other));
                                    Some (acc' + d)) acc others) 0 nodes0))
                  (Z.of_nat 20 * Z.of_nat (length nodes0))).
Proof.
  unfold CostEvaluator_init. intros H.
  apply bind_Some_inv in H as (costs & Hcosts & H).
  apply bind_Some_inv in H as (penalized & Hpen & H).
  apply bind_Some_inv in H as ([nb inb] & Hn & H).
  apply bind_Some_inv in H as (total & Htotal & H).
  apply bind_Some_inv in H as (avg & Havg & H).
  apply bind_Some_inv in H as (baseline & _ & H). injection H as <-. cbn.
  unfold _compute_neighborhood in Hn.
  apply bind_Some_inv in Hn as (nb' & Hnb & Hn).
  apply bind_Some_inv in Hn as (inb' & Hinb & [= -> ->]).
  exists costs. rewrite Htotal. cbn. by rewrite Havg.
Qed.

(** X7: the constructor raises unless the node list is not empty and
    every node has finite coordinates; and when the list holds a node
    that is not a depot, unless every node id is an index of the list
    (possibly a negative one, counted from the end). *)
Theorem CostEvaluator_init_requires sol nodes0 capacity self :
  CostEvaluator_init sol nodes0 capacity = Some self ->
  nodes0 ≠ []
  /\ (forall n, n ∈ nodes0 ->
        is_finite (x_coordinate (node_at sol n)) = true
        /\ is_finite (y_coordinate (node_at sol n)) = true)
  /\ ((exists c, c ∈ nodes0 /\ is_depot (node_at sol c) = false) ->
      forall n, n ∈ nodes0 ->
        - Z.of_nat (length nodes0) <= node_id (node_at sol n) < Z.of_nat (length nodes0)).
Proof.
  intros H.
  destruct (CostEvaluator_init_neighborhood _ _ _ _ H) as (costs & Hcosts & _ & Hnb & _ & Havg).
  split; [| split].
  - intros ->. by destruct Havg as [? ?].
  - intros n Hn.
    destruct (matrix_comprehension_defined sol _ _ _ _ _ Hcosts n n Hn Hn) as [d Hd].
    rewrite compute_euclidean_distance_diag in Hd.
    destruct (is_finite (x_coordinate _)), (is_finite (y_coordinate _)); done.
  - intros (c & Hc & Hcd) n Hn.
    apply comprehension_values in Hnb as [Hdef _].
    destruct (Hdef c Hc Hcd) as [l Hl]. unfold _get_nearest_neighbors in Hl.
    apply bind_Some_inv in Hl as (row & Hrow & Hl).
    apply bind_Some_inv in Hl as (candidates & Hcand & _).
    destruct (build_costs_defined sol nodes0 costs c n Hcosts Hc Hn) as [d Hd].
    unfold matrix_get in Hd. rewrite Hrow in Hd. cbn in Hd.
    apply dict_get_elem in Hd. apply mapM_Some in Hcand.
    assert ((node_id (node_at sol n), d)
            ∈ py_sorted (fun a b : Z * Z => a.2 <? b.2) (dict_items row)) as Hin.
    { by rewrite py_sorted_perm. }
    apply list_elem_of_lookup in Hin as [i Hi].
    destruct (Forall2_lookup_l _ _ _ _ _ Hcand Hi) as (m & _ & Hm).
    by apply py_list_get_Some in Hm as [? _].
Qed.

(** ** Neighbourhoods *)

(** The elements a [filter] and a slice keep from a list that runs in
    step with a sorted list. *)
Lemma sorted_pick {A B : Type} (R : A -> B -> Prop) (S : A -> A -> Prop) (P : B -> Prop)
    `{forall x, Decision (P x)} (ks : list A) (l : list B) :
  Forall2 R ks l -> StronglySorted S ks ->
  forall n, exists ks',
    Forall (fun k => k ∈ ks) ks' /\ Forall2 R ks' (take n (filter P l)) /\ StronglySorted S ks'.
Proof.
  induction 1 as [| k r ks l Hkr Hrest IH]; intros Hs n.
  - exists []. split; [constructor |]. split; [| constructor].
    rewrite filter_nil, take_nil. constructor.
  - apply StronglySorted_inv in Hs as [Hs Hk].
    rewrite filter_cons. destruct (decide (P r)) as [HP | HP].
    + destruct n as [| n]; [exists []; split; [constructor |]; split; constructor |].
      destruct (IH Hs n) as (ks' & Hin & Hf & Hs').
      exists (k :: ks'). split; [| split].
      * constructor; [by left |]. eapply Forall_impl; [exact Hin |]. intros; by right.
      * by constructor.
      * constructor; [done |]. rewrite Forall_forall in Hin, Hk.
        apply Forall_forall. auto.
    + destruct (IH Hs n) as (ks' & Hin & Hf & Hs').
      exists ks'. split; [| done]. eapply Forall_impl; [exact Hin |]. intros; by right.
Qed.

Lemma get_nearest_neighbors_spec sol nodes0 costs k node l :
  _get_nearest_neighbors sol nodes0 costs k node = Some l ->
  (length l <= k)%nat
  /\ Forall (fun m => m ∈ nodes0 /\ is_depot (node_at sol m) = false /\ m ≠ node) l
  /\ exists row ks,
       costs !! node_id (node_at sol node) = Some row
       /\ Forall (fun e => e ∈ row) ks
       /\ Forall2 (fun e m => py_list_get nodes0 e.1 = Some m) ks l
       /\ StronglySorted (fun a b => a.2 <= b.2) ks.
Proof.
  unfold _get_nearest_neighbors. intros H.
  apply bind_Some_inv in H as (row & Hrow & H).
  apply bind_Some_inv in H as (candidates & Hcand & [= <-]).
  apply mapM_Some in Hcand.
  assert (Forall2 (fun (e : Z * Z) m => py_list_get nodes0 e.1 = Some m)
            (py_sorted (fun a b : Z * Z => a.2 <? b.2) (dict_items row)) candidates) as Hcand'.
  { eapply Forall2_impl; [exact Hcand |]. by intros [? ?] ?. }
  split; [rewrite length_take; lia |]. split.
  - apply Forall_take. apply Forall_forall. intros m [[Hd Hne] Hm]%list_elem_of_filter.
    split; [| done].
    apply list_elem_of_lookup in Hm as [i Hi].
    destruct (Forall2_lookup_r _ _ _ _ _ Hcand' Hi) as (e & _ & He).
    by apply py_list_get_Some in He as [_ ?].
  - exists row.
    destruct (sorted_pick _ (fun a b : Z * Z => a.2 <= b.2)
                (fun m => is_depot (node_at sol m) = false /\ m ≠ node) _ _ Hcand') with (n := k)
      as (ks & Hin & Hf & Hs).
    + eapply StronglySorted_weaken;
        [| apply (py_sorted_sorted (fun a b : Z * Z => a.2 <? b.2))].
      * intros a b ?%Z.ltb_ge. done.
      * intros a b ?%Z.ltb_lt. apply Z.ltb_ge. lia.
      * intros a b c ?%Z.ltb_ge ?%Z.ltb_ge. apply Z.ltb_ge. lia.
    + exists ks. split; [done |]. split; [| done].
      eapply Forall_impl; [exact Hin |]. intros e He. cbn beta in He.
      by rewrite py_sorted_perm in He.
Qed.

Lemma reachable_neighborhood sol0 nodes0 self :
  reachable sol0 nodes0 self ->
  exists capacity self0,
    CostEvaluator_init sol0 nodes0 capacity = Some self0
    /\ nodes self = nodes0 /\ _costs self = _costs self0
    /\ neighborhood self = neighborhood self0
    /\ _in_neighborhood_of self = _in_neighborhood_of self0.
Proof.
  intros (capacity & self0 & Hinit & Hst)%reachable_statics.
  exists capacity, self0. split; [done |].
  injection Hst as -> -> -> -> _ _ _.
  by destruct (CostEvaluator_init_keys _ _ _ _ Hinit) as [-> _].
Qed.

(** X8: in every state of an evaluator, [get_neighborhood(n)] raises
    unless [n] is a node of the evaluator's node list that is not a depot;
    otherwise it returns at most 20 nodes of the node list, none of them a
    depot and none of them [n] itself. *)
Theorem get_neighborhood_spec sol0 nodes0 self n :
  reachable sol0 nodes0 self ->
  (is_Some (get_neighborhood self n) <-> n ∈ nodes0 /\ is_depot (node_at sol0 n) = false)
  /\ forall l, get_neighborhood self n = Some l ->
       (length l <= 20)%nat
       /\ Forall (fun m => m ∈ nodes0 /\ is_depot (node_at sol0 m) = false /\ m ≠ n) l.
Proof.
  intros (capacity & self0 & Hinit & _ & _ & Hnb & _)%reachable_neighborhood.
  unfold get_neighborhood. rewrite Hnb. split.
  - rewrite dict_get_is_Some. by apply CostEvaluator_init_keys in Hinit as (_ & _ & ?).
  - intros l Hl.
    destruct (CostEvaluator_init_neighborhood _ _ _ _ Hinit) as (costs & _ & _ & Hfold & _).
    apply comprehension_values in Hfold as [_ Hval].
    destruct (Hval n l Hl) as [? | Hnn]; [done |].
    by apply get_nearest_neighbors_spec in Hnn as (? & ? & _).
Qed.

(** X9: the neighbours of a node come from the entries [(k, c)] of the
    row of costs of the node, taken in non-decreasing order of the cost
    [c]; each neighbour is the node at index [k] of the node list. *)
Theorem get_neighborhood_sorted sol0 nodes0 self n l :
  reachable sol0 nodes0 self ->
  get_neighborhood self n = Some l ->
  exists row ks,
    _costs self !! node_id (node_at sol0 n) = Some row
    /\ Forall (fun e => e ∈ row) ks
    /\ Forall2 (fun e m => py_list_get nodes0 e.1 = Some m) ks l
    /\ StronglySorted (fun a b => a.2 <= b.2) ks.
Proof.
  intros (capacity & self0 & Hinit & _ & Hcosts & Hnb & _)%reachable_neighborhood.
  unfold get_neighborhood. rewrite Hnb, Hcosts. intros Hl.
  destruct (CostEvaluator_init_neighborhood _ _ _ _ Hinit) as (costs & _ & -> & Hfold & _).
  apply comprehension_values in Hfold as [_ Hval].
  destruct (Hval n l Hl) as [? | Hnn]; [done |].
  by apply get_nearest_neighbors_spec in Hnn as (_ & _ & ?).
Qed.

Lemma in_neighborhood_comprehension (nb : list (ref * list ref)) node keys acc0 others :
  foldlM (fun acc other =>
            l ← dict_get other nb;
            Some (if bool_decide (node ∈ l) then acc ++ [other] else acc)) acc0 keys
  = Some others ->
  forall b, b ∈ others <->
            b ∈ acc0 \/ (b ∈ keys /\ exists l, dict_get b nb = Some l /\ node ∈ l).
Proof.
  revert acc0. induction keys as [| k keys IH]; intros acc0 H b; cbn [foldlM] in H.
  - injection H as <-. rewrite elem_of_nil. naive_solver.
  - apply bind_Some_inv in H as (acc1 & H1 & H).
    apply bind_Some_inv in H1 as (l & Hl & [= <-]).
    rewrite (IH _ H b), elem_of_cons. case_bool_decide as Hin.
    + rewrite elem_of_app, list_elem_of_singleton. split.
      * intros [[? | ->] | [? ?]]; [by left | right | right]; eauto.
      * intros [? | [[-> | ?] ?]]; [by left; left | by left; right | by right].
    + split; [intros [? | [? ?]]; [by left | right; eauto] |].
      intros [? | [[-> | ?] (l' & Hl' & ?)]]; [by left | | right; eauto].
      congruence.
Qed.

(** X10: [_in_neighborhood_of] is the inverse of [neighborhood]: in every
    state of an evaluator, [b] is listed under [a] exactly when [a] is
    among the neighbours of [b]; the nodes that have an entry are the
    nodes of the node list that are not depots. *)
Theorem in_neighborhood_of_spec sol0 nodes0 self a :
  reachable sol0 nodes0 self ->
  (is_Some (dict_get a (_in_neighborhood_of self))
   <-> a ∈ nodes0 /\ is_depot (node_at sol0 a) = false)
  /\ forall l, dict_get a (_in_neighborhood_of self) = Some l ->
       forall b, b ∈ l <-> exists l', get_neighborhood self b = Some l' /\ a ∈ l'.
Proof.
  intros (capacity & self0 & Hinit & _ & _ & Hnb & Hinb)%reachable_neighborhood.
  unfold get_neighborhood. rewrite Hnb, Hinb.
  destruct (CostEvaluator_init_neighborhood _ _ _ _ Hinit) as (costs & _ & _ & _ & Hfold & _).
  split.
  - rewrite dict_get_is_Some.
    apply (comprehension_keys sol0 (fun _ node =>
             foldlM (fun acc other =>
                       l ← dict_get other (neighborhood self0);
                       Some (if bool_decide (node ∈ l) then acc ++ [other] else acc))
                    [] (dict_keys (neighborhood self0)))) in Hfold as [_ Hin];
      [| apply NoDup_nil_2].
    rewrite Hin. unfold dict_keys at 1. cbn. rewrite elem_of_nil. tauto.
  - intros l Hl b.
    apply comprehension_values in Hfold as [_ Hval].
    destruct (Hval a l Hl) as [? | Hothers]; [done |].
    rewrite (in_neighborhood_comprehension _ _ _ _ _ Hothers b), elem_of_nil.
    split.
    + intros [? | [_ ?]]; [done | done].
    + intros (l' & Hl' & Ha). right. split; [| eauto].
      apply dict_get_is_Some. by rewrite Hl'.
Qed.

(** ** The relocation caches *)

Lemma get_distance_outside_caches sol s s0 a b :
  outside_caches s = outside_caches s0 -> get_distance sol s a b = get_distance sol s0 a b.
Proof. unfold get_distance. by intros [= _ -> _ _ _ _ _ -> -> _ _ _]. Qed.

Lemma ejection_cost_outside_caches sol s s0 n :
  outside_caches s = outside_caches s0 -> ejection_cost sol s n = ejection_cost sol s0 n.
Proof. intros H. unfold ejection_cost. by rewrite !(get_distance_outside_caches sol s s0). Qed.

Lemma insertion_cost_outside_caches sol s s0 n a :
  outside_caches s = outside_caches s0 -> insertion_cost sol s n a = insertion_cost sol s0 n a.
Proof. intros H. unfold insertion_cost. by rewrite !(get_distance_outside_caches sol s s0). Qed.

Lemma update_ejection_costs_unfold sol s n s' :
  update_ejection_costs sol s n = Some s' ->
  exists v, ejection_cost sol s n = Some v
            /\ s' = set_ejection_costs (<[n := v]> (ejection_costs s)) s.
Proof.
  unfold update_ejection_costs, ejection_cost. intros H.
  apply bind_Some_inv in H as (a & -> & H).
  apply bind_Some_inv in H as (b & -> & H).
  apply bind_Some_inv in H as (c & -> & H). injection H as <-. eauto.
Qed.

Lemma update_insertion_costs_unfold sol s n a s' :
  _update_insertion_costs sol s n a = Some s' ->
  exists v, insertion_cost sol s n a = Some v
            /\ s' = set_insertion (<[(n, a) := v.1]> (insertion_costs s))
                                  (<[(n, a) := v.2]> (insertion_after s)) s.
Proof.
  unfold _update_insertion_costs, insertion_cost. intros H.
  apply bind_Some_inv in H as (b1 & -> & H).
  apply bind_Some_inv in H as (b2 & -> & H).
  apply bind_Some_inv in H as (b3 & -> & H).
  apply bind_Some_inv in H as (a1 & -> & H).
  rewrite bind_Some in H. destruct H as (a2 & [= <-] & H).
  apply bind_Some_inv in H as (a3 & -> & H). cbn.
  destruct (_ <=? _); injection H as <-; eauto.
Qed.

(** A loop, with the elements it has gone through. *)
Lemma foldlM_inv_prefix {A B : Type} (I : list A -> B -> Prop) (f : B -> A -> option B)
    (l : list A) (b b' : B) :
  (forall done x b b', I done b -> f b x = Some b' -> I (done ++ [x]) b') ->
  I [] b -> foldlM f b l = Some b' -> I l b'.
Proof.
  intros Hf. change l with ([] ++ l) at 2. generalize (@nil A) as done.
  revert b. induction l as [| x l IH]; intros b done Hb H; cbn [foldlM] in H.
  - injection H as <-. by rewrite app_nil_r.
  - apply bind_Some_inv in H as (b1 & H1 & H).
    rewrite cons_middle, app_assoc. eauto.
Qed.

Lemma relocation_inv_equiv sol self (T T' : ref -> ref -> Prop) done s :
  (forall x y, T x y <-> T' x y) ->
  relocation_inv sol self T done s -> relocation_inv sol self T' done s.
Proof.
  intros HT [H1 H2 H3 H4 H5 H6]. split; try done.
  - intros x y Hxy. apply H5. by apply HT.
  - intros x y Hxy. apply H6. by rewrite HT.
Qed.

Lemma relocation_inv_eject sol self T done s n s1 :
  relocation_inv sol self T done s ->
  update_ejection_costs sol s n = Some s1 ->
  is_Some (dict_get n (_in_neighborhood_of self)) ->
  relocation_inv sol self T (done ++ [n]) s1.
Proof.
  intros [H1 H2 H3 H4 H5 H6] (v & Hv & ->)%update_ejection_costs_unfold Hn.
  rewrite (ejection_cost_outside_caches sol s self n H1) in Hv.
  split; cbn; try done.
  - intros n' [? | ->%list_elem_of_singleton]%elem_of_app; auto.
  - intros n' Hn'. destruct (decide (n = n')) as [<- | Hne].
    + exists v. by rewrite lookup_insert_eq.
    + rewrite lookup_insert_ne by done. apply H3.
      apply elem_of_app in Hn' as [? | ?%list_elem_of_singleton]; [done | congruence].
  - intros n' Hn'. rewrite lookup_insert_ne; [apply H4 |]; set_solver.
Qed.

Lemma relocation_inv_insert sol self T done (g h : ref -> ref) ns s s2 :
  relocation_inv sol self T done s ->
  foldlM (fun s' p => _update_insertion_costs sol s' (g p) (h p)) s ns = Some s2 ->
  relocation_inv sol self (fun x y => T x y \/ exists p, p ∈ ns /\ (x, y) = (g p, h p)) done s2.
Proof.
  intros Hinv Hfold. revert Hfold.
  apply (foldlM_inv_prefix
           (fun seen s' =>
              relocation_inv sol self
                (fun x y => T x y \/ exists p, p ∈ seen /\ (x, y) = (g p, h p)) done s')).
  - clear s Hinv. intros seen p s s' [H1 H2 H3 H4 H5 H6] (v & Hv & ->)%update_insertion_costs_unfold.
    rewrite (insertion_cost_outside_caches sol s self _ _ H1) in Hv.
    split; cbn; try done.
    + intros x y Hxy. destruct (decide ((g p, h p) = (x, y))) as [[= <- <-] | Hne].
      * exists v. by rewrite !lookup_insert_eq.
      * rewrite !lookup_insert_ne by done. apply H5.
        destruct Hxy as [? | (p' & [? | ->%list_elem_of_singleton]%elem_of_app & Heq)];
          [by left | right; eauto | congruence].
    + intros x y Hxy. rewrite !lookup_insert_ne.
      * apply H6. intros [? | (p' & ? & ?)]; apply Hxy; [by left |].
        right. exists p'. split; [set_solver | done].
      * intros Heq. apply Hxy. right. exists p. split; [set_solver | done].
      * intros Heq. apply Hxy. right. exists p. split; [set_solver | done].
  - eapply relocation_inv_equiv; [| exact Hinv].
    intros x y. split; [by left |]. intros [? | (p & ?%elem_of_nil & _)]; done.
Qed.

Lemma update_relocation_costs_loop sol self s :
  foldlM (fun s node =>
            s1 ← update_ejection_costs sol s node;
            ns ← dict_get node (_in_neighborhood_of s1);
            s2 ← foldlM (fun s' potential_neighbour =>
                           _update_insertion_costs sol s' node potential_neighbour) s1 ns;
            ns' ← dict_get node (_in_neighborhood_of s2);
            foldlM (fun s' potential_neighbour =>
                      _update_insertion_costs sol s' potential_neighbour node) s2 ns')
         self (_nodes_to_update_for_relocation_chain self) = Some s ->
  relocation_inv sol self
    (relocation_pair self (_nodes_to_update_for_relocation_chain self))
    (_nodes_to_update_for_relocation_chain self) s.
Proof.
  apply (foldlM_inv_prefix
           (fun done s => relocation_inv sol self (relocation_pair self done) done s)).
  - clear s. intros done n s s' Hinv H.
    apply bind_Some_inv in H as (s1 & H1 & H).
    apply bind_Some_inv in H as (ns & Hns & H).
    apply bind_Some_inv in H as (s2 & H2 & H).
    apply bind_Some_inv in H as (ns' & Hns' & H).
    assert (dict_get n (_in_neighborhood_of self) = Some ns) as Hn.
    { apply update_ejection_costs_unfold in H1 as (v & _ & ->). cbn in Hns.
      destruct Hinv as [Ho _ _ _ _ _]. by injection Ho as _ _ _ _ _ _ _ _ _ _ <- _. }
    eapply relocation_inv_eject in H1; [| exact Hinv | by rewrite Hn].
    pose proof (relocation_inv_insert sol self _ _ (fun _ => n) (fun p => p) ns s1 s2 H1 H2)
      as H2'.
    assert (ns' = ns) as ->.
    { destruct H2' as [Ho _ _ _ _ _]. injection Ho as _ _ _ _ _ _ _ _ _ _ Ho _.
      rewrite Ho, Hn in Hns'. congruence. }
    pose proof (relocation_inv_insert sol self _ _ (fun p => p) (fun _ => n) ns s2 s' H2' H)
      as H'.
    eapply relocation_inv_equiv; [| exact H'].
    intros x y. unfold relocation_pair. split.
    + intros [[(n' & l & p & Hn' & Hl & Hp & Hxy) | (p & Hp & Hxy)] | (p & Hp & Hxy)].
      * exists n', l, p. split; [set_solver | done].
      * exists n, ns, p. split; [set_solver | auto].
      * exists n, ns, p. split; [set_solver | auto].
    + intros (n' & l & p & [Hn' | ->%list_elem_of_singleton]%elem_of_app & Hl & Hp & Hxy).
      * left; left. by exists n', l, p.
      * assert (l = ns) as -> by congruence.
        destruct Hxy as [Hxy | Hxy]; [left; right | right]; eauto.
  - split; try done.
    + by intros n ?%elem_of_nil.
    + by intros n ?%elem_of_nil.
    + intros x y (n & l & p & ?%elem_of_nil & _). done.
Qed.

(** X11: [update_relocation_costs] empties the dirty list and leaves
    everything but the two caches as it was.  The ejection cost of every
    node that was dirty is then the one [update_ejection_costs] computes
    for it in the state before the call, the ejection costs of the other
    nodes are as before, and a second call changes nothing. *)
Theorem update_relocation_costs_spec sol self self' :
  update_relocation_costs sol self = Some self' ->
  _nodes_to_update_for_relocation_chain self' = []
  /\ outside_caches self' = outside_caches self
  /\ (forall n, n ∈ _nodes_to_update_for_relocation_chain self ->
        exists v, ejection_cost sol self n = Some v /\ ejection_costs self' !! n = Some v)
  /\ (forall n, n ∉ _nodes_to_update_for_relocation_chain self ->
        ejection_costs self' !! n = ejection_costs self !! n)
  /\ update_relocation_costs sol self' = Some self'.
Proof.
  unfold update_relocation_costs at 1. intros H.
  apply bind_Some_inv in H as (s & Hs & H). injection H as <-.
  apply update_relocation_costs_loop in Hs as [H1 H2 H3 H4 H5 H6].
  split; [done |]. split; [done |]. split; [exact H3 |]. split; [exact H4 |]. reflexivity.
Qed.

(** X12: after [update_relocation_costs], for every node [n] that was
    dirty and every node [p] listed under [n] in [_in_neighborhood_of],
    the insertion entries of [(n, p)] and of [(p, n)] hold the cost and the
    anchor [_update_insertion_costs] computes for them in the state before
    the call; the entries of all other pairs are as before.  The call
    raises when a dirty node has no entry in [_in_neighborhood_of]. *)
Theorem update_relocation_costs_insertion sol self self' :
  update_relocation_costs sol self = Some self' ->
  (forall n, n ∈ _nodes_to_update_for_relocation_chain self ->
     is_Some (dict_get n (_in_neighborhood_of self)))
  /\ (forall x y, relocation_pair self (_nodes_to_update_for_relocation_chain self) x y ->
        exists v, insertion_cost sol self x y = Some v
                  /\ insertion_costs self' !! (x, y) = Some v.1
                  /\ insertion_after self' !! (x, y) = Some v.2)
  /\ (forall x y, ¬ relocation_pair self (_nodes_to_update_for_relocation_chain self) x y ->
        insertion_costs self' !! (x, y) = insertion_costs self !! (x, y)
        /\ insertion_after self' !! (x, y) = insertion_after self !! (x, y)).
Proof.
  unfold update_relocation_costs. intros H.
  apply bind_Some_inv in H as (s & Hs & H). injection H as <-.
  by apply update_relocation_costs_loop in Hs as [H1 H2 H3 H4 H5 H6].
Qed.

(** ** Distances in every state *)

Lemma representable_not_negative c : representable c -> 0 <= c.
Proof.
  intros [-> | (m & e & Hm & Hc)]; [done |].
  apply canonical_mantissa_eq in Hm.
  pose proof (scaled_pos (Zpos m) e ltac:(lia) ltac:(lia)).
  assert (0 < 2 ^ 1074) by (apply Z.pow_pos_nonneg; lia). nia.
Qed.

(** The penalized costs have the entries of the costs, and no others. *)
Lemma reachable_penalized_defined sol0 nodes0 self :
  reachable sol0 nodes0 self ->
  forall i j, is_Some (matrix_get (_penalized_costs self) i j)
              -> is_Some (matrix_get (_costs self) i j).
Proof.
  induction 1 as [capacity self Hinit
                 | sol self self' e Hreach IH Hop
                 | self edge _ IH
                 | sol self _ IH
                 | sol self _ IH
                 | sol self routes self' _ IH Hop
                 | sol self self' _ IH Hop
                 | sol self node self' _ IH Hop]; intros i j.
  - unfold CostEvaluator_init in Hinit.
    apply bind_Some_inv in Hinit as (costs & Hcosts & H).
    apply bind_Some_inv in H as (penalized & Hpen & H).
    apply bind_Some_inv in H as ([nb inb] & _ & H).
    apply bind_Some_inv in H as (total & _ & H).
    apply bind_Some_inv in H as (avg & _ & H).
    apply bind_Some_inv in H as (baseline & _ & H). injection H as <-. cbn.
    by rewrite (build_penalized_costs_get sol0 nodes0 costs penalized).
  - pose proof (inv_costs_symmetric _ _ _ (reachable_invariant _ _ _ Hreach)) as Hsym.
    unfold get_and_penalize_worst_edge in Hop.
    apply bind_Some_inv in Hop as (heap & _ & H).
    apply bind_Some_inv in H as ([popped rest] & _ & H).
    destruct (defaultdict_get _ _) as [p penalties].
    apply bind_Some_inv in H as (c & Hc & H).
    apply bind_Some_inv in H as (pc & _ & H).
    apply bind_Some_inv in H as (pen1 & Hpen1 & H).
    apply bind_Some_inv in H as (pen2 & Hpen2 & H).
    apply bind_Some_inv in H as (v & _ & H). injection H as <- _. cbn.
    rewrite (matrix_get_set_both _ _ _ _ _ _ _ _ Hpen1 Hpen2).
    case_decide as Hd; [| apply IH].
    intros _. destruct Hd as [[= -> ->] | [= -> ->]]; [| rewrite Hsym]; by rewrite Hc.
  - destruct (penalize_statics self edge) as [[= _ _ _ -> _ _ _] ->]. apply IH.
  - apply IH.
  - apply IH.
  - destruct (determine_edge_badness_statics _ _ _ _ Hop) as [[= _ _ _ -> _ _ _] ->]. apply IH.
  - destruct (update_relocation_costs_statics _ _ _ Hop) as [[= _ _ _ -> _ _ _] ->]. apply IH.
  - destruct (update_ejection_costs_statics _ _ _ _ Hop) as [[= _ _ _ -> _ _ _] ->]. apply IH.
Qed.

(** X13: in every state of an evaluator, with penalization enabled or
    disabled, [get_distance] does not depend on the order of the two
    nodes and is never negative; it raises for no two nodes of the node
    list (while they keep their ids); and enabling penalization never
    lowers a distance. *)
Theorem get_distance_spec sol0 nodes0 self sol a b :
  reachable sol0 nodes0 self ->
  get_distance sol self a b = get_distance sol self b a
  /\ (forall d, get_distance sol self a b = Some d -> 0 <= d)
  /\ (a ∈ nodes0 -> b ∈ nodes0 ->
      node_id (node_at sol a) = node_id (node_at sol0 a) ->
      node_id (node_at sol b) = node_id (node_at sol0 b) ->
      is_Some (get_distance sol self a b))
  /\ (forall d, get_distance sol (disable_penalization sol self) a b = Some d ->
        exists d', get_distance sol (enable_penalization sol self) a b = Some d' /\ d <= d').
Proof.
  intros Hreach.
  pose proof (reachable_invariant _ _ _ Hreach) as [Hsym Hdef Hrep _ _ Hpsym Habove].
  pose proof (reachable_penalized_defined _ _ _ Hreach) as Hpdef.
  assert (forall i j c, matrix_get (_costs self) i j = Some c -> 0 <= c) as Hnn.
  { intros i j c Hc. eapply representable_not_negative, Hrep, Hc. }
  unfold get_distance. cbn.
  split; [by destruct (_penalization_enabled self); cbn |].
  split; [| split].
  - intros d. destruct (_penalization_enabled self); cbn; [| apply Hnn].
    intros Hd. destruct (Hpdef _ _ (mk_is_Some _ _ Hd)) as [c Hc].
    destruct (Habove _ _ _ Hc) as (p & Hp & Hle). pose proof (Hnn _ _ _ Hc).
    assert (p = d) by congruence. lia.
  - intros Ha Hb -> ->. destruct (Hdef a b Ha Hb) as [c Hc].
    destruct (_penalization_enabled self); cbn; [| by rewrite Hc].
    destruct (Habove _ _ _ Hc) as (p & -> & _). done.
  - intros d Hd. by apply Habove.
Qed.

(** ** The costs of a solution *)

Lemma foldlM_app {A B : Type} (f : B -> A -> option B) (b : B) (l1 l2 : list A) :
  foldlM f b (l1 ++ l2) = (b' ← foldlM f b l1; foldlM f b' l2).
Proof.
  revert b. induction l1 as [| x l1 IH]; intros b; cbn [foldlM app]; [done |].
  destruct (f b x) as [b1 |]; cbn [mbind option_bind]; [apply IH | done].
Qed.

Lemma consecutive_pairs_snoc (l : list ref) y x :
  last l = Some y -> consecutive_pairs (l ++ [x]) = consecutive_pairs l ++ [(y, x)].
Proof.
  induction l as [| a [| b l] IH]; [done | |].
  - by intros [= ->].
  - intros Hlast. change (last (a :: b :: l)) with (last (b :: l)) in Hlast.
    change ((a :: b :: l) ++ [x]) with (a :: ((b :: l) ++ [x])).
    change (consecutive_pairs (a :: b :: l)) with ((a, b) :: consecutive_pairs (b :: l)).
    cbn [app]. change (consecutive_pairs (a :: b :: l ++ [x]))
      with ((a, b) :: consecutive_pairs ((b :: l) ++ [x])).
    by rewrite (IH Hlast).
Qed.

Section SolutionCosts.
Variable sol : VRPSolution.
Variable self : CostEvaluator.

Lemma route_costs_loop_spec ignore k : forall fuel acc cur,
  (k < fuel)%nat ->
  Forall (fun n => is_depot (node_at sol n) = false) (walk (next_of sol) k ((next_of sol) cur)) ->
  is_depot (node_at sol ((next_of sol) (Nat.iter k (next_of sol) cur))) = true ->
  route_costs_loop sol self ignore fuel acc cur
  = (c ← sum_edge_costs (solution_edge_cost sol self ignore) acc
           (consecutive_pairs (cur :: walk (next_of sol) k ((next_of sol) cur)));
     Some (c, Nat.iter k (next_of sol) cur)).
Proof.
  induction k as [| k IH]; intros [| fuel] acc cur Hfuel Hw Hd; try lia.
  - cbn in *. unfold next_of in Hd. by rewrite Hd.
  - cbn [walk] in *. apply Forall_cons in Hw as [Hn Hw].
    cbn [route_costs_loop]. change (next (node_at sol cur)) with (next_of sol cur).
    rewrite Hn. cbn [negb].
    change (consecutive_pairs (cur :: (next_of sol) cur :: walk (next_of sol) k ((next_of sol) ((next_of sol) cur))))
      with ((cur, (next_of sol) cur) :: consecutive_pairs ((next_of sol) cur :: walk (next_of sol) k ((next_of sol) ((next_of sol) cur)))).
    unfold sum_edge_costs. cbn [foldlM fst snd].
    destruct (solution_edge_cost sol self ignore cur ((next_of sol) cur)) as [d |];
      cbn [mbind option_bind]; [| done].
    rewrite Nat.iter_succ_r. apply IH; [lia | done |]. by rewrite <- Nat.iter_succ_r.
Qed.

Lemma route_costs_spec ignore fuel acc rt :
  wf_route sol rt -> size (route_at sol rt) < Z.of_nat fuel ->
  route_costs sol self fuel ignore acc rt
  = sum_edge_costs (solution_edge_cost sol self ignore) acc
      (if 0 <? size (route_at sol rt) then route_cycle sol rt else []).
Proof.
  intros (Hsize & Hdepot & Hcs & Hpairs & _) Hfuel. unfold route_costs, route_cycle.
  destruct (0 <? size (route_at sol rt)) eqn:Hpos; [| done].
  unfold get_nodes in *.
  change (fun n => next (node_at sol n)) with (next_of sol) in *.
  set (d := depot (route_at sol rt)) in *.
  destruct (Z.to_nat (size (route_at sol rt))) as [| k] eqn:Hk; [lia |].
  assert (last (d :: walk (next_of sol) (S k) ((next_of sol) d)) = Some (Nat.iter (S k) (next_of sol) d)) as Hlast.
  { rewrite walk_snoc. change (d :: ?l ++ ?r) with ((d :: l) ++ r).
    by rewrite last_snoc, Nat.iter_succ_r. }
  assert ((next_of sol) (Nat.iter (S k) (next_of sol) d) = d) as Hback.
  { rewrite Forall_forall in Hpairs.
    assert ((Nat.iter (S k) (next_of sol) d, d) ∈ consecutive_pairs (d :: walk (next_of sol) (S k) ((next_of sol) d) ++ [d]))
      as Hin.
    { change (d :: ?l ++ ?r) with ((d :: l) ++ r).
      rewrite (consecutive_pairs_snoc _ _ _ Hlast). set_solver. }
    by destruct (Hpairs _ Hin) as [? _]. }
  rewrite (route_costs_loop_spec ignore (S k)); [| lia | | by rewrite Hback].
  - change (d :: ?l ++ ?r) with ((d :: l) ++ r).
    rewrite (consecutive_pairs_snoc _ _ _ Hlast).
    unfold sum_edge_costs. rewrite foldlM_app.
    destruct (foldlM _ acc _) as [c |]; cbn [mbind option_bind foldlM fst snd]; [| done].
    change (next (node_at sol ?n)) with (next_of sol n).
    rewrite Hback. by destruct (solution_edge_cost _ _ _ _ _).
  - eapply Forall_impl; [exact Hcs |]. by intros n [? _].
Qed.

Lemma routes_costs_spec ignore fuel (l : list ref) : forall acc,
  Forall (wf_route sol) l ->
  Forall (fun rt => size (route_at sol rt) < Z.of_nat fuel) l ->
  foldlM (route_costs sol self fuel ignore) acc l
  = sum_edge_costs (solution_edge_cost sol self ignore) acc
      (rt ← filter (fun rt => 0 < size (route_at sol rt)) l; route_cycle sol rt).
Proof.
  induction l as [| rt l IH]; intros acc Hwf Hfuel; [done |].
  apply Forall_cons in Hwf as [Hrt Hwf]. apply Forall_cons in Hfuel as [Hf Hfuel].
  cbn [foldlM]. rewrite (route_costs_spec ignore fuel acc rt Hrt Hf), filter_cons.
  destruct (0 <? size (route_at sol rt)) eqn:Hpos.
  - rewrite decide_True by lia. cbn [mbind list_bind]. change (mbind ?f ?l) with (l ≫= f).
    unfold sum_edge_costs at 2. rewrite foldlM_app. fold (sum_edge_costs).
    unfold sum_edge_costs at 1.
    destruct (foldlM _ acc (route_cycle sol rt)) as [c |]; cbn [mbind option_bind]; [| done].
    by apply IH.
  - rewrite decide_False by lia. cbn [sum_edge_costs foldlM mbind option_bind]. by apply IH.
Qed.
End SolutionCosts.

(** X14: on a well-formed solution, when the fuel exceeds the size of
    every route, [get_solution_costs] adds the cost of every edge along
    the cycle of every route that is not empty (from the depot, through
    the members, back to the depot), and raises exactly when one of these
    costs is missing; an empty route adds nothing. *)
Theorem get_solution_costs_spec sol self fuel ignore_penalties :
  wf_solution sol ->
  Forall (fun rt => size (route_at sol rt) < Z.of_nat fuel) (routes sol) ->
  get_solution_costs sol self fuel ignore_penalties
  = sum_edge_costs (solution_edge_cost sol self ignore_penalties) 0
      (rt ← filter (fun rt => 0 < size (route_at sol rt)) (routes sol); route_cycle sol rt).
Proof.
  intros [_ Hwf] Hfuel. by apply routes_costs_spec.
Qed.

Section PenalizedSolutionCosts.
Variable sol : VRPSolution.
Variable self : CostEvaluator.
Variable fuel : nat.

(** Every edge costs at least as much with the penalties as without, and
    never less than nothing. *)
Hypothesis Hedge : forall a b d d',
  solution_edge_cost sol self true a b = Some d ->
  solution_edge_cost sol self false a b = Some d' -> 0 <= d <= d'.

Lemma route_costs_loop_mono n : forall acc acc' cur c last c' last',
  0 <= acc <= acc' ->
  route_costs_loop sol self true n acc cur = Some (c, last) ->
  route_costs_loop sol self false n acc' cur = Some (c', last') ->
  0 <= c <= c' /\ last = last'.
Proof.
  induction n as [| n IH]; intros acc acc' cur c last c' last' Hacc H H'; [done |].
  cbn [route_costs_loop] in H, H'.
  destruct (negb (is_depot (node_at sol (next (node_at sol cur))))).
  - apply bind_Some_inv in H as (d & Hd & H). apply bind_Some_inv in H' as (d' & Hd' & H').
    pose proof (Hedge _ _ _ _ Hd Hd'). eapply IH; [| exact H | exact H']. lia.
  - injection H as <- <-. injection H' as <- <-. done.
Qed.

Lemma route_costs_mono acc acc' rt c c' :
  0 <= acc <= acc' ->
  route_costs sol self fuel true acc rt = Some c ->
  route_costs sol self fuel false acc' rt = Some c' ->
  0 <= c <= c'.
Proof.
  intros Hacc. unfold route_costs. destruct (0 <? size (route_at sol rt)).
  - intros H H'.
    apply bind_Some_inv in H as ([c1 last] & H1 & H).
    apply bind_Some_inv in H' as ([c1' last'] & H1' & H').
    destruct (route_costs_loop_mono _ _ _ _ _ _ _ _ Hacc H1 H1') as [Hc <-].
    apply bind_Some_inv in H as (d & Hd & [= <-]).
    apply bind_Some_inv in H' as (d' & Hd' & [= <-]).
    pose proof (Hedge _ _ _ _ Hd Hd'). lia.
  - by intros [= <-] [= <-].
Qed.

Lemma routes_costs_mono (l : list ref) : forall acc acc' c c',
  0 <= acc <= acc' ->
  foldlM (route_costs sol self fuel true) acc l = Some c ->
  foldlM (route_costs sol self fuel false) acc' l = Some c' ->
  0 <= c <= c'.
Proof.
  induction l as [| rt l IH]; intros acc acc' c c' Hacc H H'; cbn [foldlM] in H, H'.
  - injection H as <-. by injection H' as <-.
  - apply bind_Some_inv in H as (c1 & H1 & H). apply bind_Some_inv in H' as (c1' & H1' & H').
    eapply IH; [| exact H | exact H']. by eapply route_costs_mono.
Qed.
End PenalizedSolutionCosts.

Lemma route_costs_loop_disabled sol self n :
  _penalization_enabled self = false ->
  forall acc cur,
    route_costs_loop sol self false n acc cur = route_costs_loop sol self true n acc cur.
Proof.
  intros Hoff. induction n as [| n IH]; intros acc cur; [done |].
  cbn [route_costs_loop]. unfold solution_edge_cost, get_distance. rewrite Hoff. cbn [negb].
  destruct (negb _); [| done]. destruct (matrix_get _ _ _); cbn; [apply IH | done].
Qed.

Lemma route_costs_disabled sol self fuel :
  _penalization_enabled self = false ->
  forall acc rt,
    route_costs sol self fuel false acc rt = route_costs sol self fuel true acc rt.
Proof.
  intros Hoff acc rt. unfold route_costs.
  rewrite (route_costs_loop_disabled sol self fuel Hoff).
  destruct (0 <? size (route_at sol rt)); [| done].
  destruct (route_costs_loop sol self true fuel acc _) as [[c last] |]; [| done].
  cbn [mbind option_bind]. unfold solution_edge_cost, get_distance. by rewrite Hoff.
Qed.

(** X15: in every state of an evaluator and for every solution, the costs
    of the solution without the penalties are never negative and never
    above its costs with the penalties, and both are the same number
    while penalization is disabled. *)
Theorem get_solution_costs_penalized sol0 nodes0 self sol fuel :
  reachable sol0 nodes0 self ->
  (_penalization_enabled self = false ->
   get_solution_costs sol self fuel false = get_solution_costs sol self fuel true)
  /\ forall c c',
       get_solution_costs sol self fuel true = Some c ->
       get_solution_costs sol self fuel false = Some c' ->
       0 <= c <= c'.
Proof.
  intros Hreach. split.
  - intros Hoff. unfold get_solution_costs. generalize 0.
    induction (routes sol) as [| rt l IH]; intros acc; [done |].
    cbn [foldlM]. rewrite (route_costs_disabled sol self fuel Hoff).
    destruct (route_costs sol self fuel true acc rt); cbn [mbind option_bind]; [apply IH | done].
  - intros c c' H H'. unfold get_solution_costs in *.
    eapply (routes_costs_mono sol self fuel); [| | exact H | exact H']; [| done].
    intros a b d d' Hd Hd'. unfold solution_edge_cost in Hd, Hd'.
    destruct (get_distance_spec sol0 nodes0 self sol a b Hreach) as (_ & _ & _ & Hup).
    pose proof (reachable_invariant _ _ _ Hreach) as [_ _ Hrep _ _ _ Habove].
    pose proof (representable_not_negative _ (Hrep _ _ _ Hd)).
    split; [done |]. unfold get_distance in Hd'.
    destruct (_penalization_enabled self); cbn in Hd';
      [| assert (d = d') by congruence; lia].
    destruct (Habove _ _ _ Hd) as (p & Hp & ?). assert (p = d') by congruence. lia.
Qed.

(** ** Moves that share no route *)

(** X16: for two moves whose segments are not empty, [is_disjunct]
    returns whether none of the two routes of the one is a route of the
    other; so its result does not depend on the order of the two moves,
    and no move is disjunct from itself. *)
Theorem is_disjunct_spec sol a b r1 r2 q1 q2 :
  get_routes sol a = Some (r1, r2) ->
  get_routes sol b = Some (q1, q2) ->
  is_disjunct sol a b = Some (bool_decide (r1 ≠ q1 /\ r1 ≠ q2 /\ r2 ≠ q1 /\ r2 ≠ q2))
  /\ is_disjunct sol a b = is_disjunct sol b a
  /\ is_disjunct sol a a = Some false.
Proof.
  unfold get_routes. intros Ha Hb.
  apply bind_Some_inv in Ha as (a1 & Ha1 & Ha).
  apply bind_Some_inv in Ha as (a2 & Ha2 & [= <- <-]).
  apply bind_Some_inv in Hb as (b1 & Hb1 & Hb).
  apply bind_Some_inv in Hb as (b2 & Hb2 & [= <- <-]).
  assert (forall x y x1 x2 y1 y2,
             head (segment1 x) = Some x1 -> head (segment2 x) = Some x2 ->
             head (segment1 y) = Some y1 -> head (segment2 y) = Some y2 ->
             is_disjunct sol x y
             = Some (bool_decide (route (node_at sol x1) ≠ route (node_at sol y1)
                                  /\ route (node_at sol x1) ≠ route (node_at sol y2)
                                  /\ route (node_at sol x2) ≠ route (node_at sol y1)
                                  /\ route (node_at sol x2) ≠ route (node_at sol y2))))
    as Hspec.
  { intros x y x1 x2 y1 y2 Hx1 Hx2 Hy1 Hy2. unfold is_disjunct.
    rewrite Hx1, Hx2, Hy1, Hy2. cbn [mbind option_bind].
    repeat case_bool_decide; try done; exfalso;
      repeat match goal with
             | H : _ ∈ _ :: _ |- _ => apply elem_of_cons in H as [H | H]
             | H : _ ∈ [] |- _ => by apply elem_of_nil in H
             | H : ¬ _ ∈ _ |- _ => rewrite !elem_of_cons, elem_of_nil in H
             end; naive_solver. }
  split; [by apply Hspec |]. split.
  - rewrite (Hspec a b a1 a2 b1 b2), (Hspec b a b1 b2 a1 a2) by done.
    f_equal. apply bool_decide_ext. naive_solver.
  - rewrite (Hspec a a a1 a2 a1 a2) by done. f_equal. apply bool_decide_eq_false. tauto.
Qed.

(** ** Searching from a node without a neighbourhood *)

Lemma reachable_get_neighborhood_None sol0 nodes0 self s :
  reachable sol0 nodes0 self ->
  ¬ (s ∈ nodes0 /\ is_depot (node_at sol0 s) = false) ->
  get_neighborhood self s = None.
Proof.
  intros (capacity & self0 & Hinit & _ & _ & Hnb & _)%reachable_neighborhood Hs.
  unfold get_neighborhood. rewrite Hnb.
  destruct (dict_get s (neighborhood self0)) as [l |] eqn:Hl; [| done].
  exfalso. apply Hs. apply CostEvaluator_init_keys in Hinit as (_ & _ & Hkeys).
  apply Hkeys, dict_get_is_Some. by rewrite Hl.
Qed.

(** X17: in every state of an evaluator, [search_cross_exchanges] raises
    when one of the start nodes is a depot or is not in the evaluator's
    node list: such a node has no neighbourhood. *)
Theorem search_cross_exchanges_without_neighborhood sol0 nodes0 self sol fuel start_nodes s :
  reachable sol0 nodes0 self ->
  s ∈ start_nodes ->
  ¬ (s ∈ nodes0 /\ is_depot (node_at sol0 s) = false) ->
  search_cross_exchanges self sol fuel start_nodes = None.
Proof.
  intros Hreach Hs Hno.
  pose proof (reachable_get_neighborhood_None _ _ _ _ Hreach Hno) as Hnone.
  assert (search_cross_exchanges_from self sol fuel s [0; 1] [0; 1] = None) as Hfrom.
  { assert (forall d1 d2, search_direction self sol fuel s d1 d2 = None) as Hdir.
    { intros d1 d2. unfold search_direction. by rewrite Hnone. }
    unfold search_cross_exchanges_from. cbn [mapM]. by rewrite !Hdir. }
  unfold search_cross_exchanges.
  destruct (mapM _ start_nodes) as [moves |] eqn:Hmoves; [| done].
  exfalso. assert (is_Some (mapM (fun start_node =>
                     search_cross_exchanges_from self sol fuel start_node [0; 1] [0; 1])
                     start_nodes)) as Hsome by (by rewrite Hmoves).
  apply mapM_is_Some in Hsome. rewrite Forall_forall in Hsome.
  destruct (Hsome s Hs) as [x Hx]. unfold compose in Hx. by rewrite Hfrom in Hx.
Qed.

(** ** Penalizing the worst edge *)

Lemma binary_round_aux_not_nan s m e l :
  0 <= m -> binary_round_aux prec emax s m e l ≠ S754_nan.
Proof.
  intros Hm. unfold binary_round_aux.
  destruct (shr_fexp prec emax m e l) as [mrs1 e1] eqn:H1.
  destruct (shr_fexp_m _ _ _ _ _ Hm H1) as [He1 Hm1].
  assert (0 <= shr_m mrs1) as Hnn1.
  { rewrite Hm1. apply Z.div_pos; [done |]. apply Z.pow_pos_nonneg; lia. }
  pose proof (round_nearest_even_ge (shr_m mrs1) (loc_of_shr_record mrs1)) as Hrne.
  set (m2 := round_nearest_even (shr_m mrs1) (loc_of_shr_record mrs1)) in *.
  destruct (shr_fexp prec emax m2 e1 loc_Exact) as [mrs2 e2] eqn:H2.
  assert (0 <= m2) as Hm2 by lia.
  destruct (shr_fexp_m _ _ _ _ _ Hm2 H2) as [He2 Hm3].
  assert (0 <= shr_m mrs2) as Hnn2.
  { rewrite Hm3. apply Z.div_pos; [done |]. apply Z.pow_pos_nonneg; lia. }
  destruct (shr_m mrs2); [done | | lia]. by destruct (e2 <=? emax - prec).
Qed.

Lemma binary_normalize_not_nan m e : binary_normalize prec emax m e false ≠ S754_nan.
Proof.
  destruct m as [| p | p]; [done | |]; cbn [binary_normalize]; unfold binary_round;
    destruct (shl_align p e _) as [mz ez]; apply binary_round_aux_not_nan; lia.
Qed.

Lemma py_int_truediv_is_number a b f : py_int_truediv a b = Some f -> is_number f.
Proof.
  unfold py_int_truediv, is_number.
  destruct (b =? 0); [done |]. destruct (a =? 0).
  { intros [= <-]. by destruct (b <? 0). }
  cbv zeta. destruct (is_infinity _); [done |]. intros [= <-].
  match goal with |- is_nan ?x = false => destruct (is_nan x) eqn:Hnan; [| done] end.
  apply is_nan_spec in Hnan. rewrite Prim2SF_SF2Prim in Hnan by apply binary_normalize_valid.
  by apply binary_normalize_not_nan in Hnan.
Qed.

(** X18: [get_and_penalize_worst_edge] raises when the evaluator has no
    ranking yet or the ranking is empty. *)
Theorem get_and_penalize_worst_edge_needs_ranking sol self :
  (forall heap, _edge_ranking self = Some heap -> heap = []) ->
  get_and_penalize_worst_edge sol self = None.
Proof.
  intros Hempty. unfold get_and_penalize_worst_edge.
  destruct (_edge_ranking self) as [heap |]; [| done].
  by rewrite (Hempty heap eq_refl).
Qed.

(** X19: when the ranking is in order, [get_and_penalize_worst_edge]
    returns the nodes of an edge whose value was at least the value of
    every edge of the ranking, and leaves a ranking in order with as many
    edges as before. *)
Theorem get_and_penalize_worst_edge_ranking sol self heap self' e :
  _edge_ranking self = Some heap -> ranking_ok heap ->
  get_and_penalize_worst_edge sol self = Some (self', e) ->
  exists worst heap',
    head heap = Some worst
    /\ edge_nodes e = edge_nodes worst
    /\ Forall (fun x => (value x <=? value worst)%float = true) heap
    /\ _edge_ranking self' = Some heap'
    /\ ranking_ok heap'
    /\ length heap' = length heap.
Proof.
  intros Hheap Hok. unfold get_and_penalize_worst_edge. rewrite Hheap. cbn [mbind option_bind].
  intros H. apply bind_Some_inv in H as ([worst rest] & Hpop & H).
  destruct (defaultdict_get _ _) as [p penalties].
  apply bind_Some_inv in H as (c & _ & H).
  apply bind_Some_inv in H as (pc & _ & H).
  apply bind_Some_inv in H as (pen1 & _ & H).
  apply bind_Some_inv in H as (pen2 & _ & H).
  apply bind_Some_inv in H as (v & Hv & H). injection H as <- <-.
  unfold get_max_element in Hpop.
  destruct (heappop_perm edge_lt _ _ _ Hpop) as [Hhead Hperm].
  destruct (heappop_ranking_ok _ _ _ Hok Hpop) as [Hrest Hmax].
  exists worst, (insert_element rest (mkEdge (edge_nodes worst) v)).
  split; [done |]. split; [done |]. split; [done |]. split; [done |]. split.
  - apply heappush_ranking_ok; [done |]. by eapply py_int_truediv_is_number.
  - unfold insert_element. rewrite (Permutation_length (heappush_perm edge_lt _ _)).
    by rewrite <- (Permutation_length Hperm).
Qed.

Lemma determine_edge_badness_ranking sol self routes self' :
  determine_edge_badness sol self routes = Some self' ->
  exists edges, _edge_ranking self' = Some (heapify edge_lt edges).
Proof.
  unfold determine_edge_badness. intros H.
  apply bind_Some_inv in H as ([penalties edges] & _ & H). injection H as <-. by exists edges.
Qed.

(** ** The width of an edge *)

Lemma abs_sub_sym (x y : float) : abs (x - y) = abs (y - x).
Proof. apply Prim2SF_inj. rewrite !abs_spec, !sub_spec. apply SFabs_SFsub. Qed.

Lemma py_abs_idemp w : py_abs (py_abs w) = py_abs w.
Proof.
  destruct w as [z | f]; cbn [py_abs]; f_equal; [apply Z.abs_idemp |].
  apply Prim2SF_inj. rewrite !abs_spec. by destruct (Prim2SF f).
Qed.

(** X20: the width of an edge does not depend on the order of its two
    nodes, and it is an absolute value: taking [abs] of it changes
    nothing (it is never a negative number). *)
Theorem compute_edge_width_orientation sol e e' cx cy depot :
  edge_nodes e' = ((edge_nodes e).2, (edge_nodes e).1) ->
  _compute_edge_width sol e' cx cy depot = _compute_edge_width sol e cx cy depot
  /\ forall w, _compute_edge_width sol e cx cy depot = Some w -> py_abs w = w.
Proof.
  intros He'. unfold _compute_edge_width, get_first_node, get_second_node.
  rewrite He'. cbn [fst snd].
  destruct (math_pow2 (x_coordinate _ - cx)) as [px |]; [| split; [done | intros w Hw; cbn in Hw; discriminate Hw]].
  cbn [mbind option_bind].
  destruct (math_pow2 (y_coordinate _ - cy)) as [py |]; [| split; [done | intros w Hw; cbn in Hw; discriminate Hw]].
  cbn [mbind option_bind].
  destruct (math_sqrt _) as [dist |]; [| split; [done | intros w Hw; cbn in Hw; discriminate Hw]].
  cbn [mbind option_bind].
  destruct (is_zero dist);
    cbn [py_sub py_to_float mbind option_bind fmap option_fmap option_map py_abs].
  - split; [done |]. by intros w [= <-].
  - split; [by rewrite abs_sub_sym |].
    intros w [= <-]. apply (py_abs_idemp (PyFloat _)).
Qed.

End AnyLibm.

(* ===================================================================== *)
(** * Part IX: the scenarios, evaluated                                 *)
(* ===================================================================== *)

(** The scenarios run on [ieee_libm]. *)
#[local] Existing Instance ieee_libm.

(** ** Relocation caches and penalization *)

Lemma update_insertion_costs_witness :
  exists self',
    _update_insertion_costs s5_solution s5_evaluator 1%nat 3%nat = Some self'
    /\ insertion_costs self' !! (1%nat, 3%nat) = Some 2
    /\ insertion_after self' !! (1%nat, 3%nat) = Some 3%nat.
Proof.
  destruct (update_insertion_costs_spec s5_solution s5_evaluator 1%nat 3%nat 10 15 11 1 14)
    as (self' & H & Hc & Ha & _); try (vm_compute; reflexivity).
  exists self'. split; [exact H |]. split; [exact Hc | exact Ha].
Defined.

Lemma get_and_penalize_worst_edge_witness :
  exists self' e,
    get_and_penalize_worst_edge s3_solution s3_evaluator = Some (self', e)
    /\ _edge_penalties self' !! (0%nat, 1%nat) = Some 1
    /\ matrix_get (_penalized_costs self') 0 1 = Some 6
    /\ value e = 2.5%float.
Proof.
  pose proof (get_and_penalize_worst_edge_spec s3_solution s3_evaluator) as Hspec.
  destruct (get_and_penalize_worst_edge s3_solution s3_evaluator) as [[self' e]|] eqn:Hcall;
    [|vm_compute in Hcall; discriminate].
  exists self', e. split; [reflexivity |].
  destruct (Hspec self' e eq_refl) as (heap & popped & rest & c & Hheap & _ & Hhead & H).
  injection Hheap as <-. injection Hhead as <-.
  destruct H as (_ & Hc & _ & _ & _ & _ & Hs3).
  vm_compute in Hc. injection Hc as <-.
  apply Hs3; reflexivity.
Defined.

(** ** Scenario S5 *)

Lemma s5_evaluator_init :
  CostEvaluator_init s5_solution [0; 1; 2; 3; 4]%nat 10 = Some s5_evaluator.
Proof.
  unfold s5_evaluator.
  destruct (CostEvaluator_init s5_solution [0; 1; 2; 3; 4]%nat 10) eqn:H; [done |].
  vm_compute in H. discriminate.
Qed.

Lemma penalization_switch_dirty_set_witness :
  _nodes_to_update_for_relocation_chain (enable_penalization s5_solution s5_evaluator)
  = [1; 2; 3; 4]%nat
  /\ NoDup (_nodes_to_update_for_relocation_chain (enable_penalization s5_solution s5_evaluator)).
Proof.
  split; [vm_compute; reflexivity |].
  refine (proj1 (proj2 (penalization_switch_dirty_set s5_solution [0; 1; 2; 3; 4]%nat
                          s5_evaluator s5_solution _ _ _ _))).
  - eapply reach_init. exact s5_evaluator_init.
  - reflexivity.
  - left. reflexivity.
Defined.

Lemma s5_wf : wf_solution s5_solution.
Proof.
  split.
  - compute_done.
  - repeat constructor; simpl; lia || reflexivity.
Qed.

Lemma s5_customers : Forall (customer s5_solution) [1; 2; 3; 4]%nat.
Proof.
  repeat constructor.
  - exists 0%nat. split; solve_elem_of.
  - exists 0%nat. split; solve_elem_of.
  - exists 1%nat. split; solve_elem_of.
  - exists 1%nat. split; solve_elem_of.
Qed.

Lemma s5_distances_defined : distances_defined s5_evaluator s5_solution.
Proof.
  assert (forall i j, (i <= 4)%nat -> (j <= 4)%nat ->
                      is_Some (matrix_get (_costs s5_evaluator) (Z.of_nat i) (Z.of_nat j))) as H.
  { intros i j Hi Hj.
    do 5 (destruct i as [|i]; [do 5 (destruct j as [|j]; [vm_compute; eauto |]); lia |]).
    lia. }
  intros a b. unfold get_distance.
  replace (_penalization_enabled s5_evaluator) with false by (vm_compute; reflexivity).
  cbn [negb].
  assert (forall r, exists i, (i <= 4)%nat /\ node_id (node_at s5_solution r) = Z.of_nat i) as Hid.
  { intros r.
    do 7 (destruct r as [|r];
          [first [exists 0%nat; split; [lia | reflexivity]
                 | exists 1%nat; split; [lia | reflexivity]
                 | exists 2%nat; split; [lia | reflexivity]
                 | exists 3%nat; split; [lia | reflexivity]
                 | exists 4%nat; split; [lia | reflexivity]] |]).
    exists 0%nat. split; [lia | reflexivity]. }
  destruct (Hid a) as (i & Hi & ->), (Hid b) as (j & Hj & ->). by apply H.
Qed.


Lemma search_cross_exchanges_from_moves_shape_witness :
  exists moves,
    search_cross_exchanges_from s5_evaluator s5_solution 5 1%nat [0; 1] [0; 1] = Some moves
    /\ Forall (fun m => segment1 m ≠ [] /\ segment2 m ≠ []) moves.
Proof.
  destruct (search_cross_exchanges_from s5_evaluator s5_solution 5 1%nat [0; 1] [0; 1])
    as [moves|] eqn:Hsome; [|vm_compute in Hsome; discriminate].
  exists moves. split; [reflexivity |].
  eapply Forall_impl.
  - apply (search_cross_exchanges_from_moves_shape s5_evaluator s5_solution 5 1%nat
             [4; 2; 3]%nat [0; 1] [0; 1] moves).
    + exact s5_wf.
    + exists 0%nat. split; solve_elem_of.
    + vm_compute. reflexivity.
    + pose proof s5_customers as H. rewrite Forall_forall in H.
      repeat constructor; apply H; solve_elem_of.
    + exact Hsome.
  - intros m (H1 & H2 & _). split; [exact H1 | exact H2].
Defined.

(** *** A route without customers *)


(** *** The ranking of S5 *)

Lemma s5_ranked_eq :
  determine_edge_badness s5_solution s5_evaluator [0; 1]%nat = Some s5_ranked.
Proof.
  unfold s5_ranked.
  destruct (determine_edge_badness s5_solution s5_evaluator [0; 1]%nat) eqn:H; [done |].
  vm_compute in H. discriminate.
Qed.

Lemma s5_heap_eq : _edge_ranking s5_ranked = Some s5_heap.
Proof.
  unfold s5_heap. destruct (_edge_ranking s5_ranked) eqn:H; [done |].
  vm_compute in H. discriminate.
Qed.


Lemma edge_ranking_pops_by_value_witness :
  exists popped,
    pop_all (length s5_heap) s5_heap = (popped, [])
    /\ length popped = 6%nat
    /\ StronglySorted (fun a b => (value b <=? value a)%float = true) popped.
Proof.
  destruct (edge_ranking_pops_by_value s5_solution s5_evaluator [0; 1]%nat s5_ranked s5_heap)
    as (edges & popped & _ & _ & Hdrain & Hperm & Hsorted).
  - exact s5_ranked_eq.
  - exact s5_heap_eq.
  - vm_compute. repeat constructor.
  - exists popped. split; [exact Hdrain |]. split; [|exact Hsorted].
    apply Permutation_length in Hperm. rewrite Hperm. vm_compute. reflexivity.
Defined.

(** *** A ranking with NaN values *)

Lemma far_evaluator_init :
  CostEvaluator_init far_solution [0; 1; 2; 3; 4]%nat 10 = Some far_evaluator.
Proof.
  unfold far_evaluator.
  destruct (CostEvaluator_init far_solution [0; 1; 2; 3; 4]%nat 10) eqn:H; [done |].
  vm_compute in H. discriminate.
Qed.

Lemma far_ranked_eq :
  determine_edge_badness far_solution far_evaluator [0; 1]%nat = Some far_ranked.
Proof.
  unfold far_ranked.
  destruct (determine_edge_badness far_solution far_evaluator [0; 1]%nat) eqn:H; [done |].
  vm_compute in H. discriminate.
Qed.

Lemma far_heap_eq : _edge_ranking far_ranked = Some far_heap.
Proof.
  unfold far_heap. destruct (_edge_ranking far_ranked) eqn:H; [done |].
  vm_compute in H. discriminate.
Qed.

(** C5 as the claim states it, without a condition on the values, fails.
    In the far solution every coordinate is finite, the constructor
    returns and so does [determine_edge_badness] on the fresh evaluator
    (criterion [width]).  The line equation of route 1 overflows, which
    makes the values of its three edges NaN, while the edges of route 0
    have numbers.  Calling [get_max_element] until the ranking is empty
    then returns a NaN first, and next the edge [(b, depot)] before the
    edge [(a, b)], whose value is larger: the order is not
    non-increasing. *)
Lemma edge_ranking_pops_nan :
  Forall (fun r => is_finite (x_coordinate (far_node r)) = true
                   /\ is_finite (y_coordinate (far_node r)) = true)
    [0; 1; 2; 3; 4; 5; 6]%nat
  /\ CostEvaluator_init far_solution [0; 1; 2; 3; 4]%nat 10 = Some far_evaluator
  /\ determine_edge_badness far_solution far_evaluator [0; 1]%nat = Some far_ranked
  /\ _edge_ranking far_ranked = Some far_heap
  /\ exists e1 e2 e3 e4 e5 e6,
      pop_all (length far_heap) far_heap = ([e1; e2; e3; e4; e5; e6], [])
      /\ is_nan (value e1) = true
      /\ edge_nodes e2 = (2, 5)%nat
      /\ edge_nodes e3 = (1, 2)%nat
      /\ (value e2 <? value e3)%float = true
      /\ ~ StronglySorted (fun a b => (value b <=? value a)%float = true)
             [e1; e2; e3; e4; e5; e6].
Proof.
  split; [repeat constructor |].
  split; [exact far_evaluator_init |].
  split; [exact far_ranked_eq |].
  split; [exact far_heap_eq |].
  destruct (pop_all (length far_heap) far_heap) as [popped rest] eqn:Hpop.
  vm_compute in Hpop. apply (inj2 pair) in Hpop as [<- <-].
  eexists _, _, _, _, _, _. split; [reflexivity |].
  split; [reflexivity |]. split; [reflexivity |]. split; [reflexivity |].
  split; [reflexivity |].
  intros Hsorted.
  apply StronglySorted_inv in Hsorted as [Hsorted _].
  apply StronglySorted_inv in Hsorted as [_ Hsorted].
  apply Forall_cons in Hsorted as [Hsorted _].
  vm_compute in Hsorted. discriminate Hsorted.
Qed.

(** *** S5 with its worst edge penalized *)

Lemma s5_penalized_eq :
  exists e, get_and_penalize_worst_edge s5_solution s5_ranked = Some (s5_penalized, e).
Proof.
  unfold s5_penalized.
  destruct (get_and_penalize_worst_edge s5_solution s5_ranked) as [[s e] |] eqn:H; [by exists e |].
  vm_compute in H. discriminate.
Qed.

Lemma penalized_costs_symmetric_and_above_witness :
  matrix_get (_penalized_costs s5_penalized) 1 2 = matrix_get (_penalized_costs s5_penalized) 2 1
  /\ exists p, matrix_get (_penalized_costs s5_penalized) 1 2 = Some p /\ 14 <= p.
Proof.
  destruct (penalized_costs_symmetric_and_above s5_solution [0; 1; 2; 3; 4]%nat s5_penalized)
    as [H _].
  - destruct s5_penalized_eq as [e He].
    eapply reach_get_and_penalize_worst_edge; [| exact He].
    eapply reach_determine_edge_badness; [| exact s5_ranked_eq].
    eapply reach_init. exact s5_evaluator_init.
  - destruct (H 1 2) as [Hs Ha]. split; [exact Hs |]. apply Ha. vm_compute. reflexivity.
Defined.

(** ** Further code *)

Lemma fresh_get_distance_witness :
  get_distance s5_solution s5_evaluator 1%nat 3%nat = Some 15
  /\ get_distance s5_solution (enable_penalization s5_solution s5_evaluator) 1%nat 3%nat
     = Some 15.
Proof.
  destruct (fresh_get_distance s5_solution [0; 1; 2; 3; 4]%nat 10 s5_evaluator 1%nat 3%nat)
    as (a' & b' & d & Ha & Hb & Hd & H1 & H2 & _).
  - exact s5_evaluator_init.
  - solve_elem_of.
  - solve_elem_of.
  - assert (d = 15) as ->; [| split; [exact H1 | exact H2]].
    vm_compute in Ha, Hb. injection Ha as <-. injection Hb as <-.
    vm_compute in Hd. congruence.
Defined.

Lemma CostEvaluator_init_requires_witness :
  (forall n, n ∈ [0; 1; 2; 3; 4]%nat ->
     - 5 <= node_id (node_at s5_solution n) < 5)
  /\ CostEvaluator_init s5_solution [] 10 = None.
Proof.
  split; [| reflexivity].
  destruct (CostEvaluator_init_requires s5_solution [0; 1; 2; 3; 4]%nat 10 s5_evaluator
              s5_evaluator_init) as (_ & _ & H).
  apply H. exists 1%nat. split; [solve_elem_of | reflexivity].
Defined.

Lemma get_neighborhood_spec_witness :
  get_neighborhood s5_evaluator 0%nat = None
  /\ exists l, get_neighborhood s5_evaluator 1%nat = Some l /\ (length l <= 20)%nat.
Proof.
  assert (reachable s5_solution [0; 1; 2; 3; 4]%nat s5_evaluator) as Hreach.
  { eapply reach_init. exact s5_evaluator_init. }
  split.
  - destruct (get_neighborhood s5_evaluator 0%nat) as [l |] eqn:Hl; [| done].
    destruct (proj1 (proj1 (get_neighborhood_spec _ _ _ 0%nat Hreach))) as [_ Hd];
      [by rewrite Hl | discriminate Hd].
  - destruct (proj2 (proj1 (get_neighborhood_spec _ _ _ 1%nat Hreach))) as [l Hl].
    { split; [solve_elem_of | reflexivity]. }
    exists l. split; [done |].
    by apply (proj2 (get_neighborhood_spec _ _ _ 1%nat Hreach)) in Hl as [? _].
Defined.

Lemma get_neighborhood_sorted_witness :
  exists ks : list (Z * Z),
    Forall2 (fun e m => py_list_get [0; 1; 2; 3; 4]%nat e.1 = Some m) ks [4; 2; 3]%nat
    /\ StronglySorted (fun a b => a.2 <= b.2) ks.
Proof.
  destruct (get_neighborhood_sorted s5_solution [0; 1; 2; 3; 4]%nat s5_evaluator 1%nat
              [4; 2; 3]%nat) as (row & ks & _ & _ & H1 & H2).
  - eapply reach_init. exact s5_evaluator_init.
  - vm_compute. reflexivity.
  - by exists ks.
Defined.

Lemma in_neighborhood_of_spec_witness :
  exists l, dict_get 1%nat (_in_neighborhood_of s5_evaluator) = Some l
            /\ forall b, b ∈ l <-> exists l', get_neighborhood s5_evaluator b = Some l' /\ 1%nat ∈ l'.
Proof.
  assert (reachable s5_solution [0; 1; 2; 3; 4]%nat s5_evaluator) as Hreach.
  { eapply reach_init. exact s5_evaluator_init. }
  destruct (proj2 (proj1 (in_neighborhood_of_spec _ _ _ 1%nat Hreach))) as [l Hl].
  { split; [solve_elem_of | reflexivity]. }
  exists l. split; [done |].
  exact (proj2 (in_neighborhood_of_spec _ _ _ 1%nat Hreach) l Hl).
Defined.

Lemma s5_dirty : _nodes_to_update_for_relocation_chain s5_evaluator = [1; 2; 3; 4]%nat.
Proof. vm_compute. reflexivity. Qed.

Lemma s5_relocated_eq : update_relocation_costs s5_solution s5_evaluator = Some s5_relocated.
Proof.
  unfold s5_relocated.
  destruct (update_relocation_costs s5_solution s5_evaluator) eqn:H; [done |].
  vm_compute in H. discriminate.
Qed.

Lemma update_relocation_costs_spec_witness :
  _nodes_to_update_for_relocation_chain s5_relocated = []
  /\ ejection_costs s5_relocated !! 1%nat = Some 14.
Proof.
  destruct (update_relocation_costs_spec s5_solution s5_evaluator s5_relocated s5_relocated_eq)
    as (Hd & _ & He & _).
  split; [exact Hd |].
  destruct (He 1%nat) as (v & Hv & Hl).
  - rewrite s5_dirty. by left.
  - vm_compute in Hv. injection Hv as <-. exact Hl.
Defined.

Lemma update_relocation_costs_insertion_witness :
  exists v, insertion_cost s5_solution s5_evaluator 1%nat 4%nat = Some v
            /\ insertion_costs s5_relocated !! (1%nat, 4%nat) = Some v.1
            /\ insertion_after s5_relocated !! (1%nat, 4%nat) = Some v.2.
Proof.
  destruct (update_relocation_costs_insertion s5_solution s5_evaluator s5_relocated
              s5_relocated_eq) as (_ & H & _).
  apply H. exists 1%nat, [2; 3; 4]%nat, 4%nat.
  split; [rewrite s5_dirty; by left |]. split; [vm_compute; reflexivity |].
  split; [by do 2 right; left | by left].
Defined.

Lemma get_distance_spec_witness :
  get_distance s5_solution s5_penalized 1%nat 2%nat
  = get_distance s5_solution s5_penalized 2%nat 1%nat
  /\ is_Some (get_distance s5_solution s5_penalized 1%nat 2%nat).
Proof.
  destruct (get_distance_spec s5_solution [0; 1; 2; 3; 4]%nat s5_penalized s5_solution
              1%nat 2%nat) as (Hs & _ & Hd & _).
  - destruct s5_penalized_eq as [e He].
    eapply reach_get_and_penalize_worst_edge; [| exact He].
    eapply reach_determine_edge_badness; [| exact s5_ranked_eq].
    eapply reach_init. exact s5_evaluator_init.
  - split; [exact Hs |]. clear Hs. apply Hd; [solve_elem_of | solve_elem_of | reflexivity | reflexivity].
Defined.

Lemma get_solution_costs_spec_witness :
  get_solution_costs s5_solution s5_evaluator 3 false = Some 69.
Proof.
  rewrite (get_solution_costs_spec s5_solution s5_evaluator 3 false).
  - vm_compute. reflexivity.
  - exact s5_wf.
  - repeat constructor.
Defined.

Lemma get_solution_costs_penalized_witness :
  exists c c',
    get_solution_costs s5_solution (enable_penalization s5_solution s5_penalized) 3 true
    = Some c
    /\ get_solution_costs s5_solution (enable_penalization s5_solution s5_penalized) 3 false
       = Some c'
    /\ 0 <= c <= c'.
Proof.
  assert (reachable s5_solution [0; 1; 2; 3; 4]%nat
            (enable_penalization s5_solution s5_penalized)) as Hreach.
  { apply reach_enable_penalization. destruct s5_penalized_eq as [e He].
    eapply reach_get_and_penalize_worst_edge; [| exact He].
    eapply reach_determine_edge_badness; [| exact s5_ranked_eq].
    eapply reach_init. exact s5_evaluator_init. }
  destruct (get_solution_costs s5_solution (enable_penalization s5_solution s5_penalized)
              3 true) as [c |] eqn:Hc; [| vm_compute in Hc; discriminate].
  destruct (get_solution_costs s5_solution (enable_penalization s5_solution s5_penalized)
              3 false) as [c' |] eqn:Hc'; [| vm_compute in Hc'; discriminate].
  exists c, c'. split; [done |]. split; [done |].
  refine (proj2 (get_solution_costs_penalized _ _ _ s5_solution 3 Hreach) c c' _ Hc').
  exact Hc.
Defined.

Lemma is_disjunct_spec_witness :
  is_disjunct s5_solution (mkCrossExchange [1%nat] [3%nat] 3%nat 1%nat 1 1%nat)
                          (mkCrossExchange [4%nat] [2%nat] 2%nat 4%nat 1 4%nat)
  = Some false.
Proof.
  refine (proj1 (is_disjunct_spec s5_solution _ _ 0%nat 1%nat 1%nat 0%nat _ _));
    reflexivity.
Defined.

Lemma search_cross_exchanges_without_neighborhood_witness :
  search_cross_exchanges s5_evaluator s5_solution 3 [1; 5]%nat = None.
Proof.
  apply (search_cross_exchanges_without_neighborhood s5_solution [0; 1; 2; 3; 4]%nat
           s5_evaluator s5_solution 3 [1; 5]%nat 5%nat).
  - eapply reach_init. exact s5_evaluator_init.
  - by right; left.
  - intros [_ Hd]. discriminate Hd.
Defined.

Lemma get_and_penalize_worst_edge_needs_ranking_witness :
  get_and_penalize_worst_edge s5_solution s5_evaluator = None.
Proof.
  apply get_and_penalize_worst_edge_needs_ranking.
  intros heap Hheap. vm_compute in Hheap. discriminate Hheap.
Defined.

Lemma s5_heap_ok : ranking_ok s5_heap.
Proof.
  destruct (determine_edge_badness_ranking _ _ _ _ s5_ranked_eq) as [edges Hr].
  rewrite s5_heap_eq in Hr. apply (inj Some) in Hr.
  assert (Forall (fun e => is_number (value e)) s5_heap) as HP
    by (vm_compute; repeat constructor).
  rewrite Hr in *. apply heapify_ranking_ok. by rewrite heapify_perm in HP.
Qed.

Lemma get_and_penalize_worst_edge_ranking_witness :
  exists heap', _edge_ranking s5_penalized = Some heap' /\ ranking_ok heap'
                /\ length heap' = length s5_heap.
Proof.
  destruct s5_penalized_eq as [e He].
  destruct (get_and_penalize_worst_edge_ranking s5_solution s5_ranked s5_heap s5_penalized e)
    as (worst & heap' & _ & _ & _ & H1 & H2 & H3).
  - exact s5_heap_eq.
  - exact s5_heap_ok.
  - exact He.
  - exists heap'. split; [exact H1 | split; [exact H2 | exact H3]].
Defined.

Lemma compute_edge_width_orientation_witness :
  _compute_edge_width s5_solution (mkEdge (2, 1)%nat 0) 5 5 5%nat
  = _compute_edge_width s5_solution (mkEdge (1, 2)%nat 0) 5 5 5%nat.
Proof.
  refine (proj1 (compute_edge_width_orientation s5_solution (mkEdge (1, 2)%nat 0)
                   (mkEdge (2, 1)%nat 0) 5 5 5%nat _)).
  reflexivity.
Defined.
